(** * Landmark navigation: graph, planner, debouncer and state machine

    A shallow embedding of the navigation core of the two AR navigation
    components, [NavigationPage] and [IntegratedNavigation], and of the
    keyword matching of the voice command handlers.

    Conventions of the embedding.
    - JS objects used as tables ([nodes], [edges], [prev]) are finite maps,
      [Set]s are finite sets, arrays are lists.
    - [Date.now()] is an explicit integer argument (milliseconds).
    - A handler is a function from the closure's variables (a record) to the
      new variables and the list of effects it issued, in order.
    - A call that does not return (an endless loop) is [None] at the outer
      [option] of a result. *)

From Stdlib Require Import Ascii.
From stdpp Require Import numbers strings list relations gmap fin_maps fin_sets.


(** ** Landmark graph *)

Record NodeData := { label : string }.

Record Edge := { to : string; say : string }.

(** [edges[cur] || []] *)
Definition out_edges (edges : gmap string (list Edge)) (cur : string) : list Edge :=
  default [] (edges !! cur).

(** The directed edge relation of the table. *)
Definition edge (edges : gmap string (list Edge)) (u v : string) : Prop :=
  ∃ e, e ∈ out_edges edges u ∧ to e = v.

(** Every landmark id that occurs as the target of some edge. *)
Definition targets (edges : gmap string (list Edge)) : gset string :=
  list_to_set (flat_map (λ kv, to <$> kv.2) (map_to_list edges)).

(** ** Path planner *)

Module Planner.

(** The three locals of [bfsPath]. *)
Record bfs := { q : list string; prev : gmap string string; seen : gset string }.

(** The [while (p !== start)] loop that walks [prev] back from the goal,
    pushing on [path]; [None] when it does not terminate within [fuel]
    rounds or reads a missing [prev] entry (then [p] is [undefined] forever). *)
Fixpoint walk_back (fuel : nat) (prev : gmap string string) (start p : string)
    (path : list string) : option (list string) :=
  if decide (p = start) then Some path
  else match fuel with
       | O => None
       | S fuel' =>
           match prev !! p with
           | None => None
           | Some p' => walk_back fuel' prev start p' (path ++ [p'])
           end
       end.

(** Body of [if (nxt === goal) { ... }]: build the path, reverse it. *)
Definition rebuild (prev : gmap string string) (start goal : string)
    : option (list string) :=
  reverse <$> walk_back (size prev) prev start goal [goal].

(** What one run of the [for (const e of edges[cur] || [])] loop leaves. *)
Inductive scanned :=
  | Returned (r : option (list string))
  | Continue (st : bfs).

Fixpoint scan (start goal cur : string) (es : list Edge) (st : bfs) : scanned :=
  match es with
  | [] => Continue st
  | e :: es' =>
      let nxt := to e in
      if decide (nxt ∈ seen st) then scan start goal cur es' st
      else
        let seen' := {[nxt]} ∪ seen st in
        let prev' := <[nxt := cur]> (prev st) in
        if decide (nxt = goal) then Returned (rebuild prev' start goal)
        else scan start goal cur es'
               {| q := q st ++ [nxt]; prev := prev'; seen := seen' |}
  end.

Section WithGraph.
Context (edges : gmap string (list Edge)).

  (** The [while (q.length)] loop; the inner [option] is the value returned
      ([None] for [null]). *)
Fixpoint loop (fuel : nat) (start goal : string) (st : bfs)
      : option (option (list string)) :=
    match fuel with
    | O => None
    | S fuel' =>
        match q st with
        | [] => Some None
        | cur :: rest =>
            match scan start goal cur (out_edges edges cur)
                    {| q := rest; prev := prev st; seen := seen st |} with
            | Returned r => Some <$> r
            | Continue st' => loop fuel' start goal st'
            end
        end
    end.

  (** A bound on the rounds of the outer loop: every landmark is dequeued at
      most once, and only [start] and edge targets are ever enqueued. *)
Definition rounds (start : string) : nat :=
    S (size ({[start]} ∪ targets edges)).

Definition bfsPath_run (start goal : string) : option (option (list string)) :=
    if decide (start = goal) then Some (Some [start])
    else loop (rounds start) start goal
           {| q := [start]; prev := ∅; seen := {[start]} |}.

  (** [bfsPath(start, goal)]; [bfsPath_run_returns] below shows the run
      always returns, so the [None] of a run that does not return is never
      taken. *)
Definition bfsPath (start goal : string) : option (list string) :=
    default None (bfsPath_run start goal).

End WithGraph.

End Planner.

(** ** The two landmark tables *)

Module NavigationTables.
Definition nodes : gmap string NodeData :=
    list_to_map
      [ ("two", {| label := "2 sign" |});
        ("washroom", {| label := "Washroom" |});
        ("couch", {| label := "Couch" |});
        ("painting", {| label := "Painting" |});
        ("caution", {| label := "Caution sign" |});
        ("door", {| label := "Door" |}) ].

Definition ACTIVE_NODES : gset string :=
    list_to_set ["two"; "washroom"; "caution"; "door"].

Definition edges : gmap string (list Edge) :=
    list_to_map
      [ ("two",
          [ {| to := "washroom";
               say := "Landmark confirmed: 2 sign. Take a right to reach the washroom." |} ]);
        ("washroom",
          [ {| to := "caution";
               say := "Landmark confirmed: washroom. Go straight to reach the caution sign." |};
            {| to := "two";
               say := "Landmark confirmed: washroom. Go straight to reach the 2 sign." |} ]);
        ("caution",
          [ {| to := "door";
               say := "Landmark confirmed: caution sign. Take a right to reach the door." |};
            {| to := "washroom";
               say := "Landmark confirmed: caution sign. Take a left to reach the washroom." |} ]);
        ("door",
          [ {| to := "caution";
               say := "Landmark confirmed: door. Turn around, then go straight to reach the caution sign." |} ]) ].

Definition indexToNode : gmap nat string :=
  list_to_map
    [ (0, "two"); (1, "washroom"); (2, "couch"); (3, "painting");
      (4, "caution"); (5, "door") ].
End NavigationTables.

Module IntegratedTables.
Definition nodes : gmap string NodeData :=
    list_to_map
      [ ("elevator", {| label := "Elevator" |});
        ("washroom", {| label := "Bathroom" |});
        ("mainhall", {| label := "Main hall" |});
        ("exitdoor", {| label := "Exit door" |}) ].

Definition ACTIVE_NODES : gset string :=
    list_to_set ["elevator"; "washroom"; "mainhall"; "exitdoor"].

Definition edges : gmap string (list Edge) :=
    list_to_map
      [ ("elevator", [ {| to := "washroom"; say := "Go right and walk straight." |} ]);
        ("washroom",
          [ {| to := "mainhall"; say := "Walk straight." |};
            {| to := "elevator"; say := "Walk straight." |} ]);
        ("mainhall",
          [ {| to := "exitdoor"; say := "Go right and walk straight." |};
            {| to := "washroom"; say := "Take a left then walk straight." |} ]);
        ("exitdoor", [ {| to := "mainhall"; say := "Do a 180, then walk straight." |} ]) ].

(** Targets 3 and 4 both show the exit door. *)
Definition indexToNode : gmap nat string :=
  list_to_map
    [ (0, "elevator"); (1, "washroom"); (2, "mainhall"); (3, "exitdoor");
      (4, "exitdoor") ].
End IntegratedTables.


(** ** Effects at the boundary of the navigation core *)

(** The one callback that is ever scheduled:
    [setTimeout(announceNextInstruction, 350)]. *)
Inductive Callback := AnnounceNextInstruction.

Inductive Effect :=
  | Speak (msg : string) (interrupt : bool)  (* speak(msg, { interrupt }) *)
  | CancelSpeech                             (* window.speechSynthesis.cancel() *)
  | Beep                                     (* beep() *)
  | Vibrate                                  (* vibrate() *)
  | SetTimeout (cb : Callback) (ms : Z)      (* setTimeout(cb, ms) *)
  | Uncaught.                                (* TypeError: a property of undefined was
                                                read; the handler stops here *)

(** JS truthiness of a [string | null]: [null] and [''] are falsy. *)
Definition truthy (o : option string) : bool :=
  match o with
  | Some s => bool_decide (s ≠ "")
  | None => false
  end.

(** [arr[i]] for a number [i]: [undefined] outside the array. *)
Definition at_index {A} (arr : list A) (i : Z) : option A :=
  if decide (0 ≤ i)%Z then arr !! Z.to_nat i else None.

(** [nodes[id].label]; [None] when [nodes[id]] is [undefined] (the read of
    [.label] then throws). *)
Definition label_of (nodes : gmap string NodeData) (id : string) : option string :=
  label <$> nodes !! id.

(** ** Recognition debouncer *)

Record Debouncer := { candidate : option string; candidateSince : Z }.

Definition stableMs : Z := 500.

(** [acceptStable(nodeId)], with [now] the value of [Date.now()]. *)
Definition acceptStable (nodeId : string) (now : Z) (d : Debouncer)
    : Debouncer * bool :=
  if decide (candidate d ≠ Some nodeId) then
    ({| candidate := Some nodeId; candidateSince := now |}, false)
  else (d, bool_decide (stableMs ≤ now - candidateSince d)%Z).

(** ** The navigation state machine of [NavigationPage] *)

Module NavigationPage.

(** The mutable variables of the navigation effect's closure. *)
Record Nav := {
  destinationNode : string;
  currentNode : option string;
  path : option (list string);
  pathStep : Z;
  lastSpoken : string;
  segmentPrompted : bool;
  lastConfirmedAt : Z;
  debouncer : Debouncer;
}.

Definition initial (destination : string) : Nav :=
  {| destinationNode := destination; currentNode := None; path := None;
     pathStep := 0; lastSpoken := ""; segmentPrompted := false;
     lastConfirmedAt := 0;
     debouncer := {| candidate := None; candidateSince := 0 |} |}.

Definition set_destinationNode (v : string) (s : Nav) : Nav :=
  {| destinationNode := v; currentNode := currentNode s; path := path s;
     pathStep := pathStep s; lastSpoken := lastSpoken s;
     segmentPrompted := segmentPrompted s; lastConfirmedAt := lastConfirmedAt s;
     debouncer := debouncer s |}.

Definition set_currentNode (v : option string) (s : Nav) : Nav :=
  {| destinationNode := destinationNode s; currentNode := v; path := path s;
     pathStep := pathStep s; lastSpoken := lastSpoken s;
     segmentPrompted := segmentPrompted s; lastConfirmedAt := lastConfirmedAt s;
     debouncer := debouncer s |}.

Definition set_path (v : option (list string)) (s : Nav) : Nav :=
  {| destinationNode := destinationNode s; currentNode := currentNode s; path := v;
     pathStep := pathStep s; lastSpoken := lastSpoken s;
     segmentPrompted := segmentPrompted s; lastConfirmedAt := lastConfirmedAt s;
     debouncer := debouncer s |}.

Definition set_pathStep (v : Z) (s : Nav) : Nav :=
  {| destinationNode := destinationNode s; currentNode := currentNode s;
     path := path s; pathStep := v; lastSpoken := lastSpoken s;
     segmentPrompted := segmentPrompted s; lastConfirmedAt := lastConfirmedAt s;
     debouncer := debouncer s |}.

Definition set_lastSpoken (v : string) (s : Nav) : Nav :=
  {| destinationNode := destinationNode s; currentNode := currentNode s;
     path := path s; pathStep := pathStep s; lastSpoken := v;
     segmentPrompted := segmentPrompted s; lastConfirmedAt := lastConfirmedAt s;
     debouncer := debouncer s |}.

Definition set_segmentPrompted (v : bool) (s : Nav) : Nav :=
  {| destinationNode := destinationNode s; currentNode := currentNode s;
     path := path s; pathStep := pathStep s; lastSpoken := lastSpoken s;
     segmentPrompted := v; lastConfirmedAt := lastConfirmedAt s;
     debouncer := debouncer s |}.

Definition set_lastConfirmedAt (v : Z) (s : Nav) : Nav :=
  {| destinationNode := destinationNode s; currentNode := currentNode s;
     path := path s; pathStep := pathStep s; lastSpoken := lastSpoken s;
     segmentPrompted := segmentPrompted s; lastConfirmedAt := v;
     debouncer := debouncer s |}.

Definition set_debouncer (v : Debouncer) (s : Nav) : Nav :=
  {| destinationNode := destinationNode s; currentNode := currentNode s;
     path := path s; pathStep := pathStep s; lastSpoken := lastSpoken s;
     segmentPrompted := segmentPrompted s; lastConfirmedAt := lastConfirmedAt s;
     debouncer := v |}.

(** Run [k] after the effects [pre] were issued. *)
Definition after (pre : list Effect) (k : Nav * list Effect) : Nav * list Effect :=
  (k.1, pre ++ k.2).

(** [speak(msg, { interrupt })]: remembers the text, then hands it to the
    speech synthesis. *)
Definition speak (msg : string) (interrupt : bool) (s : Nav) : Nav * list Effect :=
  (set_lastSpoken msg s, [Speak msg interrupt]).

(** [speak] of a template literal that reads a label: the read throws when
    the landmark has no entry in [nodes], before [speak] is entered. *)
Definition speak_labelled (msg : option string) (interrupt : bool) (s : Nav)
    : Nav * list Effect :=
  match msg with
  | Some m => speak m interrupt s
  | None => (s, [Uncaught])
  end.

Definition movementPromptDelayMs : Z := 4500.

(** The guard [!currentNode || !path]: no route is being followed. *)
Definition unrouted (s : Nav) : bool :=
  negb (truthy (currentNode s)) || negb (bool_decide (is_Some (path s))).

Section machine.
Context (nodes : gmap string NodeData) (edges : gmap string (list Edge))
  (ACTIVE_NODES : gset string) (indexToNode : gmap nat string).

Definition resetNav (s : Nav) : Nav * list Effect :=
  let s := set_currentNode None s in
  let s := set_path None s in
  let s := set_pathStep 0 s in
  let s := set_segmentPrompted false s in
  let s := set_lastConfirmedAt 0 s in
  speak "Pick a destination, then scan any landmark to start." true s.

Definition setDestinationHandler (newDest : string) (s : Nav) : Nav * list Effect :=
  let s := set_destinationNode newDest s in
  let s := set_currentNode None s in
  let s := set_path None s in
  let s := set_pathStep 0 s in
  let s := set_segmentPrompted false s in
  let s := set_lastConfirmedAt 0 s in
  speak_labelled
    ((λ l, "Destination set to " +:+ l +:+ ". Scan any landmark to start.")
       <$> label_of nodes (destinationNode s))
    true s.

(** [getEdgeInstruction(from, to)]; either argument may be [undefined] (an
    index outside [path]), and then no edge is found. *)
Definition getEdgeInstruction (from to_ : option string) : string :=
  match from, to_ with
  | Some f, Some t =>
      match List.find (λ x, bool_decide (to x = t)) (out_edges edges f) with
      | Some e => say e
      | None => "Landmark confirmed. Continue forward carefully and scan again."
      end
  | _, _ => "Landmark confirmed. Continue forward carefully and scan again."
  end.

Definition announceNextInstruction (s : Nav) : Nav * list Effect :=
  match path s with
  | None => (s, [])
  | Some p =>
      if decide (Z.of_nat (length p) - 1 ≤ pathStep s)%Z then
        speak "You have arrived." true s
      else
        let from := at_index p (pathStep s) in
        let to_ := at_index p (pathStep s + 1) in
        speak (getEdgeInstruction from to_) true s
  end.

(** [maybeGiveMovementPrompt()], run every 700 ms; [now] is [Date.now()]. *)
Definition maybeGiveMovementPrompt (now : Z) (s : Nav) : Nav * list Effect :=
  if negb (truthy (currentNode s)) then (s, [])
  else if negb (bool_decide (is_Some (path s))) then (s, [])
  else if segmentPrompted s then (s, [])
  else if decide (now - lastConfirmedAt s < movementPromptDelayMs)%Z then (s, [])
  else
    let s := set_segmentPrompted true s in
    speak "Keep moving forward carefully." false s.

Definition startRoutingFrom (nodeId : string) (now : Z) (s : Nav)
    : Nav * list Effect :=
  let s := set_currentNode (Some nodeId) s in
  let s := set_path (Planner.bfsPath edges nodeId (destinationNode s)) s in
  let s := set_pathStep 0 s in
  let s := set_segmentPrompted false s in
  let s := set_lastConfirmedAt now s in
  match path s with
  | None => speak "No route found from here." true s
  | Some _ =>
      match label_of nodes nodeId with
      | None => (s, [Uncaught])
      | Some l =>
          let r := speak ("Starting at " +:+ l +:+ ".") true s in
          (r.1, r.2 ++ [SetTimeout AnnounceNextInstruction 350])
      end
  end.

(** The part of [onNodeConfirmed] after the cues, when a route is being
    followed ([currentNode] is [cur], [path] is [p]). *)
Definition onRoute (nodeId cur : string) (p : list string) (s : Nav)
    : Nav * list Effect :=
  if bool_decide (pathStep s < Z.of_nat (length p) - 1)%Z
     && bool_decide (at_index p (pathStep s + 1) = Some nodeId) then
    let s := set_pathStep (pathStep s + 1) s in
    let s := set_currentNode (Some nodeId) s in
    announceNextInstruction s
  else if decide (nodeId ≠ cur) then
    let s := set_currentNode (Some nodeId) s in
    let s := set_path (Planner.bfsPath edges nodeId (destinationNode s)) s in
    let s := set_pathStep 0 s in
    match path s with
    | None => speak "I cannot find a route from here." true s
    | Some _ =>
        match label_of nodes nodeId with
        | None => (s, [Uncaught])
        | Some l =>
            let r := speak ("Re routing from " +:+ l +:+ ".") true s in
            (r.1, r.2 ++ [SetTimeout AnnounceNextInstruction 350])
        end
    end
  else announceNextInstruction s.

(** [onNodeConfirmed(nodeId)]; [now] and [now'] are the two readings of
    [Date.now()], the second one inside [startRoutingFrom]. The
    [console.log] of an ignored landmark is not modelled. *)
Definition onNodeConfirmed (nodeId : string) (now now' : Z) (s : Nav)
    : Nav * list Effect :=
  if decide (nodeId ∈ ACTIVE_NODES) then
    let s := set_lastConfirmedAt now s in
    let s := set_segmentPrompted false s in
    after [CancelSpeech; Beep; Vibrate]
      match currentNode s, path s with
      | Some cur, Some p =>
          if truthy (Some cur) then onRoute nodeId cur p s
          else startRoutingFrom nodeId now' s
      | _, _ => startRoutingFrom nodeId now' s
      end
  else (s, []).

(** [onTargetFound(targetIndex)]; [t] is the reading of [Date.now()] in
    [acceptStable]. *)
Definition onTargetFound (targetIndex : nat) (t now now' : Z) (s : Nav)
    : Nav * list Effect :=
  match indexToNode !! targetIndex with
  | None => (s, [])
  | Some nodeId =>
      if truthy (Some nodeId) then
        let '(d, ok) := acceptStable nodeId t (debouncer s) in
        let s := set_debouncer d s in
        if ok then onNodeConfirmed nodeId now now' s else (s, [])
      else (s, [])
  end.

Definition handleRepeat (s : Nav) : Nav * list Effect :=
  if bool_decide (lastSpoken s ≠ "") then speak (lastSpoken s) true s else (s, []).

(** Everything that can run on the closure's variables. *)
Inductive Event :=
  | NodeConfirmed (nodeId : string) (now now' : Z)
  | TargetFound (targetIndex : nat) (t now now' : Z)
  | DestinationChanged (newDest : string)
  | Reset
  | Repeat
  | MovementTick (now : Z)
  | TimerFired (cb : Callback).

Definition handle (ev : Event) (s : Nav) : Nav * list Effect :=
  match ev with
  | NodeConfirmed nodeId now now' => onNodeConfirmed nodeId now now' s
  | TargetFound i t now now' => onTargetFound i t now now' s
  | DestinationChanged d => setDestinationHandler d s
  | Reset => resetNav s
  | Repeat => handleRepeat s
  | MovementTick now => maybeGiveMovementPrompt now s
  | TimerFired AnnounceNextInstruction => announceNextInstruction s
  end.

(** The events in order, with everything they issued. *)
Fixpoint run (evs : list Event) (s : Nav) : Nav * list Effect :=
  match evs with
  | [] => (s, [])
  | ev :: evs' => let r := handle ev s in after r.2 (run evs' r.1)
  end.

(** The states a session can be in. *)
Definition reachable (s : Nav) : Prop :=
  ∃ destination evs, s = (run evs (initial destination)).1.

End machine.
End NavigationPage.

(** ** The navigation state machine of [IntegratedNavigation] *)

Module IntegratedNavigation.

Record Nav := {
  destinationNode : string;
  currentNode : option string;
  lastNode : option string;
  path : option (list string);
  pathStep : Z;
  lastSpoken : string;
  arrived : bool;
  segmentPrompted : bool;
  lastConfirmedAt : Z;
  debouncer : Debouncer;
}.

Definition initial (destination : string) : Nav :=
  {| destinationNode := destination; currentNode := None; lastNode := None;
     path := None; pathStep := 0; lastSpoken := ""; arrived := false;
     segmentPrompted := false; lastConfirmedAt := 0;
     debouncer := {| candidate := None; candidateSince := 0 |} |}.

Definition set_destinationNode (v : string) (s : Nav) : Nav :=
  {| destinationNode := v; currentNode := currentNode s; lastNode := lastNode s;
     path := path s; pathStep := pathStep s; lastSpoken := lastSpoken s;
     arrived := arrived s; segmentPrompted := segmentPrompted s;
     lastConfirmedAt := lastConfirmedAt s; debouncer := debouncer s |}.

Definition set_currentNode (v : option string) (s : Nav) : Nav :=
  {| destinationNode := destinationNode s; currentNode := v; lastNode := lastNode s;
     path := path s; pathStep := pathStep s; lastSpoken := lastSpoken s;
     arrived := arrived s; segmentPrompted := segmentPrompted s;
     lastConfirmedAt := lastConfirmedAt s; debouncer := debouncer s |}.

Definition set_lastNode (v : option string) (s : Nav) : Nav :=
  {| destinationNode := destinationNode s; currentNode := currentNode s;
     lastNode := v; path := path s; pathStep := pathStep s;
     lastSpoken := lastSpoken s; arrived := arrived s;
     segmentPrompted := segmentPrompted s; lastConfirmedAt := lastConfirmedAt s;
     debouncer := debouncer s |}.

Definition set_path (v : option (list string)) (s : Nav) : Nav :=
  {| destinationNode := destinationNode s; currentNode := currentNode s;
     lastNode := lastNode s; path := v; pathStep := pathStep s;
     lastSpoken := lastSpoken s; arrived := arrived s;
     segmentPrompted := segmentPrompted s; lastConfirmedAt := lastConfirmedAt s;
     debouncer := debouncer s |}.

Definition set_pathStep (v : Z) (s : Nav) : Nav :=
  {| destinationNode := destinationNode s; currentNode := currentNode s;
     lastNode := lastNode s; path := path s; pathStep := v;
     lastSpoken := lastSpoken s; arrived := arrived s;
     segmentPrompted := segmentPrompted s; lastConfirmedAt := lastConfirmedAt s;
     debouncer := debouncer s |}.

Definition set_lastSpoken (v : string) (s : Nav) : Nav :=
  {| destinationNode := destinationNode s; currentNode := currentNode s;
     lastNode := lastNode s; path := path s; pathStep := pathStep s;
     lastSpoken := v; arrived := arrived s;
     segmentPrompted := segmentPrompted s; lastConfirmedAt := lastConfirmedAt s;
     debouncer := debouncer s |}.

Definition set_arrived (v : bool) (s : Nav) : Nav :=
  {| destinationNode := destinationNode s; currentNode := currentNode s;
     lastNode := lastNode s; path := path s; pathStep := pathStep s;
     lastSpoken := lastSpoken s; arrived := v;
     segmentPrompted := segmentPrompted s; lastConfirmedAt := lastConfirmedAt s;
     debouncer := debouncer s |}.

Definition set_segmentPrompted (v : bool) (s : Nav) : Nav :=
  {| destinationNode := destinationNode s; currentNode := currentNode s;
     lastNode := lastNode s; path := path s; pathStep := pathStep s;
     lastSpoken := lastSpoken s; arrived := arrived s;
     segmentPrompted := v; lastConfirmedAt := lastConfirmedAt s;
     debouncer := debouncer s |}.

Definition set_lastConfirmedAt (v : Z) (s : Nav) : Nav :=
  {| destinationNode := destinationNode s; currentNode := currentNode s;
     lastNode := lastNode s; path := path s; pathStep := pathStep s;
     lastSpoken := lastSpoken s; arrived := arrived s;
     segmentPrompted := segmentPrompted s; lastConfirmedAt := v;
     debouncer := debouncer s |}.

Definition set_debouncer (v : Debouncer) (s : Nav) : Nav :=
  {| destinationNode := destinationNode s; currentNode := currentNode s;
     lastNode := lastNode s; path := path s; pathStep := pathStep s;
     lastSpoken := lastSpoken s; arrived := arrived s;
     segmentPrompted := segmentPrompted s; lastConfirmedAt := lastConfirmedAt s;
     debouncer := v |}.

Definition after (pre : list Effect) (k : Nav * list Effect) : Nav * list Effect :=
  (k.1, pre ++ k.2).

(** [speak(msg, { interrupt })] *)
Definition speak (msg : string) (interrupt : bool) (s : Nav) : Nav * list Effect :=
  (set_lastSpoken msg s, [Speak msg interrupt]).

(** [finishArrival(msg)] *)
Definition finishArrival (msg : string) (s : Nav) : Nav * list Effect :=
  let s := set_arrived true s in
  let s := set_path None s in
  let s := set_pathStep 0 s in
  let s := set_segmentPrompted true s in
  speak (msg +:+ " Choose next destination.") true s.

(** A call whose argument is a template literal that reads a label: the read
    throws when the landmark has no entry in [nodes], before the call. *)
Definition with_text (msg : option string) (k : string → Nav → Nav * list Effect)
    (s : Nav) : Nav * list Effect :=
  match msg with
  | Some m => k m s
  | None => (s, [Uncaught])
  end.

Definition movementPromptDelayMs : Z := 4500.

(** The guard [!currentNode || !path]: no route is being followed. *)
Definition unrouted (s : Nav) : bool :=
  negb (truthy (currentNode s)) || negb (bool_decide (is_Some (path s))).

Section machine.
Context (nodes : gmap string NodeData) (edges : gmap string (list Edge))
  (ACTIVE_NODES : gset string) (indexToNode : gmap nat string).

Definition resetNav (s : Nav) : Nav * list Effect :=
  let s := set_currentNode None s in
  let s := set_lastNode None s in
  let s := set_path None s in
  let s := set_pathStep 0 s in
  let s := set_segmentPrompted false s in
  let s := set_lastConfirmedAt 0 s in
  let s := set_arrived false s in
  speak "Pick a destination to start." true s.

Definition setDestinationHandler (newDest : string) (s : Nav) : Nav * list Effect :=
  let s := set_destinationNode newDest s in
  let s := set_currentNode None s in
  let s := set_lastNode None s in
  let s := set_path None s in
  let s := set_pathStep 0 s in
  let s := set_segmentPrompted false s in
  let s := set_lastConfirmedAt 0 s in
  let s := set_arrived false s in
  with_text
    ((λ l, "Destination set to " +:+ l +:+ ". Scan the room so we can locate you.")
       <$> label_of nodes (destinationNode s))
    (λ m, speak m true) s.

Definition getEdgeInstruction (from to_ : option string) : string :=
  match from, to_ with
  | Some f, Some t =>
      match List.find (λ x, bool_decide (to x = t)) (out_edges edges f) with
      | Some e => say e
      | None => "Keep moving forward with caution."
      end
  | _, _ => "Keep moving forward with caution."
  end.

Definition announceNextInstruction (s : Nav) : Nav * list Effect :=
  match path s with
  | None => (s, [])
  | Some p =>
      if negb (truthy (currentNode s)) then (s, [])
      else if decide (Z.of_nat (length p) - 1 ≤ pathStep s)%Z then
        with_text
          ((λ l, "You have arrived at " +:+ l +:+ ".")
             <$> label_of nodes (destinationNode s))
          finishArrival s
      else
        let from := at_index p (pathStep s) in
        let to_ := at_index p (pathStep s + 1) in
        let direction := getEdgeInstruction from to_ in
        with_text
          ((λ l, "You are at " +:+ l +:+ ". " +:+ direction)
             <$> (from ≫= label_of nodes))
          (λ m, speak m true) s
  end.

(** [maybeGiveMovementPrompt()]; [speaking] is
    [window.speechSynthesis.speaking]. *)
Definition maybeGiveMovementPrompt (now : Z) (speaking : bool) (s : Nav)
    : Nav * list Effect :=
  if arrived s then (s, [])
  else if negb (truthy (currentNode s)) then (s, [])
  else if negb (bool_decide (is_Some (path s))) then (s, [])
  else if segmentPrompted s then (s, [])
  else if decide (now - lastConfirmedAt s < movementPromptDelayMs)%Z then (s, [])
  else if speaking then (s, [])
  else
    let s := set_segmentPrompted true s in
    speak "Keep moving forward with caution." false s.

Definition startRoutingFrom (nodeId : string) (now : Z) (s : Nav)
    : Nav * list Effect :=
  let s := set_lastNode (currentNode s) s in
  let s := set_currentNode (Some nodeId) s in
  let s := set_path (Planner.bfsPath edges nodeId (destinationNode s)) s in
  let s := set_pathStep 0 s in
  let s := set_segmentPrompted false s in
  let s := set_lastConfirmedAt now s in
  match path s with
  | None => speak "No route found from here." true s
  | Some _ => announceNextInstruction s
  end.

Definition bathroomArrivalMessage (cameFrom : option string) (s : Nav)
    : Nav * list Effect :=
  let turn := if decide (cameFrom = Some "elevator") then "Go left." else "Go right." in
  with_text
    ((λ l, "You are at " +:+ l +:+ ". " +:+ turn +:+
           " The door is in front of you. Walk with caution and open the door to enter.")
       <$> label_of nodes "washroom")
    finishArrival s.

(** The part of [onNodeConfirmed] after the cues, when a route is being
    followed ([currentNode] is [cur], [path] is [p]); [cameFrom] is
    [currentNode] as it was on entry. *)
Definition onRoute (nodeId cur : string) (p : list string)
    (cameFrom : option string) (s : Nav) : Nav * list Effect :=
  if bool_decide (pathStep s < Z.of_nat (length p) - 1)%Z
     && bool_decide (at_index p (pathStep s + 1) = Some nodeId) then
    let s := set_pathStep (pathStep s + 1) s in
    let s := set_lastNode cameFrom s in
    let s := set_currentNode (Some nodeId) s in
    if bool_decide (destinationNode s = "washroom") && bool_decide (nodeId = "washroom")
    then bathroomArrivalMessage (lastNode s) s
    else announceNextInstruction s
  else if decide (nodeId ≠ cur) then
    let s := set_lastNode cameFrom s in
    let s := set_currentNode (Some nodeId) s in
    let s := set_path (Planner.bfsPath edges nodeId (destinationNode s)) s in
    let s := set_pathStep 0 s in
    match path s with
    | None => speak "I cannot find a route from here." true s
    | Some _ =>
        if bool_decide (destinationNode s = "washroom")
           && bool_decide (nodeId = "washroom")
        then bathroomArrivalMessage (lastNode s) s
        else
          match label_of nodes nodeId with
          | None => (s, [Uncaught])
          | Some l =>
              let r := speak ("You are at " +:+ l +:+ ". Re routing.") true s in
              (r.1, r.2 ++ [SetTimeout AnnounceNextInstruction 350])
          end
    end
  else announceNextInstruction s.

(** [onNodeConfirmed(nodeId)]; [now] and [now'] are the two readings of
    [Date.now()], the second one inside [startRoutingFrom]. *)
Definition onNodeConfirmed (nodeId : string) (now now' : Z) (s : Nav)
    : Nav * list Effect :=
  if decide (nodeId ∈ ACTIVE_NODES) then
    if arrived s then (s, [])
    else
      let cameFrom := currentNode s in
      let s := set_lastConfirmedAt now s in
      let s := set_segmentPrompted false s in
      after [Beep; Vibrate]
        match currentNode s, path s with
        | Some cur, Some p =>
            if truthy (Some cur) then onRoute nodeId cur p cameFrom s
            else startRoutingFrom nodeId now' s
        | _, _ => startRoutingFrom nodeId now' s
        end
  else (s, []).

Definition onTargetFound (targetIndex : nat) (t now now' : Z) (s : Nav)
    : Nav * list Effect :=
  match indexToNode !! targetIndex with
  | None => (s, [])
  | Some nodeId =>
      if truthy (Some nodeId) then
        let '(d, ok) := acceptStable nodeId t (debouncer s) in
        let s := set_debouncer d s in
        if ok then onNodeConfirmed nodeId now now' s else (s, [])
      else (s, [])
  end.

Definition handleRepeat (s : Nav) : Nav * list Effect :=
  if bool_decide (lastSpoken s ≠ "") then speak (lastSpoken s) true s else (s, []).

Inductive Event :=
  | NodeConfirmed (nodeId : string) (now now' : Z)
  | TargetFound (targetIndex : nat) (t now now' : Z)
  | DestinationChanged (newDest : string)
  | Reset
  | Repeat
  | MovementTick (now : Z) (speaking : bool)
  | TimerFired (cb : Callback).

Definition handle (ev : Event) (s : Nav) : Nav * list Effect :=
  match ev with
  | NodeConfirmed nodeId now now' => onNodeConfirmed nodeId now now' s
  | TargetFound i t now now' => onTargetFound i t now now' s
  | DestinationChanged d => setDestinationHandler d s
  | Reset => resetNav s
  | Repeat => handleRepeat s
  | MovementTick now speaking => maybeGiveMovementPrompt now speaking s
  | TimerFired AnnounceNextInstruction => announceNextInstruction s
  end.

Fixpoint run (evs : list Event) (s : Nav) : Nav * list Effect :=
  match evs with
  | [] => (s, [])
  | ev :: evs' => let r := handle ev s in after r.2 (run evs' r.1)
  end.

Definition reachable (s : Nav) : Prop :=
  ∃ destination evs, s = (run evs (initial destination)).1.

End machine.
End IntegratedNavigation.

(** ** Voice commands *)

Module Voice.

(** [keywordMap], in the order [Object.entries] lists it (insertion order:
    no key is an array index). *)
Definition keywordMap : list (string * string) :=
  [ ("washroom", "washroom");
    ("wash room", "washroom");
    ("bathroom", "washroom");
    ("bath room", "washroom");
    ("restroom", "washroom");
    ("elevator", "elevator");
    ("main hall", "mainhall");
    ("mainhall", "mainhall");
    ("exit door", "exitdoor");
    ("exitdoor", "exitdoor");
    ("exit", "exitdoor") ].

(** [nodeLabels] of the integrated component. *)
Definition nodeLabels : gmap string string :=
  list_to_map
    [ ("washroom", "Bathroom"); ("elevator", "Elevator");
      ("mainhall", "Main hall"); ("exitdoor", "Exit door") ].

(** Lower case of one character; only the letters [A]..[Z] change (a
    transcript is modelled as a string of ASCII characters). *)
Definition lower (c : ascii) : ascii :=
  let n := nat_of_ascii c in
  if (65 <=? n) && (n <=? 90) then ascii_of_nat (n + 32) else c.

(** [s.toLowerCase()] *)
Fixpoint toLowerCase (s : string) : string :=
  match s with
  | EmptyString => EmptyString
  | String c s' => String (lower c) (toLowerCase s')
  end.

(** [s.startsWith(k)] *)
Fixpoint startsWith (s k : string) : bool :=
  match k, s with
  | EmptyString, _ => true
  | String a k', String b s' => bool_decide (a = b) && startsWith s' k'
  | String _ _, EmptyString => false
  end.

(** [s.includes(k)]: [k] starts at some position of [s]. *)
Fixpoint includes (s k : string) : bool :=
  startsWith s k ||
  match s with
  | EmptyString => false
  | String _ s' => includes s' k
  end.

(** White space that [trim] removes, among the ASCII characters. *)
Definition is_space (c : ascii) : bool :=
  let n := nat_of_ascii c in ((9 <=? n) && (n <=? 13)) || (n =? 32).

Fixpoint trimStart (s : string) : string :=
  match s with
  | EmptyString => EmptyString
  | String c s' => if is_space c then trimStart s' else s
  end.

(** [trimEnd], from the last character backwards. *)
Fixpoint trimEnd (s : string) : string :=
  match s with
  | EmptyString => EmptyString
  | String c s' =>
      match trimEnd s' with
      | EmptyString => if is_space c then EmptyString else String c EmptyString
      | t => String c t
      end
  end.

(** [s.trim()] *)
Definition trim (s : string) : string := trimEnd (trimStart s).

(** The loop [for (const [keyword, dest] of Object.entries(keywordMap))]
    with its [break] at the first keyword the transcript includes. *)
Fixpoint firstMatch (transcript : string) (table : list (string * string))
    : option string :=
  match table with
  | [] => None
  | (keyword, dest) :: rest =>
      if includes transcript keyword then Some dest
      else firstMatch transcript rest
  end.

(** [matchedDestination] of [recognition.onresult] in the integrated
    component. *)
Definition matchedDestination (rawTranscript : string) : option string :=
  firstMatch (toLowerCase rawTranscript) keywordMap.

(** What [recognition.onresult] of the integrated component does to the
    component state: the new [destination] with the status line and the
    sentence spoken, or nothing. *)
Definition onresult (rawTranscript destination : string)
    : option (string * string * string) :=
  match matchedDestination rawTranscript with
  | Some d =>
      if bool_decide (d ≠ "") && bool_decide (d ≠ destination) then
        let checkpointName :=
          match nodeLabels !! d with
          | Some l => if bool_decide (l ≠ "") then l else d
          | None => d
          end in
        Some (d, "Destination set to " +:+ checkpointName +:+ " via voice command.",
              "Destination set to " +:+ checkpointName +:+ ".")
      else None
  | None => None
  end.

(** [matchedId] of [recognition.onresult] in [VoiceController], whose
    transcript is also trimmed. *)
Definition matchedId (rawTranscript : string) : option string :=
  firstMatch (trim (toLowerCase rawTranscript)) keywordMap.

Record Checkpoint := { id : string; name : string }.

Definition checkpoints : list Checkpoint :=
  [ {| id := "washroom"; name := "Washroom" |};
    {| id := "elevator"; name := "Elevator" |};
    {| id := "mainhall"; name := "Main Hall" |};
    {| id := "exitdoor"; name := "Exit Door" |} ].

(** The checkpoint [VoiceController] reports for an utterance, if any. *)
Definition matchedCheckpoint (rawTranscript : string) : option Checkpoint :=
  matchedId rawTranscript ≫= λ m,
    if bool_decide (m ≠ "") then List.find (λ cp, bool_decide (id cp = m)) checkpoints
    else None.

End Voice.

(** ** Vocabulary of the planner's specification *)

(** [chain R l]: every two consecutive elements of [l] are related by [R]. *)
Fixpoint chain (R : relation string) (l : list string) : Prop :=
  match l with
  | x :: (y :: _) as l' => R x y ∧ chain R l'
  | _ => True
  end.

(** A route of the graph from [a] to [b]: the sequence of landmarks of a
    directed walk, both ends included. *)
Definition is_route (edges : gmap string (list Edge)) (a b : string)
    (p : list string) : Prop :=
  head p = Some a ∧ last p = Some b ∧ chain (edge edges) p.

(** [b] can be reached from [a] along directed edges (in zero or more steps). *)
Definition reachable_from (edges : gmap string (list Edge)) (a b : string) : Prop :=
  rtc (edge edges) a b.

Definition bump (L : string → nat) (x : string) (n : nat) : string → nat :=
  λ y, if decide (y = x) then n else L y.

(** ** Checkpoints of [ObjectDetection] *)

Module ObjectDetection.

Record Checkpoint := {
  id : string;
  name : string;
  targetObjects : list string;
  reached : bool;
}.

(** The initial value of the state [checkpoints]. *)
Definition checkpoints : list Checkpoint :=
  [ {| id := "elevator"; name := "Elevator"; targetObjects := ["person"];
       reached := false |};
    {| id := "washroom"; name := "Washroom"; targetObjects := ["toilet"; "sink"];
       reached := false |};
    {| id := "mainhall"; name := "Main Hall";
       targetObjects := ["chair"; "bench"; "person"]; reached := false |};
    {| id := "exitdoor"; name := "Exit Door"; targetObjects := ["person"];
       reached := false |} ].

(** The own properties of the object literal [classMappings]. *)
Definition classMappings : gmap string (list string) :=
  list_to_map
    [ ("tv", ["tv"; "television"]);
      ("remote", ["remote"; "remote control"]);
      ("cell phone", ["cell phone"; "mobile phone"; "phone"]);
      ("mouse", ["mouse"; "computer mouse"]);
      ("toilet", ["toilet"]);
      ("sink", ["sink"]);
      ("chair", ["chair"]);
      ("bench", ["bench"]);
      ("person", ["person"]) ].

(** The lower-case names that [classMappings] inherits from
    [Object.prototype]: their value is truthy and has no [some]. *)
Definition inherited (key : string) : bool :=
  bool_decide (key = "constructor") || bool_decide (key = "__proto__").

(** [s.toLowerCase().trim()] *)
Definition normalize (s : string) : string := Voice.trim (Voice.toLowerCase s).

(** [arr.some(f)] for a callback that may throw ([None]): it stops at the
    first element for which [f] returns true, or throws. *)
Fixpoint some {A} (f : A → option bool) (arr : list A) : option bool :=
  match arr with
  | [] => Some false
  | x :: arr' =>
      match f x with
      | None => None
      | Some true => Some true
      | Some false => some f arr'
      end
  end.

(** The callback of [targetObjects.some] in [checkForCheckpoints]. *)
Definition matchesTarget (detectedClasses : list string) (targetObj : string)
    : option bool :=
  let normalizedTarget := normalize targetObj in
  if bool_decide (normalizedTarget ∈ detectedClasses) then Some true
  else
    match classMappings !! normalizedTarget with
    | Some variations =>
        some (λ variation, Some (bool_decide (variation ∈ detectedClasses))) variations
    | None =>
        if inherited normalizedTarget then None
        else some (λ variation, Some (bool_decide (variation ∈ detectedClasses)))
               [normalizedTarget]
    end.

Definition hasRequiredObjects (detectedClasses : list string) (checkpoint : Checkpoint)
    : option bool :=
  some (matchesTarget detectedClasses) (targetObjects checkpoint).

Definition reach (checkpoint : Checkpoint) : Checkpoint :=
  {| id := id checkpoint; name := name checkpoint;
     targetObjects := targetObjects checkpoint; reached := true |}.

(** The updater passed to [setCheckpoints]: [prev.map(...)], from left to
    right. The result is the new list ([None] when a callback threw, the
    state then stays as it is) with the names of the checkpoints for which
    the announcement was queued, in order. *)
Fixpoint update (detectedClasses : list string) (prev : list Checkpoint)
    : option (list Checkpoint) * list string :=
  match prev with
  | [] => (Some [], [])
  | checkpoint :: rest =>
      if reached checkpoint then
        let r := update detectedClasses rest in (cons checkpoint <$> r.1, r.2)
      else
        match hasRequiredObjects detectedClasses checkpoint with
        | None => (None, [])
        | Some true =>
            let r := update detectedClasses rest in
            (cons (reach checkpoint) <$> r.1, name checkpoint :: r.2)
        | Some false =>
            let r := update detectedClasses rest in (cons checkpoint <$> r.1, r.2)
        end
  end.

(** [checkForCheckpoints(predictions)], on the classes of the predictions.
    Each queued name stands for [setCurrentCheckpoint(name)] followed by
    [speakText(`Checkpoint reached: ${name}`)]. *)
Definition checkForCheckpoints (classes : list string) (prev : list Checkpoint)
    : option (list Checkpoint) * list string :=
  update (normalize <$> classes) prev.

(** The updater of [resetCheckpoints]. *)
Definition resetCheckpoints (prev : list Checkpoint) : list Checkpoint :=
  (λ cp, {| id := id cp; name := name cp; targetObjects := targetObjects cp;
            reached := false |}) <$> prev.

(** The checkpoints after a series of detection frames, each frame given by
    the classes of its predictions; [None] when an updater threw. *)
Fixpoint frames (fs : list (list string)) (prev : list Checkpoint)
    : option (list Checkpoint) :=
  match fs with
  | [] => Some prev
  | classes :: fs' =>
      match (checkForCheckpoints classes prev).1 with
      | Some next => frames fs' next
      | None => None
      end
  end.

(** The five values [estimateDistance] returns. *)
Inductive Distance := VeryClose | Close | Medium | Far | VeryFar.

(** [names.join(', ')] *)
Fixpoint join (names : list string) : string :=
  match names with
  | [] => ""
  | [x] => x
  | x :: names' => x +:+ ", " +:+ join names'
  end.

Section proximity.
(** [estimateDistance] computes on floating-point numbers; the alerts are
    modelled for any function in its place. *)
Context {Prediction : Type} (class : Prediction → string)
  (estimateDistance : Prediction → Distance).

Definition veryClose (p : Prediction) : bool :=
  match estimateDistance p with VeryClose => true | _ => false end.

(** [checkProximityAlerts(predictions)]: [now] is [Date.now()], [last] the
    value of [lastProximityAlertRef.current]; the result is its new value
    and the text passed to [speakText], if any. *)
Definition checkProximityAlerts (now : Z) (predictions : list Prediction) (last : Z)
    : Z * option string :=
  if decide (now - last < 3000)%Z then (last, None)
  else
    let veryCloseObjects := List.filter veryClose predictions in
    if decide (0 < length veryCloseObjects) then
      (now, Some ("Warning! Objects very close: " +:+ join (class <$> veryCloseObjects)))
    else (last, None).

(** The alerts of a series of frames, each with the time at which it was
    spoken. *)
Fixpoint alerts (fs : list (Z * list Prediction)) (last : Z) : list (Z * string) :=
  match fs with
  | [] => []
  | (now, predictions) :: fs' =>
      let r := checkProximityAlerts now predictions last in
      match r.2 with
      | Some text => (now, text) :: alerts fs' r.1
      | None => alerts fs' r.1
      end
  end.

End proximity.

End ObjectDetection.

(** ** Vocabulary of the further properties *)

(** The text of the last [speak] among the effects, if any. *)
Fixpoint last_speech (effs : list Effect) : option string :=
  match effs with
  | [] => None
  | e :: effs' =>
      match last_speech effs', e with
      | Some m, _ => Some m
      | None, Speak m _ => Some m
      | None, _ => None
      end
  end.

(** A confirmation with its two clock readings, as an event. *)
Definition nav_confirm (c : string * (Z * Z)) : NavigationPage.Event :=
  NavigationPage.NodeConfirmed c.1 c.2.1 c.2.2.

Definition int_confirm (c : string * (Z * Z)) : IntegratedNavigation.Event :=
  IntegratedNavigation.NodeConfirmed c.1 c.2.1 c.2.2.

(** What [NavigationPage] issues while the landmarks [q] that remain on the
    route are confirmed one after the other: the cues and the instruction of
    the next segment at each of them, the arrival at the last. *)
Fixpoint nav_walk (edges : gmap string (list Edge)) (q : list string) : list Effect :=
  match q with
  | [] => []
  | x :: q' =>
      [CancelSpeech; Beep; Vibrate;
       Speak match q' with
             | [] => "You have arrived."
             | y :: _ => NavigationPage.getEdgeInstruction edges (Some x) (Some y)
             end true] ++ nav_walk edges q'
  end.

(** The same for [IntegratedNavigation]; [c] is the landmark the user comes
    from. *)
Fixpoint int_walk (nodes : gmap string NodeData) (edges : gmap string (list Edge))
    (c : string) (q : list string) : list Effect :=
  match q with
  | [] => []
  | x :: q' =>
      [Beep; Vibrate;
       Speak match q' with
             | [] =>
                 (if bool_decide (x = "washroom") then
                    "You are at " +:+ default "" (label_of nodes x) +:+ ". " +:+
                    (if decide (c = "elevator") then "Go left." else "Go right.") +:+
                    " The door is in front of you. Walk with caution and open the door to enter."
                  else "You have arrived at " +:+ default "" (label_of nodes x) +:+ ".")
                 +:+ " Choose next destination."
             | y :: _ =>
                 "You are at " +:+ default "" (label_of nodes x) +:+ ". " +:+
                 IntegratedNavigation.getEdgeInstruction edges (Some x) (Some y)
             end true] ++ int_walk nodes edges x q'
  end.

(** Nothing was thrown. *)
Definition quiet (effs : list Effect) : Prop := Uncaught ∉ effs.

Definition labelled (nodes : gmap string NodeData) (x : string) : Prop :=
  is_Some (label_of nodes x).

(** A raw detection [targetFound] with its three clock readings. *)
Definition nav_detect (d : nat * (Z * (Z * Z))) : NavigationPage.Event :=
  NavigationPage.TargetFound d.1 d.2.1 d.2.2.1 d.2.2.2.

Definition int_detect (d : nat * (Z * (Z * Z))) : IntegratedNavigation.Event :=
  IntegratedNavigation.TargetFound d.1 d.2.1 d.2.2.1 d.2.2.2.

(** The debouncer's candidate, if any, was first seen at [t0] or later. *)
Definition fresh_since (t0 : Z) (d : Debouncer) : Prop :=
  candidate d = None ∨ (t0 ≤ candidateSince d)%Z.

(** How many sentences were handed to the synthesiser. *)
Fixpoint speeches (effs : list Effect) : nat :=
  match effs with
  | [] => 0
  | Speak _ _ :: effs' => S (speeches effs')
  | _ :: effs' => speeches effs'
  end.

(** The planner finds, between any two landmarks of [act], a route that
    stays within [act]: checked by running it. *)
Definition all_routed (edges : gmap string (list Edge)) (act : gset string) : bool :=
  forallb (λ x,
    forallb (λ y,
      match Planner.bfsPath edges x y with
      | Some p => forallb (λ z, bool_decide (z ∈ act)) p
      | None => false
      end) (elements act)) (elements act).

(** * Properties *)

Lemma chain_cons (R : relation string) x l :
  chain R (x :: l) ↔ (∀ y, head l = Some y → R x y) ∧ chain R l.
Proof.
  destruct l as [|y l]; simpl; [naive_solver|].
  split; [intros [??]; split; [intros ? [= <-]|]; done|].
  intros [H ?]; split; [by apply H|done].
Qed.

Lemma chain_snoc (R : relation string) l x :
  chain R (l ++ [x]) ↔ chain R l ∧ (∀ y, last l = Some y → R y x).
Proof.
  induction l as [|a l IH]; [simpl; naive_solver|].
  rewrite <-app_comm_cons, !chain_cons, IH.
  destruct l as [|b l].
  - simpl. split; [intros [H _]; repeat split; try done; intros ? [= <-]; by apply H
           |intros [_ H]; repeat split; try done; intros ? [= <-]; by apply H].
  - rewrite last_cons_cons. simpl. naive_solver.
Qed.

Lemma chain_reverse (R : relation string) l : chain R (reverse l) ↔ chain (flip R) l.
Proof.
  induction l as [|a l IH]; [done|].
  rewrite reverse_cons, chain_snoc, IH, chain_cons, last_reverse. naive_solver.
Qed.

Lemma chain_lookup (R : relation string) l :
  chain R l ↔ ∀ i x y, l !! i = Some x → l !! S i = Some y → R x y.
Proof.
  induction l as [|a l IH]; [done|].
  rewrite chain_cons, IH. split.
  - intros [Hh Ht] [|i] x y; simpl.
    + intros [= <-] Hy. apply Hh. by destruct l; simplify_eq/=.
    + apply Ht.
  - intros H; split.
    + intros y Hy. apply (H 0 a y); [done|]. by destruct l; simplify_eq/=.
    + intros i x y. apply (H (S i)).
Qed.

Lemma chain_nsteps (R : relation string) l a b :
  head l = Some a → last l = Some b → chain R l → nsteps R (length l - 1) a b.
Proof.
  revert a. induction l as [|x l IH]; intros a; [done|].
  intros [= ->]. destruct l as [|y l].
  - intros [= ->] _. constructor.
  - rewrite last_cons_cons. intros Hl [Hxy Hc]. simpl.
    eapply nsteps_l; [done|].
    specialize (IH y). simpl in IH. rewrite Nat.sub_0_r in IH. by apply IH.
Qed.

Lemma nsteps_chain (R : relation string) n a b :
  nsteps R n a b →
  ∃ l, head l = Some a ∧ last l = Some b ∧ chain R l ∧ length l = S n.
Proof.
  induction 1 as [x|n x y z Hxy _ (l & Hh & Hl & Hc & Hn)].
  - by exists [x].
  - exists (x :: l). destruct l as [|y' l]; [done|]. simplify_eq/=. done.
Qed.

(** ** The planner: breadth-first search *)

Module PlannerProofs.
Import Planner.

Section search.
Context (edges : gmap string (list Edge)) (start goal : string).

Abbreviation universe := ({[start]} ∪ targets edges).

(** The [prev] table is a tree rooted at [start] over the [seen] landmarks;
    [L] is the depth of a landmark in that tree. *)
Record tree (L : string → nat) (prev : gmap string string) (seen : gset string)
    : Prop := {
  tree_start : start ∈ seen;
  tree_start0 : L start = 0;
  tree_prev : ∀ v, v ∈ seen → v ≠ start →
    ∃ u, prev !! v = Some u ∧ u ∈ seen ∧ edge edges u v ∧ L v = S (L u);
  tree_dom : ∀ v, is_Some (prev !! v) → v ∈ seen;
  tree_size : size seen = S (size prev);
  tree_depth : ∀ v, v ∈ seen → L v < size seen;
}.

(** The frontier: [P] are the landmarks whose edges have all been scanned,
    [d] is the depth of the landmark being scanned ([cur], when inside the
    [for] loop) or about to be dequeued. *)
Record front (L : string → nat) (P : gset string) (d : nat)
    (cur : option string) (st : bfs) : Prop := {
  front_goal : goal ∉ seen st;
  front_univ : seen st ⊆ universe;
  front_P : P ⊆ seen st;
  front_open : ∀ u, u ∈ seen st →
    u ∈ P ∨ (d ≤ L u ∧ (u ∈ q st ∨ cur = Some u));
  front_closed : ∀ u e, u ∈ P → e ∈ out_edges edges u →
    to e ∈ seen st ∧ L (to e) ≤ S (L u);
  front_top : ∀ v, v ∈ seen st → L v ≤ S d;
  front_queue : ∃ q1 q2, q st = q1 ++ q2 ∧
    Forall (λ x, L x = d) q1 ∧ Forall (λ x, L x = S d) q2;
  front_q_seen : ∀ x, x ∈ q st → x ∈ seen st;
  front_cur : ∀ c, cur = Some c → c ∈ seen st ∧ L c = d;
}.

Lemma out_edges_targets cur e : e ∈ out_edges edges cur → to e ∈ targets edges.
Proof.
  unfold out_edges, targets. intros He.
  destruct (edges !! cur) as [es|] eqn:Hes; simpl in He; [|by apply elem_of_nil in He].
  apply elem_of_list_to_set, list_elem_of_In, in_flat_map.
  exists (cur, es). split.
  - apply list_elem_of_In. by apply elem_of_map_to_list.
  - apply list_elem_of_In. simpl. by apply list_elem_of_fmap_2.
Qed.

Lemma bump_other L x n y : y ≠ x → bump L x n y = L y.
Proof. unfold bump. by intros; case_decide. Qed.

Lemma bump_same L x n : bump L x n x = n.
Proof. unfold bump. by case_decide. Qed.

Lemma tree_init : tree (λ _, 0) ∅ {[start]}.
Proof.
  split.
  - set_solver.
  - done.
  - intros v Hv Hne. set_solver.
  - intros v [? Hv]. by rewrite lookup_empty in Hv.
  - by rewrite size_singleton, map_size_empty.
  - intros. rewrite size_singleton. lia.
Qed.

Lemma tree_insert L prev seen cur nxt :
  tree L prev seen → cur ∈ seen → nxt ∉ seen → edge edges cur nxt →
  tree (bump L nxt (S (L cur))) (<[nxt:=cur]> prev) ({[nxt]} ∪ seen).
Proof.
  intros [Hs H0 Hp Hd Hsz Hdp] Hcur Hnxt He.
  assert (Hfresh : prev !! nxt = None).
  { destruct (prev !! nxt) eqn:E; [|done]. destruct Hnxt. apply Hd. by eexists. }
  assert (Hold : ∀ x, x ∈ seen → bump L nxt (S (L cur)) x = L x).
  { intros x Hx. apply bump_other. by intros ->. }
  assert (Hsz' : size ({[nxt]} ∪ seen) = S (size seen)).
  { rewrite size_union, size_singleton; [done|set_solver]. }
  split.
  - set_solver.
  - by rewrite Hold.
  - intros v Hv Hne. destruct (decide (v = nxt)) as [->|Hvn].
    + exists cur. rewrite lookup_insert_eq, bump_same, Hold by done.
      repeat split; [set_solver|done].
    + assert (Hv' : v ∈ seen) by set_solver.
      destruct (Hp v Hv' Hne) as (u & Hu & Hus & Hue & HL).
      exists u. rewrite lookup_insert_ne, !Hold by done.
      repeat split; [done|set_solver|done|done].
  - intros v. rewrite lookup_insert. case_decide as Hv; [set_solver|].
    intros ?%Hd. set_solver.
  - rewrite Hsz', map_size_insert_None by done. by rewrite Hsz.
  - intros v Hv. rewrite Hsz'. destruct (decide (v = nxt)) as [->|Hvn].
    + rewrite bump_same. specialize (Hdp cur Hcur). lia.
    + assert (Hv' : v ∈ seen) by set_solver.
      rewrite Hold by done. specialize (Hdp v Hv'). lia.
Qed.

(** Walking [prev] back from a seen landmark reaches [start] after exactly
    [L v] rounds. *)
Lemma walk_back_tree L prev seen fuel v path :
  tree L prev seen → v ∈ seen → L v ≤ fuel →
  ∃ c, walk_back fuel prev start v path = Some (path ++ c) ∧
       length c = L v ∧ chain (flip (edge edges)) (v :: c) ∧
       last (v :: c) = Some start ∧ (∀ x, x ∈ c → L x < L v) ∧ NoDup c.
Proof.
  intros Ht. revert v path. induction fuel as [|fuel IH]; intros v path Hv HL.
  - destruct (decide (v = start)) as [->|Hne].
    + exists []. simpl. rewrite decide_True by done. rewrite app_nil_r, (tree_start0 _ _ _ Ht).
      repeat split; [set_solver|constructor].
    + destruct (tree_prev _ _ _ Ht v Hv Hne) as (u & _ & _ & _ & HLv). lia.
  - destruct (decide (v = start)) as [->|Hne].
    + exists []. simpl. rewrite decide_True by done. rewrite app_nil_r, (tree_start0 _ _ _ Ht).
      repeat split; [set_solver|constructor].
    + destruct (tree_prev _ _ _ Ht v Hv Hne) as (u & Hu & Hus & Hue & HLv).
      destruct (IH u (path ++ [u]) Hus ltac:(lia)) as (c & Hw & Hlen & Hch & Hlast & Hlt & Hnd).
      exists (u :: c). split.
      { simpl. by rewrite decide_False, Hu, Hw, <-app_assoc by done. }
      split_and!.
      * simpl. lia.
      * by split.
      * by rewrite last_cons_cons.
      * intros x [->|Hx]%elem_of_cons; [lia|]. specialize (Hlt x Hx). lia.
      * constructor; [|done]. intros Hin. specialize (Hlt u Hin). lia.
Qed.

(** A landmark reached by a walk of [n] edges is already seen at depth at
    most [n], unless the walk is longer than the depth being scanned. *)
Lemma front_levels L P d cur st n v :
  tree L (prev st) (seen st) → front L P d cur st →
  nsteps (edge edges) n start v → (v ∈ seen st ∧ L v ≤ n) ∨ d < n.
Proof.
  intros Ht Hf. revert v. induction n as [|n IH]; intros v Hn.
  - inversion Hn; subst. left. split; [apply Ht|]. by rewrite (tree_start0 _ _ _ Ht).
  - apply nsteps_inv_r in Hn as (y & Hy & (e & He & <-)).
    destruct (IH y Hy) as [[Hys HyL]|?]; [|right; lia].
    destruct (front_open _ _ _ _ _ Hf y Hys) as [HyP|[Hd _]]; [|right; lia].
    destruct (front_closed _ _ _ _ _ Hf y e HyP He) as [? ?]. left. split; [done|lia].
Qed.

Lemma front_pop L P d st cur rest :
  front L P d None st → q st = cur :: rest →
  ∃ d', front L P d' (Some cur) {| q := rest; prev := prev st; seen := seen st |}.
Proof.
  intros [Hg Hu HP Ho Hc Ht (q1 & q2 & Hq & H1 & H2) Hqs _] Hst.
  assert (Hcs : cur ∈ seen st) by (apply Hqs; rewrite Hst; set_solver).
  rewrite Hst in Hq, Hqs, Ho.
  destruct q1 as [|x q1]; simpl in Hq.
  - subst q2. apply Forall_cons in H2 as [Hcur Hrest].
    exists (S d). split; simpl; try done.
    + intros u Hus. destruct (Ho u Hus) as [?|[_ [Hin|?]]]; [by left|right|done].
      assert (L u = S d) as ->.
      { apply elem_of_cons in Hin as [->|Hin]; [done|].
        by eapply (proj1 (Forall_forall _ _) Hrest). }
      split; [done|]. apply elem_of_cons in Hin as [->|?]; [by right|by left].
    + intros v Hv. specialize (Ht v Hv). lia.
    + exists rest, []. by rewrite app_nil_r.
    + intros x Hx. apply Hqs. set_solver.
    + by intros c [= <-].
  - injection Hq as <- ->. apply Forall_cons in H1 as [Hcur Hrest].
    exists d. split; simpl; try done.
    + intros u Hus. destruct (Ho u Hus) as [?|[? [Hin|?]]]; [by left|right|done].
      split; [done|]. apply elem_of_cons in Hin as [->|?]; [by right|by left].
    + by exists q1, q2.
    + intros x Hx. apply Hqs. set_solver.
    + by intros c [= <-].
Qed.

Lemma front_done L P d cur st :
  front L P d (Some cur) st →
  (∀ e, e ∈ out_edges edges cur → to e ∈ seen st ∧ L (to e) ≤ S d) →
  front L (P ∪ {[cur]}) d None st.
Proof.
  intros [Hg Hu HP Ho Hc Ht Hq Hqs Hcur] Hall.
  destruct (Hcur cur eq_refl) as [Hcs HLc].
  split; try done.
  - set_solver.
  - intros u Hus. destruct (Ho u Hus) as [?|[? [?|[= ->]]]].
    + left. set_solver.
    + right. split; [done|by left].
    + left. set_solver.
  - intros u e [HuP|Heq%elem_of_singleton]%elem_of_union He; try subst u.
    + by apply Hc.
    + rewrite HLc. by apply Hall.
Qed.

(** Entering a landmark that is new and is not the goal. *)
Lemma front_push L P d cur st nxt :
  tree L (prev st) (seen st) → front L P d (Some cur) st →
  nxt ∉ seen st → nxt ≠ goal → edge edges cur nxt →
  front (bump L nxt (S d)) P d (Some cur)
    {| q := q st ++ [nxt]; prev := <[nxt:=cur]> (prev st);
       seen := {[nxt]} ∪ seen st |}.
Proof.
  intros Htree [Hg Hu HP Ho Hc Ht (q1 & q2 & Hq & H1 & H2) Hqs Hcur] Hnew Hng He.
  assert (Hold : ∀ x, x ∈ seen st → bump L nxt (S d) x = L x).
  { intros x Hx. apply bump_other. by intros ->. }
  split; simpl.
  - set_solver.
  - destruct He as (e & He & <-). apply out_edges_targets in He. set_solver.
  - set_solver.
  - intros u [Heq%elem_of_singleton|Hus]%elem_of_union; try subst u.
    + right. rewrite bump_same. split; [lia|left; set_solver].
    + rewrite Hold by done. destruct (Ho u Hus) as [?|[? [?|?]]]; [by left|right..].
      * split; [done|left; set_solver].
      * split; [done|by right].
  - intros u e HuP Hue. destruct (Hc u e HuP Hue) as [Hes HeL].
    split; [set_solver|]. rewrite !Hold by set_solver. done.
  - intros v [Heq%elem_of_singleton|Hvs]%elem_of_union; try subst v.
    + by rewrite bump_same.
    + rewrite Hold by done. by apply Ht.
  - exists q1, (q2 ++ [nxt]). rewrite Hq, app_assoc. split; [done|]. split.
    + eapply Forall_impl; [apply Forall_forall; intros x Hx|].
      * instantiate (1 := λ x, x ∈ seen st ∧ L x = d). split.
        -- apply Hqs. rewrite Hq. set_solver.
        -- by eapply (proj1 (Forall_forall _ _) H1).
      * intros x [Hx HLx]. simpl. by rewrite Hold.
    + apply Forall_app. split; [|by constructor; [apply bump_same|]].
      eapply Forall_impl; [apply Forall_forall; intros x Hx|].
      * instantiate (1 := λ x, x ∈ seen st ∧ L x = S d). split.
        -- apply Hqs. rewrite Hq. set_solver.
        -- by eapply (proj1 (Forall_forall _ _) H2).
      * intros x [Hx HLx]. simpl. by rewrite Hold.
  - intros x [Hx|Heq%list_elem_of_singleton]%elem_of_app; [|subst x; set_solver].
    apply Hqs in Hx. set_solver.
  - intros c Hc'. destruct (Hcur c Hc') as [? ?]. split; [set_solver|].
    by rewrite Hold.
Qed.

(** What [bfsPath] promises of a path it returns. *)
Definition shortest_route (p : list string) : Prop :=
  is_route edges start goal p ∧ NoDup p ∧
  ∀ n, nsteps (edge edges) n start goal → length p ≤ S n.

(** Reaching the goal from [cur]: the rebuilt path is a shortest route. *)
Lemma rebuild_shortest L P d cur st :
  tree L (prev st) (seen st) → front L P d (Some cur) st →
  edge edges cur goal →
  ∃ p, rebuild (<[goal:=cur]> (prev st)) start goal = Some p ∧ shortest_route p.
Proof.
  intros Ht Hf He.
  destruct (front_cur _ _ _ _ _ Hf cur eq_refl) as [Hcs HLc].
  pose proof (front_goal _ _ _ _ _ Hf) as Hg.
  pose proof (tree_insert _ _ _ _ _ Ht Hcs Hg He) as Ht'. rewrite HLc in Ht'.
  set (L' := bump L goal (S d)) in *.
  assert (Hgs : goal ∈ ({[goal]} ∪ seen st : gset string)) by set_solver.
  assert (HLg : L' goal = S d) by apply bump_same.
  assert (Hfuel : L' goal ≤ size (<[goal:=cur]> (prev st))).
  { pose proof (tree_depth _ _ _ Ht' goal Hgs) as Hd.
    rewrite (tree_size _ _ _ Ht') in Hd. lia. }
  destruct (walk_back_tree _ _ _ _ goal [goal] Ht' Hgs Hfuel)
    as (c & Hw & Hlen & Hch & Hlast & Hlt & Hnd).
  exists (reverse (goal :: c)). split.
  { unfold rebuild. by rewrite Hw. }
  split; [split_and!|split].
  - by rewrite head_reverse.
  - by rewrite last_reverse.
  - by apply chain_reverse.
  - rewrite reverse_Permutation. constructor; [|done].
    intros Hin. specialize (Hlt goal Hin). lia.
  - intros n Hn. rewrite length_reverse. simpl. rewrite Hlen, HLg.
    destruct (front_levels _ _ _ _ _ _ _ Ht Hf Hn) as [[? _]|?]; [done|lia].
Qed.

(** The [for] loop over the edges still to scan. *)
Lemma scan_spec es : ∀ st L P d cur,
  tree L (prev st) (seen st) → front L P d (Some cur) st →
  (∀ e, e ∈ es → e ∈ out_edges edges cur) →
  (∀ e, e ∈ out_edges edges cur →
        e ∈ es ∨ (to e ∈ seen st ∧ L (to e) ≤ S d)) →
  match scan start goal cur es st with
  | Returned r => ∃ p, r = Some p ∧ shortest_route p
  | Continue st' =>
      ∃ L', tree L' (prev st') (seen st') ∧ front L' P d (Some cur) st' ∧
            (∀ e, e ∈ out_edges edges cur →
                  to e ∈ seen st' ∧ L' (to e) ≤ S d) ∧
            length (q st') + size (seen st) = length (q st) + size (seen st')
  end.
Proof.
  induction es as [|e es IH]; intros st L P d cur Ht Hf Hsub Hdone; simpl.
  - exists L. split_and!; [done|done| |done].
    intros e He. destruct (Hdone e He) as [Hin|?]; [|done]. by apply elem_of_nil in Hin.
  - assert (Hee : edge edges cur (to e)).
    { exists e. split; [apply Hsub; set_solver|done]. }
    destruct (front_cur _ _ _ _ _ Hf cur eq_refl) as [Hcs HLc].
    case_decide as Hseen.
    + apply (IH st L P d cur); [done|done|intros; apply Hsub; set_solver|].
      intros e' He'. destruct (Hdone e' He') as [[->|?]%elem_of_cons|?]; [right|by left|by right].
      split; [done|]. by apply (front_top _ _ _ _ _ Hf).
    + case_decide as Hgoal.
      * rewrite Hgoal in *. by eapply rebuild_shortest.
      * pose proof (tree_insert _ _ _ _ _ Ht Hcs Hseen Hee) as Ht'. rewrite HLc in Ht'.
        pose proof (front_push _ _ _ _ _ _ Ht Hf Hseen Hgoal Hee) as Hf'.
        specialize (IH {| q := q st ++ [to e]; prev := <[to e:=cur]> (prev st);
                          seen := {[to e]} ∪ seen st |} _ _ _ _ Ht' Hf').
        simpl in IH.
        assert (Hsub' : ∀ e', e' ∈ es → e' ∈ out_edges edges cur).
        { intros; apply Hsub; set_solver. }
        assert (Hdone' : ∀ e', e' ∈ out_edges edges cur →
                  e' ∈ es ∨ (to e' ∈ ({[to e]} ∪ seen st : gset string) ∧
                             bump L (to e) (S d) (to e') ≤ S d)).
        { intros e' He'.
          destruct (Hdone e' He') as [[->|?]%elem_of_cons|[Hs' HL']]; [right|by left|right].
          - split; [set_solver|by rewrite bump_same].
          - split; [set_solver|]. rewrite bump_other; [done|]. intros Heq. by rewrite Heq in Hs'. }
        specialize (IH Hsub' Hdone').
        destruct (scan _ _ _ es _) as [r|st']; [done|].
        destruct IH as (L' & ? & ? & ? & Hm).
        exists L'. split_and!; try done.
        rewrite length_app in Hm. simpl in Hm.
        rewrite size_union, size_singleton in Hm by set_solver. lia.
Qed.

(** The [while] loop: it returns within the rounds it is given, a shortest
    route when it returns a path, and [null] only if the goal cannot be
    reached. *)
Lemma loop_spec fuel : ∀ st L P d,
  tree L (prev st) (seen st) → front L P d None st →
  length (q st) + size universe < fuel + size (seen st) →
  ∃ r, loop edges fuel start goal st = Some r ∧
       match r with
       | Some p => shortest_route p
       | None => ¬ reachable_from edges start goal
       end.
Proof.
  induction fuel as [|fuel IH]; intros st L P d Ht Hf Hm.
  { pose proof (subseteq_size _ _ (front_univ _ _ _ _ _ Hf)). lia. }
  simpl. destruct (q st) as [|cur rest] eqn:Hq.
  - exists None. split; [done|]. intros Hreach.
    apply (front_goal _ _ _ _ _ Hf).
    revert Hreach. unfold reachable_from.
    apply (rtc_ind_r (λ v, v ∈ seen st)); [apply Ht|].
    intros y z _ (e & He & <-) Hy.
    destruct (front_open _ _ _ _ _ Hf y Hy) as [HyP|[_ [Hin|?]]]; [|by rewrite Hq in Hin; apply elem_of_nil in Hin|done].
    by apply (front_closed _ _ _ _ _ Hf y e).
  - destruct (front_pop _ _ _ _ _ _ Hf Hq) as [d' Hf'].
    pose proof (scan_spec (out_edges edges cur)
                  {| q := rest; prev := prev st; seen := seen st |} _ _ _ _ Ht Hf'
                  (λ _ H, H) (λ _ H, or_introl H)) as Hscan.
    destruct (scan _ _ _ _ _) as [r|st'].
    + destruct Hscan as (p & -> & Hp). by exists (Some p).
    + destruct Hscan as (L' & Ht' & Hf'' & Hall & Hmm). simpl in Hmm.
      apply (IH st' L' (P ∪ {[cur]}) d'); [done|by apply front_done|].
      simpl in Hm. lia.
Qed.

End search.

Section planner.
Context (edges : gmap string (list Edge)).

Lemma bfsPath_run_spec start goal :
  ∃ r, bfsPath_run edges start goal = Some r ∧
       match r with
       | Some p => shortest_route edges start goal p
       | None => ¬ reachable_from edges start goal
       end.
Proof.
  unfold bfsPath_run. case_decide as Heq.
  - subst goal. exists (Some [start]). split; [done|]. split; [done|]. split.
    + apply NoDup_singleton.
    + intros n _. simpl. lia.
  - eapply (loop_spec edges start goal _ _ (λ _, 0) ∅ 0).
    + apply tree_init.
    + split; simpl; try set_solver.
      exists [start], []. by repeat constructor.
    + unfold rounds. cbn [q seen length]. rewrite size_singleton. lia.
Qed.

(** The embedded run of [bfsPath] always returns: the rounds given to its
    loops are never used up. *)
Lemma bfsPath_run_returns start goal :
  bfsPath_run edges start goal = Some (bfsPath edges start goal).
Proof.
  unfold bfsPath. by destruct (bfsPath_run_spec start goal) as (r & -> & _).
Qed.

Lemma bfsPath_Some start goal p :
  bfsPath edges start goal = Some p → shortest_route edges start goal p.
Proof.
  unfold bfsPath. destruct (bfsPath_run_spec start goal) as (r & -> & Hr).
  simpl. by intros ->.
Qed.

Lemma bfsPath_None start goal :
  bfsPath edges start goal = None → ¬ reachable_from edges start goal.
Proof.
  unfold bfsPath. destruct (bfsPath_run_spec start goal) as (r & -> & Hr).
  simpl. by intros ->.
Qed.

Lemma bfsPath_same x : bfsPath edges x x = Some [x].
Proof. unfold bfsPath, bfsPath_run. by rewrite decide_True. Qed.

Lemma route_reachable a b p : is_route edges a b p → reachable_from edges a b.
Proof.
  intros (Hh & Hl & Hc). eapply rtc_nsteps_2. by apply chain_nsteps.
Qed.

End planner.
End PlannerProofs.

(** A walk leads from each of its landmarks to its last one. *)
Lemma chain_rtc (R : relation string) l i x d :
  chain R l → l !! i = Some x → last l = Some d → rtc R x d.
Proof.
  revert i x. induction l as [|a l IH]; intros i x; [done|].
  rewrite chain_cons. intros [Hh Hc] Hi Hl. destruct l as [|b l].
  - destruct i; simplify_eq/=. done.
  - rewrite last_cons_cons in Hl. destruct i as [|i]; simplify_eq/=.
    + eapply rtc_l; [by apply Hh|]. by apply (IH 0).
    + by apply (IH i).
Qed.

Lemma at_index_Some {A} (l : list A) i x :
  at_index l i = Some x ↔ (0 ≤ i)%Z ∧ l !! Z.to_nat i = Some x.
Proof. unfold at_index. case_decide; naive_solver. Qed.

(** ** The state machine of [NavigationPage] *)

Module NavigationPageProofs.
Import NavigationPage.

Section facts.
Context (nodes : gmap string NodeData) (edges : gmap string (list Edge))
  (ACTIVE_NODES : gset string) (indexToNode : gmap nat string).

(** What holds of the variables between any two events. *)
Record consistent (s : Nav) : Prop := {
  cons_active : ∀ c, currentNode s = Some c → c ∈ ACTIVE_NODES;
  cons_route : ∀ p, path s = Some p →
    (0 ≤ pathStep s < Z.of_nat (length p))%Z ∧
    at_index p (pathStep s) = currentNode s ∧
    NoDup p ∧ last p = Some (destinationNode s) ∧ chain (edge edges) p;
}.

Lemma consistent_same s s' :
  currentNode s' = currentNode s → path s' = path s →
  pathStep s' = pathStep s → destinationNode s' = destinationNode s →
  consistent s → consistent s'.
Proof. intros Hc Hp Hs Hd [H1 H2]. split; rewrite ?Hc, ?Hp, ?Hs, ?Hd; done. Qed.

Lemma consistent_unrouted s : path s = None → currentNode s = None → consistent s.
Proof. intros Hp Hc. split; rewrite ?Hp, ?Hc; done. Qed.

Lemma consistent_announce s :
  consistent s → consistent (announceNextInstruction edges s).1.
Proof.
  intros H. unfold announceNextInstruction.
  destruct (path s); [|done]. by case_decide; (eapply consistent_same; [..|exact H]).
Qed.

(** The variables right after a route was computed from [nodeId]. *)
Lemma consistent_routed s nodeId :
  nodeId ∈ ACTIVE_NODES → currentNode s = Some nodeId → pathStep s = 0%Z →
  path s = Planner.bfsPath edges nodeId (destinationNode s) → consistent s.
Proof.
  intros Ha Hc Hs Hp. split.
  - rewrite Hc. by intros ? [= <-].
  - intros p Hp'. rewrite Hp in Hp'.
    apply PlannerProofs.bfsPath_Some in Hp' as ((Hh & Hl & Hch) & Hnd & _).
    rewrite Hs, Hc. destruct p as [|x p]; [done|]. simplify_eq/=.
    split_and!; try done; lia.
Qed.

Lemma consistent_startRoutingFrom s nodeId now :
  nodeId ∈ ACTIVE_NODES → consistent (startRoutingFrom nodes edges nodeId now s).1.
Proof.
  intros Ha. unfold startRoutingFrom. simpl.
  destruct (Planner.bfsPath _ _ _) eqn:Hb; [destruct (label_of _ _)|];
    by apply (consistent_routed _ nodeId).
Qed.

Lemma consistent_onRoute s nodeId cur p :
  nodeId ∈ ACTIVE_NODES → currentNode s = Some cur → path s = Some p →
  consistent s → consistent (onRoute nodes edges nodeId cur p s).1.
Proof.
  intros Ha Hc Hp Hs. unfold onRoute.
  destruct (bool_decide (pathStep s < _)%Z && _) eqn:Hnext.
  - apply andb_prop in Hnext as [Hlt%bool_decide_eq_true Hat%bool_decide_eq_true].
    apply consistent_announce.
    destruct (cons_route _ Hs p Hp) as (Hr & _ & Hnd & Hl & Hch).
    split; simpl.
    + by intros ? [= <-].
    + rewrite Hp. intros ? [= <-]. split_and!; try done; lia.
  - destruct (decide (nodeId ≠ cur)); [|by apply consistent_announce].
    simpl. destruct (Planner.bfsPath _ _ _) eqn:Hb; [destruct (label_of _ _)|];
      by apply (consistent_routed _ nodeId).
Qed.

Lemma consistent_onNodeConfirmed s nodeId now now' :
  consistent s → consistent (onNodeConfirmed nodes edges ACTIVE_NODES nodeId now now' s).1.
Proof.
  intros Hs. unfold onNodeConfirmed. case_decide as Ha; [|done]. simpl.
  destruct (currentNode s) as [cur|] eqn:Hc;
    [destruct (path s) as [p|] eqn:Hp|]; try by apply consistent_startRoutingFrom.
  case_bool_decide; simpl; [|by apply consistent_startRoutingFrom].
  apply consistent_onRoute; try done.
  by eapply consistent_same; [..|exact Hs].
Qed.

Lemma consistent_handle ev s :
  consistent s → consistent (handle nodes edges ACTIVE_NODES indexToNode ev s).1.
Proof.
  intros Hs. destruct ev as [nodeId now now'|i t now now'|d| | |now|[]]; simpl.
  - by apply consistent_onNodeConfirmed.
  - unfold onTargetFound. destruct (indexToNode !! i) as [nodeId|]; [|done].
    destruct (truthy _); [|done].
    destruct (acceptStable _ _ _) as [d [|]]; [|by eapply consistent_same; [..|exact Hs]].
    apply consistent_onNodeConfirmed. by eapply consistent_same; [..|exact Hs].
  - unfold setDestinationHandler, speak_labelled. simpl.
    destruct (label_of _ _); by apply consistent_unrouted.
  - by apply consistent_unrouted.
  - unfold handleRepeat. case_bool_decide; [|done]. by eapply consistent_same; [..|exact Hs].
  - unfold maybeGiveMovementPrompt.
    repeat (case_match; try done). by eapply consistent_same; [..|exact Hs].
  - by apply consistent_announce.
Qed.

Lemma consistent_run evs : ∀ s,
  consistent s → consistent (run nodes edges ACTIVE_NODES indexToNode evs s).1.
Proof.
  induction evs as [|ev evs IH]; intros s Hs; [done|].
  simpl. apply IH. by apply consistent_handle.
Qed.

Lemma reachable_consistent s :
  reachable nodes edges ACTIVE_NODES indexToNode s → consistent s.
Proof.
  intros (d & evs & ->). apply consistent_run. by apply consistent_unrouted.
Qed.

End facts.
End NavigationPageProofs.

(** ** The state machine of [IntegratedNavigation] *)

Module IntegratedNavigationProofs.
Import IntegratedNavigation.

Section facts.
Context (nodes : gmap string NodeData) (edges : gmap string (list Edge))
  (ACTIVE_NODES : gset string) (indexToNode : gmap nat string).

(** What holds of the variables between any two events. *)
Record coherent (s : Nav) : Prop := {
  coh_active : ∀ c, currentNode s = Some c → c ∈ ACTIVE_NODES;
  coh_arrived : arrived s = true → path s = None;
  coh_route : ∀ p, path s = Some p →
    (0 ≤ pathStep s < Z.of_nat (length p))%Z ∧
    at_index p (pathStep s) = currentNode s ∧
    NoDup p ∧ last p = Some (destinationNode s) ∧ chain (edge edges) p;
}.

Lemma coherent_same s s' :
  currentNode s' = currentNode s → path s' = path s →
  pathStep s' = pathStep s → destinationNode s' = destinationNode s →
  arrived s' = arrived s → coherent s → coherent s'.
Proof.
  intros Hc Hp Hs Hd Ha [H1 H2 H3].
  split; rewrite ?Hc, ?Hp, ?Hs, ?Hd, ?Ha; done.
Qed.

Lemma coherent_no_route s :
  path s = None → (∀ c, currentNode s = Some c → c ∈ ACTIVE_NODES) → coherent s.
Proof. intros Hp Hc. split; rewrite ?Hp; done. Qed.

Lemma coherent_finishArrival s msg :
  coherent s → coherent (finishArrival msg s).1.
Proof. intros H. apply coherent_no_route; [done|]. apply H. Qed.

Lemma coherent_with_text s msg k :
  coherent s → (∀ m, coherent (k m s).1) → coherent (with_text msg k s).1.
Proof. intros Hs Hk. destruct msg; simpl; [apply Hk|done]. Qed.

Lemma coherent_speak s m i : coherent s → coherent (speak m i s).1.
Proof. by apply coherent_same. Qed.

Lemma coherent_announce s :
  coherent s → coherent (announceNextInstruction nodes edges s).1.
Proof.
  intros H. unfold announceNextInstruction.
  destruct (path s); [|done]. destruct (truthy _); simpl; [|done].
  case_decide; apply coherent_with_text; try done; intros m.
  - by apply coherent_finishArrival.
  - by apply coherent_speak.
Qed.

Lemma coherent_bathroom s cameFrom :
  coherent s → coherent (bathroomArrivalMessage nodes cameFrom s).1.
Proof.
  intros H. apply coherent_with_text; [done|]. intros m. by apply coherent_finishArrival.
Qed.

Lemma coherent_routed s nodeId :
  nodeId ∈ ACTIVE_NODES → currentNode s = Some nodeId → pathStep s = 0%Z →
  arrived s = false →
  path s = Planner.bfsPath edges nodeId (destinationNode s) → coherent s.
Proof.
  intros Ha Hc Hs Harr Hp. split.
  - rewrite Hc. by intros ? [= <-].
  - by rewrite Harr.
  - intros p Hp'. rewrite Hp in Hp'.
    apply PlannerProofs.bfsPath_Some in Hp' as ((Hh & Hl & Hch) & Hnd & _).
    rewrite Hs, Hc. destruct p as [|x p]; [done|]. simplify_eq/=.
    split_and!; try done; lia.
Qed.

Lemma coherent_startRoutingFrom s nodeId now :
  nodeId ∈ ACTIVE_NODES → arrived s = false →
  coherent (startRoutingFrom nodes edges nodeId now s).1.
Proof.
  intros Ha Harr. unfold startRoutingFrom. simpl.
  destruct (Planner.bfsPath _ _ _) eqn:Hb.
  - apply coherent_announce. by apply (coherent_routed _ nodeId).
  - by apply (coherent_routed _ nodeId).
Qed.

Lemma coherent_onRoute s nodeId cur p cameFrom :
  nodeId ∈ ACTIVE_NODES → currentNode s = Some cur → path s = Some p →
  arrived s = false → coherent s →
  coherent (onRoute nodes edges nodeId cur p cameFrom s).1.
Proof.
  intros Ha Hc Hp Harr Hs. unfold onRoute.
  destruct (bool_decide (pathStep s < _)%Z && _) eqn:Hnext.
  - apply andb_prop in Hnext as [Hlt%bool_decide_eq_true Hat%bool_decide_eq_true].
    destruct (coh_route _ Hs p Hp) as (Hr & _ & Hnd & Hl & Hch).
    match goal with |- coherent (if _ then ?a ?x ?s' else _).1 =>
      assert (coherent s') as Hs' end.
    { split; simpl.
      - by intros ? [= <-].
      - by rewrite Harr.
      - rewrite Hp. intros ? [= <-]. split_and!; try done; lia. }
    match goal with |- context [if ?b then bathroomArrivalMessage _ _ _ else _] =>
      destruct b end; [by apply coherent_bathroom|by apply coherent_announce].
  - destruct (decide (nodeId ≠ cur)); [|by apply coherent_announce].
    simpl. destruct (Planner.bfsPath _ _ _) eqn:Hb.
    + match goal with |- coherent (if _ then ?a ?x ?s' else _).1 =>
        assert (coherent s') as Hs' end.
      { by apply (coherent_routed _ nodeId). }
      match goal with |- context [if ?b then bathroomArrivalMessage _ _ _ else _] =>
        destruct b end; [by apply coherent_bathroom|].
      destruct (label_of _ _); [|done]. by apply (coherent_speak _ _ true).
    + by apply (coherent_routed _ nodeId).
Qed.

Lemma coherent_onNodeConfirmed s nodeId now now' :
  coherent s → coherent (onNodeConfirmed nodes edges ACTIVE_NODES nodeId now now' s).1.
Proof.
  intros Hs. unfold onNodeConfirmed. case_decide as Ha; [|done].
  destruct (arrived s) eqn:Harr; [done|]. simpl.
  destruct (currentNode s) as [cur|] eqn:Hc;
    [destruct (path s) as [p|] eqn:Hp|]; try by apply coherent_startRoutingFrom.
  case_bool_decide; simpl; [|by apply coherent_startRoutingFrom].
  apply coherent_onRoute; try done.
  by eapply coherent_same; [..|exact Hs].
Qed.

Lemma coherent_handle ev s :
  coherent s → coherent (handle nodes edges ACTIVE_NODES indexToNode ev s).1.
Proof.
  intros Hs. destruct ev as [nodeId now now'|i t now now'|d| | |now sp|[]]; simpl.
  - by apply coherent_onNodeConfirmed.
  - unfold onTargetFound. destruct (indexToNode !! i) as [nodeId|]; [|done].
    destruct (truthy _); [|done].
    destruct (acceptStable _ _ _) as [d [|]]; [|by eapply coherent_same; [..|exact Hs]].
    apply coherent_onNodeConfirmed. by eapply coherent_same; [..|exact Hs].
  - unfold setDestinationHandler. apply coherent_with_text.
    + by apply coherent_no_route.
    + intros m. by apply coherent_no_route.
  - by apply coherent_no_route.
  - unfold handleRepeat. case_bool_decide; [|done]. by eapply coherent_same; [..|exact Hs].
  - unfold maybeGiveMovementPrompt.
    repeat (case_match; try done). by eapply coherent_same; [..|exact Hs].
  - by apply coherent_announce.
Qed.

Lemma coherent_run evs : ∀ s,
  coherent s → coherent (run nodes edges ACTIVE_NODES indexToNode evs s).1.
Proof.
  induction evs as [|ev evs IH]; intros s Hs; [done|].
  simpl. apply IH. by apply coherent_handle.
Qed.

Lemma reachable_coherent s :
  reachable nodes edges ACTIVE_NODES indexToNode s → coherent s.
Proof.
  intros (d & evs & ->). apply coherent_run. by apply coherent_no_route.
Qed.

End facts.
End IntegratedNavigationProofs.

(** * The claims *)

(** An edge can be checked by evaluation. *)
Lemma edge_check edges u v :
  bool_decide (v ∈ to <$> out_edges edges u) = true → edge edges u v.
Proof.
  intros (e & -> & He)%bool_decide_eq_true%list_elem_of_fmap. by exists e.
Qed.

(** C4. For a goal that can be reached from the start along directed edges,
    [bfsPath] returns (its loops end) a sequence that begins with the start,
    ends with the goal, whose consecutive landmarks are joined by directed
    edges, and that is no longer than any route of the graph from the start
    to the goal: its length is the length of a shortest route. *)
Theorem bfsPath_shortest edges start goal :
  reachable_from edges start goal →
  ∃ p, Planner.bfsPath_run edges start goal = Some (Some p) ∧
       Planner.bfsPath edges start goal = Some p ∧
       head p = Some start ∧ last p = Some goal ∧
       (∀ i x y, p !! i = Some x → p !! S i = Some y → edge edges x y) ∧
       is_route edges start goal p ∧
       (∀ w, is_route edges start goal w → length p ≤ length w).
Proof.
  intros Hreach. rewrite PlannerProofs.bfsPath_run_returns.
  destruct (Planner.bfsPath edges start goal) as [p|] eqn:Hp.
  - exists p. apply PlannerProofs.bfsPath_Some in Hp as (Hr & _ & Hmin).
    pose proof Hr as (Hh & Hl & Hc).
    split_and!; try done.
    + by apply chain_lookup.
    + intros w (Hwh & Hwl & Hwc).
      pose proof (chain_nsteps _ _ _ _ Hwh Hwl Hwc) as Hn. apply Hmin in Hn.
      destruct w; [done|]. simpl in *. lia.
  - by apply PlannerProofs.bfsPath_None in Hp.
Qed.

Lemma bfsPath_shortest_witness :
  ∃ p, Planner.bfsPath_run IntegratedTables.edges "exitdoor" "elevator" = Some (Some p) ∧
       Planner.bfsPath IntegratedTables.edges "exitdoor" "elevator" = Some p ∧
       head p = Some "exitdoor" ∧ last p = Some "elevator" ∧
       (∀ i x y, p !! i = Some x → p !! S i = Some y →
                 edge IntegratedTables.edges x y) ∧
       is_route IntegratedTables.edges "exitdoor" "elevator" p ∧
       (∀ w, is_route IntegratedTables.edges "exitdoor" "elevator" w →
             length p ≤ length w).
Proof.
  apply (bfsPath_shortest IntegratedTables.edges "exitdoor" "elevator").
  apply (rtc_l _ _ "mainhall"); [by apply edge_check|].
  apply (rtc_l _ _ "washroom"); [by apply edge_check|].
  apply rtc_once. by apply edge_check.
Defined.

(** C5. [bfsPath] returns [null] exactly when the goal cannot be reached from
    the start along directed edges; a landmark is reached from itself by the
    one-element sequence; and the call always returns. *)
Theorem bfsPath_null_iff_unreachable edges start goal :
  (Planner.bfsPath edges start goal = None ↔ ¬ reachable_from edges start goal) ∧
  Planner.bfsPath edges start start = Some [start] ∧
  Planner.bfsPath_run edges start goal = Some (Planner.bfsPath edges start goal).
Proof.
  split_and!.
  - split; [apply PlannerProofs.bfsPath_None|].
    intros Hno. destruct (Planner.bfsPath edges start goal) as [p|] eqn:Hp; [|done].
    destruct Hno. apply PlannerProofs.bfsPath_Some in Hp as (Hr & _).
    by eapply PlannerProofs.route_reachable.
  - apply PlannerProofs.bfsPath_same.
  - apply PlannerProofs.bfsPath_run_returns.
Qed.

(** C6. The debouncer: a call with an id other than the stored candidate
    stores the id with the time of the call and answers false; a call with
    the candidate answers true exactly when at least 500 ms have passed since
    the candidate was stored, and leaves the debouncer as it is; so once a
    call has answered true, every later call (at a time not earlier) with the
    same id answers true again. *)
Theorem acceptStable_spec d nodeId now :
  (candidate d ≠ Some nodeId →
     acceptStable nodeId now d
       = ({| candidate := Some nodeId; candidateSince := now |}, false)) ∧
  (candidate d = Some nodeId →
     acceptStable nodeId now d = (d, bool_decide (500 ≤ now - candidateSince d)%Z) ∧
     ((acceptStable nodeId now d).2 = true ↔ (500 ≤ now - candidateSince d)%Z)) ∧
  (∀ later, (acceptStable nodeId now d).2 = true → (now ≤ later)%Z →
     acceptStable nodeId later (acceptStable nodeId now d).1
       = ((acceptStable nodeId now d).1, true)).
Proof.
  unfold acceptStable, stableMs. split_and!.
  - intros Hne. by rewrite decide_True.
  - intros Heq. rewrite decide_False by naive_solver. split; [done|].
    simpl. apply bool_decide_eq_true.
  - intros later. case_decide as Hc; simpl; [done|].
    intros Hok%bool_decide_eq_true Hle. rewrite decide_False by naive_solver.
    f_equal. apply bool_decide_eq_true. lia.
Qed.

Lemma acceptStable_spec_witness :
  let d := {| candidate := Some "washroom"; candidateSince := 1000 |} in
  (candidate d ≠ Some "elevator" ∧
     acceptStable "elevator" 1200 d
       = ({| candidate := Some "elevator"; candidateSince := 1200 |}, false)) ∧
  (acceptStable "washroom" 1499 d = (d, false) ∧
   acceptStable "washroom" 1500 d = (d, true)) ∧
  acceptStable "washroom" 9000 (acceptStable "washroom" 1500 d).1 = (d, true).
Proof.
  intros d.
  pose proof (acceptStable_spec d "elevator" 1200) as (H1 & _ & _).
  pose proof (acceptStable_spec d "washroom" 1499) as (_ & H2 & _).
  pose proof (acceptStable_spec d "washroom" 1500) as (_ & H3 & H4).
  split_and!.
  - done.
  - by apply H1.
  - by apply H2.
  - by apply H3.
  - apply (H4 9000%Z); [reflexivity|lia].
Defined.

(** C3. In every state the session can reach, by landmark confirmations,
    destination changes and resets (and also by raw target events, repeats
    and the two timers), a route that is set has its index inside it:
    [0 ≤ pathStep < path.length]. Both components. *)
Theorem route_index_within_route nodes edges ACTIVE_NODES indexToNode :
  (∀ s p, NavigationPage.reachable nodes edges ACTIVE_NODES indexToNode s →
          NavigationPage.path s = Some p →
          (0 ≤ NavigationPage.pathStep s < Z.of_nat (length p))%Z) ∧
  (∀ s p, IntegratedNavigation.reachable nodes edges ACTIVE_NODES indexToNode s →
          IntegratedNavigation.path s = Some p →
          (0 ≤ IntegratedNavigation.pathStep s < Z.of_nat (length p))%Z).
Proof.
  split; intros s p Hr Hp.
  - apply NavigationPageProofs.reachable_consistent in Hr.
    by destruct (NavigationPageProofs.cons_route _ _ _ Hr p Hp).
  - apply IntegratedNavigationProofs.reachable_coherent in Hr.
    by destruct (IntegratedNavigationProofs.coh_route _ _ _ Hr p Hp).
Qed.

Lemma route_index_within_route_witness :
  (0 ≤ NavigationPage.pathStep
         (NavigationPage.run NavigationTables.nodes NavigationTables.edges
            NavigationTables.ACTIVE_NODES NavigationTables.indexToNode
            [NavigationPage.NodeConfirmed "two" 10 11;
             NavigationPage.NodeConfirmed "washroom" 20 21]
            (NavigationPage.initial "door")).1 < 4)%Z ∧
  (0 ≤ IntegratedNavigation.pathStep
         (IntegratedNavigation.run IntegratedTables.nodes IntegratedTables.edges
            IntegratedTables.ACTIVE_NODES IntegratedTables.indexToNode
            [IntegratedNavigation.NodeConfirmed "exitdoor" 10 11;
             IntegratedNavigation.NodeConfirmed "mainhall" 20 21]
            (IntegratedNavigation.initial "elevator")).1 < 4)%Z.
Proof.
  split.
  - apply (proj1 (route_index_within_route NavigationTables.nodes
                    NavigationTables.edges NavigationTables.ACTIVE_NODES
                    NavigationTables.indexToNode) _
             ["two"; "washroom"; "caution"; "door"]).
    + eexists _, _. reflexivity.
    + reflexivity.
  - apply (proj2 (route_index_within_route IntegratedTables.nodes
                    IntegratedTables.edges IntegratedTables.ACTIVE_NODES
                    IntegratedTables.indexToNode) _
             ["exitdoor"; "mainhall"; "washroom"; "elevator"]).
    + eexists _, _. reflexivity.
    + reflexivity.
Defined.

Section confirmations.
Context (nodes : gmap string NodeData) (edges : gmap string (list Edge))
  (ACTIVE_NODES : gset string) (indexToNode : gmap nat string).

(** On a route without repeated landmarks, the landmark at the index is not
    the next one. *)
Lemma next_is_not_current (p : list string) (i : Z) (c : string) :
  NoDup p → at_index p i = Some c → at_index p (i + 1) ≠ Some c.
Proof.
  intros Hnd [Hi Hc]%at_index_Some [_ Hn]%at_index_Some.
  pose proof (NoDup_lookup _ _ _ _ Hnd Hc Hn). lia.
Qed.

(** A landmark of a route to the destination has a route to it. *)
Lemma on_route_has_route (p : list string) (i : Z) (x dest : string) :
  chain (edge edges) p → last p = Some dest → at_index p i = Some x →
  Planner.bfsPath edges x dest ≠ None.
Proof.
  intros Hc Hl [_ Hx]%at_index_Some Hnone.
  apply PlannerProofs.bfsPath_None in Hnone. apply Hnone.
  by eapply chain_rtc.
Qed.

Lemma nav_reconfirm s c p now now' :
  NavigationPage.reachable nodes edges ACTIVE_NODES indexToNode s →
  NavigationPage.currentNode s = Some c → c ≠ "" →
  NavigationPage.path s = Some p →
  (NavigationPage.pathStep s < Z.of_nat (length p) - 1)%Z →
  let r := NavigationPage.onNodeConfirmed nodes edges ACTIVE_NODES c now now' s in
  NavigationPage.pathStep r.1 = NavigationPage.pathStep s ∧
  NavigationPage.currentNode r.1 = Some c ∧
  NavigationPage.path r.1 = Some p ∧
  NavigationPage.destinationNode r.1 = NavigationPage.destinationNode s ∧
  r.2 = [CancelSpeech; Beep; Vibrate;
         Speak (NavigationPage.getEdgeInstruction edges (Some c)
                  (at_index p (NavigationPage.pathStep s + 1))) true].
Proof.
  intros Hr%NavigationPageProofs.reachable_consistent Hc Hne Hp Hmid.
  destruct (NavigationPageProofs.cons_route _ _ _ Hr p Hp) as (Hrange & Hat & Hnd & _).
  pose proof (NavigationPageProofs.cons_active _ _ _ Hr c Hc) as Hact.
  rewrite Hc in Hat.
  pose proof (next_is_not_current _ _ _ Hnd Hat) as Hnext.
  unfold NavigationPage.onNodeConfirmed. rewrite decide_True by done.
  simpl. rewrite Hc, Hp, bool_decide_eq_true_2 by done.
  unfold NavigationPage.onRoute. simpl.
  rewrite (bool_decide_eq_false_2 (at_index _ _ = _)), andb_false_r by done.
  rewrite decide_False by naive_solver.
  unfold NavigationPage.announceNextInstruction. simpl. rewrite Hp.
  rewrite decide_False by lia. simpl. by rewrite Hat.
Qed.

Lemma int_reconfirm s c p l now now' :
  IntegratedNavigation.reachable nodes edges ACTIVE_NODES indexToNode s →
  IntegratedNavigation.currentNode s = Some c → c ≠ "" →
  IntegratedNavigation.path s = Some p →
  (IntegratedNavigation.pathStep s < Z.of_nat (length p) - 1)%Z →
  label_of nodes c = Some l →
  let r := IntegratedNavigation.onNodeConfirmed nodes edges ACTIVE_NODES c now now' s in
  IntegratedNavigation.pathStep r.1 = IntegratedNavigation.pathStep s ∧
  IntegratedNavigation.currentNode r.1 = Some c ∧
  IntegratedNavigation.path r.1 = Some p ∧
  IntegratedNavigation.destinationNode r.1 = IntegratedNavigation.destinationNode s ∧
  IntegratedNavigation.arrived r.1 = false ∧
  r.2 = [Beep; Vibrate;
         Speak ("You are at " +:+ l +:+ ". " +:+
                IntegratedNavigation.getEdgeInstruction edges (Some c)
                  (at_index p (IntegratedNavigation.pathStep s + 1))) true].
Proof.
  intros Hr%IntegratedNavigationProofs.reachable_coherent Hc Hne Hp Hmid Hl.
  destruct (IntegratedNavigationProofs.coh_route _ _ _ Hr p Hp) as (Hrange & Hat & Hnd & _).
  pose proof (IntegratedNavigationProofs.coh_active _ _ _ Hr c Hc) as Hact.
  assert (IntegratedNavigation.arrived s = false) as Harr.
  { destruct (IntegratedNavigation.arrived s) eqn:Ha; [|done].
    apply (IntegratedNavigationProofs.coh_arrived _ _ _ Hr) in Ha. congruence. }
  rewrite Hc in Hat.
  pose proof (next_is_not_current _ _ _ Hnd Hat) as Hnext.
  unfold IntegratedNavigation.onNodeConfirmed. rewrite decide_True, Harr by done.
  simpl. rewrite Hc, Hp, bool_decide_eq_true_2 by done.
  unfold IntegratedNavigation.onRoute. simpl.
  rewrite (bool_decide_eq_false_2 (at_index _ _ = _)), andb_false_r by done.
  rewrite decide_False by naive_solver.
  unfold IntegratedNavigation.announceNextInstruction. simpl. rewrite Hp, Hc.
  simpl. rewrite bool_decide_eq_true_2 by done. simpl.
  rewrite decide_False by lia. rewrite Hat. simpl. rewrite Hl. simpl.
  by rewrite Harr.
Qed.

End confirmations.

(** C8. Mid-route, confirming the landmark the session is already at leaves
    [pathStep], [currentNode] (and the route) as they are and speaks the
    instruction of the current segment again. Both components; in the
    integrated one the instruction is prefixed by the landmark's label. *)
Theorem reconfirmation_is_idempotent nodes edges ACTIVE_NODES indexToNode :
  (∀ s c p now now',
     NavigationPage.reachable nodes edges ACTIVE_NODES indexToNode s →
     NavigationPage.currentNode s = Some c → c ≠ "" →
     NavigationPage.path s = Some p →
     (NavigationPage.pathStep s < Z.of_nat (length p) - 1)%Z →
     let r := NavigationPage.onNodeConfirmed nodes edges ACTIVE_NODES c now now' s in
     NavigationPage.pathStep r.1 = NavigationPage.pathStep s ∧
     NavigationPage.currentNode r.1 = Some c ∧
     NavigationPage.path r.1 = Some p ∧
     NavigationPage.destinationNode r.1 = NavigationPage.destinationNode s ∧
     r.2 = [CancelSpeech; Beep; Vibrate;
            Speak (NavigationPage.getEdgeInstruction edges (Some c)
                     (at_index p (NavigationPage.pathStep s + 1))) true]) ∧
  (∀ s c p l now now',
     IntegratedNavigation.reachable nodes edges ACTIVE_NODES indexToNode s →
     IntegratedNavigation.currentNode s = Some c → c ≠ "" →
     IntegratedNavigation.path s = Some p →
     (IntegratedNavigation.pathStep s < Z.of_nat (length p) - 1)%Z →
     label_of nodes c = Some l →
     let r := IntegratedNavigation.onNodeConfirmed nodes edges ACTIVE_NODES c now now' s in
     IntegratedNavigation.pathStep r.1 = IntegratedNavigation.pathStep s ∧
     IntegratedNavigation.currentNode r.1 = Some c ∧
     IntegratedNavigation.path r.1 = Some p ∧
     IntegratedNavigation.destinationNode r.1 = IntegratedNavigation.destinationNode s ∧
     IntegratedNavigation.arrived r.1 = false ∧
     r.2 = [Beep; Vibrate;
            Speak ("You are at " +:+ l +:+ ". " +:+
                   IntegratedNavigation.getEdgeInstruction edges (Some c)
                     (at_index p (IntegratedNavigation.pathStep s + 1))) true]).
Proof.
  split; intros; [by apply (nav_reconfirm _ _ _ indexToNode)
                 |by apply (int_reconfirm _ _ _ indexToNode)].
Qed.

Lemma reconfirmation_is_idempotent_witness :
  (let s := (NavigationPage.run NavigationTables.nodes NavigationTables.edges
               NavigationTables.ACTIVE_NODES NavigationTables.indexToNode
               [NavigationPage.NodeConfirmed "two" 10 11]
               (NavigationPage.initial "door")).1 in
   let r := NavigationPage.onNodeConfirmed NavigationTables.nodes
              NavigationTables.edges NavigationTables.ACTIVE_NODES "two" 20 21 s in
   NavigationPage.pathStep r.1 = 0%Z ∧
   NavigationPage.currentNode r.1 = Some "two" ∧
   r.2 = [CancelSpeech; Beep; Vibrate;
          Speak "Landmark confirmed: 2 sign. Take a right to reach the washroom." true]) ∧
  (let s := (IntegratedNavigation.run IntegratedTables.nodes IntegratedTables.edges
               IntegratedTables.ACTIVE_NODES IntegratedTables.indexToNode
               [IntegratedNavigation.NodeConfirmed "exitdoor" 10 11]
               (IntegratedNavigation.initial "elevator")).1 in
   let r := IntegratedNavigation.onNodeConfirmed IntegratedTables.nodes
              IntegratedTables.edges IntegratedTables.ACTIVE_NODES "exitdoor" 20 21 s in
   IntegratedNavigation.pathStep r.1 = 0%Z ∧
   IntegratedNavigation.currentNode r.1 = Some "exitdoor" ∧
   r.2 = [Beep; Vibrate;
          Speak "You are at Exit door. Do a 180, then walk straight." true]).
Proof.
  split.
  - intros s r.
    destruct (proj1 (reconfirmation_is_idempotent NavigationTables.nodes
                       NavigationTables.edges NavigationTables.ACTIVE_NODES
                       NavigationTables.indexToNode)
                s "two" ["two"; "washroom"; "caution"; "door"] 20%Z 21%Z)
      as (H1 & H2 & _ & _ & H3).
    + eexists _, _. reflexivity.
    + reflexivity.
    + discriminate.
    + reflexivity.
    + reflexivity.
    + split_and!; [exact H1|exact H2|exact H3].
  - intros s r.
    destruct (proj2 (reconfirmation_is_idempotent IntegratedTables.nodes
                       IntegratedTables.edges IntegratedTables.ACTIVE_NODES
                       IntegratedTables.indexToNode)
                s "exitdoor" ["exitdoor"; "mainhall"; "washroom"; "elevator"]
                "Exit door" 20%Z 21%Z)
      as (H1 & H2 & _ & _ & _ & H3).
    + eexists _, _. reflexivity.
    + reflexivity.
    + discriminate.
    + reflexivity.
    + reflexivity.
    + reflexivity.
    + split_and!; [exact H1|exact H2|exact H3].
Defined.

Section no_route.
Context (nodes : gmap string NodeData) (edges : gmap string (list Edge))
  (ACTIVE_NODES : gset string) (indexToNode : gmap nat string).

Lemma nav_no_route s nodeId now now' :
  NavigationPage.reachable nodes edges ACTIVE_NODES indexToNode s →
  nodeId ∈ ACTIVE_NODES →
  Planner.bfsPath edges nodeId (NavigationPage.destinationNode s) = None →
  let r := NavigationPage.onNodeConfirmed nodes edges ACTIVE_NODES nodeId now now' s in
  NavigationPage.unrouted r.1 = true ∧
  NavigationPage.path r.1 = None ∧
  NavigationPage.pathStep r.1 = 0%Z ∧
  NavigationPage.currentNode r.1 = Some nodeId ∧
  NavigationPage.destinationNode r.1 = NavigationPage.destinationNode s ∧
  NavigationPage.segmentPrompted r.1 = false ∧
  r.2 = [CancelSpeech; Beep; Vibrate;
         Speak (if NavigationPage.unrouted s then "No route found from here."
                else "I cannot find a route from here.") true].
Proof.
  intros Hr%NavigationPageProofs.reachable_consistent Hact Hnone r.
  assert (NavigationPage.path r.1 = None → NavigationPage.unrouted r.1 = true) as Hun.
  { unfold NavigationPage.unrouted. intros ->. by rewrite orb_true_r. }
  match goal with |- _ ∧ ?G => cut G; [intros HG; split; [apply Hun, HG|exact HG]|] end.
  clear Hun. subst r.
  remember (NavigationPage.unrouted s) as u eqn:Hu. unfold NavigationPage.unrouted in Hu.
  unfold NavigationPage.onNodeConfirmed. rewrite decide_True by done. simpl.
  destruct (NavigationPage.currentNode s) as [c|] eqn:Hc;
    [destruct (NavigationPage.path s) as [p|] eqn:Hp|]; simpl in Hu.
  - destruct (NavigationPageProofs.cons_route _ _ _ Hr p Hp) as (_ & Hat & _ & Hl & Hch).
    rewrite Hc in Hat. destruct (decide (c ≠ "")) as [Hne|Hne].
    + rewrite (bool_decide_eq_true_2 (c ≠ "")) in Hu by done.
      rewrite (bool_decide_eq_true_2 (c ≠ "")) by done.
      simpl in Hu. subst u. unfold NavigationPage.onRoute.
      destruct (bool_decide (_ < _)%Z && _) eqn:Hnext.
      { apply andb_prop in Hnext as [_ Hn%bool_decide_eq_true].
        by destruct (on_route_has_route _ _ _ _ _ Hch Hl Hn). }
      destruct (decide (nodeId ≠ c)) as [?|Heq];
        [simpl; rewrite Hnone; simpl; done|].
      assert (nodeId = c) as -> by (by destruct (decide (nodeId = c))).
      by destruct (on_route_has_route _ _ _ _ _ Hch Hl Hat).
    + rewrite (bool_decide_eq_false_2 (c ≠ "")) in Hu by done.
      rewrite (bool_decide_eq_false_2 (c ≠ "")) by done.
      simpl in Hu. subst u.
      unfold NavigationPage.startRoutingFrom. simpl. rewrite Hnone. simpl. done.
  - rewrite orb_true_r in Hu. subst u.
    unfold NavigationPage.startRoutingFrom. simpl. rewrite Hnone. simpl. done.
  - subst u. unfold NavigationPage.startRoutingFrom. simpl. rewrite Hnone. simpl. done.
Qed.

Lemma int_no_route s nodeId now now' :
  IntegratedNavigation.reachable nodes edges ACTIVE_NODES indexToNode s →
  nodeId ∈ ACTIVE_NODES → IntegratedNavigation.arrived s = false →
  Planner.bfsPath edges nodeId (IntegratedNavigation.destinationNode s) = None →
  let r := IntegratedNavigation.onNodeConfirmed nodes edges ACTIVE_NODES nodeId now now' s in
  IntegratedNavigation.unrouted r.1 = true ∧
  IntegratedNavigation.path r.1 = None ∧
  IntegratedNavigation.pathStep r.1 = 0%Z ∧
  IntegratedNavigation.currentNode r.1 = Some nodeId ∧
  IntegratedNavigation.lastNode r.1 = IntegratedNavigation.currentNode s ∧
  IntegratedNavigation.destinationNode r.1 = IntegratedNavigation.destinationNode s ∧
  IntegratedNavigation.arrived r.1 = false ∧
  IntegratedNavigation.segmentPrompted r.1 = false ∧
  r.2 = [Beep; Vibrate;
         Speak (if IntegratedNavigation.unrouted s then "No route found from here."
                else "I cannot find a route from here.") true].
Proof.
  intros Hr%IntegratedNavigationProofs.reachable_coherent Hact Harr Hnone r.
  assert (IntegratedNavigation.path r.1 = None → IntegratedNavigation.unrouted r.1 = true) as Hun.
  { unfold IntegratedNavigation.unrouted. intros ->. by rewrite orb_true_r. }
  match goal with |- _ ∧ ?G => cut G; [intros HG; split; [apply Hun, HG|exact HG]|] end.
  clear Hun. subst r.
  remember (IntegratedNavigation.unrouted s) as u eqn:Hu. unfold IntegratedNavigation.unrouted in Hu.
  unfold IntegratedNavigation.onNodeConfirmed. rewrite decide_True, Harr by done. simpl.
  destruct (IntegratedNavigation.currentNode s) as [c|] eqn:Hc;
    [destruct (IntegratedNavigation.path s) as [p|] eqn:Hp|]; simpl in Hu.
  - destruct (IntegratedNavigationProofs.coh_route _ _ _ Hr p Hp) as (_ & Hat & _ & Hl & Hch).
    rewrite Hc in Hat. destruct (decide (c ≠ "")) as [Hne|Hne].
    + rewrite (bool_decide_eq_true_2 (c ≠ "")) in Hu by done.
      rewrite (bool_decide_eq_true_2 (c ≠ "")) by done.
      simpl in Hu. subst u. unfold IntegratedNavigation.onRoute.
      destruct (bool_decide (_ < _)%Z && _) eqn:Hnext.
      { apply andb_prop in Hnext as [_ Hn%bool_decide_eq_true].
        by destruct (on_route_has_route _ _ _ _ _ Hch Hl Hn). }
      destruct (decide (nodeId ≠ c)) as [?|Heq];
        [simpl; rewrite Hnone; simpl; by rewrite Harr|].
      assert (nodeId = c) as -> by (by destruct (decide (nodeId = c))).
      by destruct (on_route_has_route _ _ _ _ _ Hch Hl Hat).
    + rewrite (bool_decide_eq_false_2 (c ≠ "")) in Hu by done.
      rewrite (bool_decide_eq_false_2 (c ≠ "")) by done.
      simpl in Hu. subst u.
      unfold IntegratedNavigation.startRoutingFrom. simpl. rewrite Hnone. simpl. by rewrite Harr.
  - rewrite orb_true_r in Hu. subst u.
    unfold IntegratedNavigation.startRoutingFrom. simpl. rewrite Hnone. simpl. by rewrite Harr.
  - subst u. unfold IntegratedNavigation.startRoutingFrom. simpl. rewrite Hnone. simpl. by rewrite Harr.
Qed.

End no_route.



(** C1 as stated fails: the shipped [NavigationPage] tables, destination
    [couch] (a landmark of [nodes] that no edge leads to), nothing confirmed
    yet. Confirming [two] finds no route, and the current location does not
    stay unset. *)
Lemma no_route_sets_current_location :
  Planner.bfsPath NavigationTables.edges "two" "couch" = None ∧
  NavigationPage.currentNode (NavigationPage.initial "couch") = None ∧
  ¬ NavigationPage.currentNode
      (NavigationPage.onNodeConfirmed NavigationTables.nodes
         NavigationTables.edges NavigationTables.ACTIVE_NODES "two" 10 11
         (NavigationPage.initial "couch")).1
    = NavigationPage.currentNode (NavigationPage.initial "couch").
Proof. split_and!; [by vm_compute|by vm_compute|vm_compute; discriminate]. Qed.

Section rerouting.
Context (nodes : gmap string NodeData) (edges : gmap string (list Edge))
  (ACTIVE_NODES : gset string).

(** The text of the first instruction of a freshly planned route [q]. *)
Definition nav_first_instruction (nodeId : string) (q : list string) : string :=
  match q with
  | _ :: b :: _ => NavigationPage.getEdgeInstruction edges (Some nodeId) (Some b)
  | _ => "You have arrived."
  end.

Definition int_first_instruction (nodeId l : string) (q : list string) : string :=
  match q with
  | _ :: b :: _ =>
      "You are at " +:+ l +:+ ". " +:+
      IntegratedNavigation.getEdgeInstruction edges (Some nodeId) (Some b)
  | _ => ("You have arrived at " +:+ l +:+ ".") +:+ " Choose next destination."
  end.

(** The sentence of [bathroomArrivalMessage], as [finishArrival] speaks it. *)
Definition bathroom_sentence (l : string) (cameFrom : string) : string :=
  ("You are at " +:+ l +:+ ". " +:+
   (if decide (cameFrom = "elevator") then "Go left." else "Go right.") +:+
   " The door is in front of you. Walk with caution and open the door to enter.")
  +:+ " Choose next destination.".

Lemma nav_reroute s c p nodeId l now now' :
  nodeId ∈ ACTIVE_NODES →
  NavigationPage.currentNode s = Some c → c ≠ "" →
  NavigationPage.path s = Some p →
  nodeId ≠ c → at_index p (NavigationPage.pathStep s + 1) ≠ Some nodeId →
  label_of nodes nodeId = Some l →
  let r := NavigationPage.onNodeConfirmed nodes edges ACTIVE_NODES nodeId now now' s in
  let route := Planner.bfsPath edges nodeId (NavigationPage.destinationNode s) in
  NavigationPage.currentNode r.1 = Some nodeId ∧
  NavigationPage.path r.1 = route ∧
  NavigationPage.pathStep r.1 = 0%Z ∧
  NavigationPage.destinationNode r.1 = NavigationPage.destinationNode s ∧
  r.2 = [CancelSpeech; Beep; Vibrate] ++
        match route with
        | Some _ => [Speak ("Re routing from " +:+ l +:+ ".") true;
                     SetTimeout AnnounceNextInstruction 350]
        | None => [Speak "I cannot find a route from here." true]
        end ∧
  (∀ q, route = Some q →
        (NavigationPage.announceNextInstruction edges r.1).2
          = [Speak (nav_first_instruction nodeId q) true]).
Proof.
  intros Hact Hc Hne Hp Hnc Hnn Hl.
  unfold NavigationPage.onNodeConfirmed. rewrite decide_True by done.
  simpl. rewrite Hc, Hp, bool_decide_eq_true_2 by done.
  unfold NavigationPage.onRoute. simpl.
  rewrite (bool_decide_eq_false_2 (at_index _ _ = _)), andb_false_r by done.
  rewrite decide_True by done. simpl.
  destruct (Planner.bfsPath edges nodeId _) as [q|] eqn:Hq; simpl.
  - rewrite Hl. simpl. split_and!; try done.
    intros ? [= <-]. unfold NavigationPage.announceNextInstruction. simpl.
    apply PlannerProofs.bfsPath_Some in Hq as ((Hh & _) & _).
    destruct q as [|a [|b q]]; simplify_eq/=.
    + done.
    + rewrite decide_False by lia. done.
  - split_and!; done.
Qed.

Lemma int_reroute s c p nodeId l now now' :
  nodeId ∈ ACTIVE_NODES → nodeId ≠ "" →
  IntegratedNavigation.arrived s = false →
  IntegratedNavigation.currentNode s = Some c → c ≠ "" →
  IntegratedNavigation.path s = Some p →
  nodeId ≠ c → at_index p (IntegratedNavigation.pathStep s + 1) ≠ Some nodeId →
  label_of nodes nodeId = Some l →
  let r := IntegratedNavigation.onNodeConfirmed nodes edges ACTIVE_NODES nodeId now now' s in
  let route := Planner.bfsPath edges nodeId (IntegratedNavigation.destinationNode s) in
  IntegratedNavigation.currentNode r.1 = Some nodeId ∧
  IntegratedNavigation.lastNode r.1 = Some c ∧
  IntegratedNavigation.pathStep r.1 = 0%Z ∧
  IntegratedNavigation.destinationNode r.1 = IntegratedNavigation.destinationNode s ∧
  if bool_decide (IntegratedNavigation.destinationNode s = "washroom")
     && bool_decide (nodeId = "washroom")
  then
    IntegratedNavigation.path r.1 = None ∧
    IntegratedNavigation.arrived r.1 = true ∧
    r.2 = [Beep; Vibrate; Speak (bathroom_sentence l c) true]
  else
    IntegratedNavigation.path r.1 = route ∧
    IntegratedNavigation.arrived r.1 = false ∧
    r.2 = [Beep; Vibrate] ++
          match route with
          | Some _ => [Speak ("You are at " +:+ l +:+ ". Re routing.") true;
                       SetTimeout AnnounceNextInstruction 350]
          | None => [Speak "I cannot find a route from here." true]
          end ∧
    (∀ q, route = Some q →
          (IntegratedNavigation.announceNextInstruction nodes edges r.1).2
            = [Speak (int_first_instruction nodeId l q) true]).
Proof.
  intros Hact Hnid Harr Hc Hne Hp Hnc Hnn Hl.
  unfold IntegratedNavigation.onNodeConfirmed. rewrite decide_True, Harr by done.
  simpl. rewrite Hc, Hp, bool_decide_eq_true_2 by done.
  unfold IntegratedNavigation.onRoute. simpl.
  rewrite (bool_decide_eq_false_2 (at_index _ _ = _)), andb_false_r by done.
  rewrite decide_True by done. simpl.
  destruct (bool_decide (IntegratedNavigation.destinationNode s = "washroom")
            && bool_decide (nodeId = "washroom")) eqn:Hw.
  - apply andb_prop in Hw as [Hd%bool_decide_eq_true ->%bool_decide_eq_true].
    rewrite Hd, PlannerProofs.bfsPath_same. simpl.
    unfold IntegratedNavigation.bathroomArrivalMessage, bathroom_sentence.
    rewrite Hl. simpl. split_and!; try done.
    repeat f_equal. destruct (decide (c = "elevator")) as [->|?].
    + by rewrite decide_True.
    + rewrite decide_False; [done|]. by intros [= ->].
  - destruct (Planner.bfsPath edges nodeId _) as [q|] eqn:Hq; simpl.
    + rewrite Hl. simpl. split_and!; try done.
      intros ? [= <-]. unfold IntegratedNavigation.announceNextInstruction. simpl.
      rewrite bool_decide_eq_true_2 by done. simpl.
      apply PlannerProofs.bfsPath_Some in Hq as ((Hh & Hlast & _) & _).
      destruct q as [|a [|b q]]; simplify_eq/=.
      * rewrite Hl. simpl. done.
      * rewrite decide_False by lia. rewrite Hl. simpl. done.
    + rewrite Harr. split_and!; done.
Qed.

End rerouting.

(** C7, as the code has it. Mid-route (a current landmark and a route are
    set; not yet arrived in the integrated component), when an active
    landmark is confirmed that is neither the current landmark nor the next
    one on the route, the current location becomes the confirmed landmark,
    the route is planned anew from it to the destination and [pathStep] is
    reset to 0. If the planner finds a route, the re-route is announced and
    [announceNextInstruction] is scheduled 350 ms later, which then speaks
    the first instruction of the new route; if it finds none,
    ["I cannot find a route from here."] is spoken instead and no route is
    set. In the integrated component there is one exception: when the
    destination and the confirmed landmark are both [washroom], the bathroom
    arrival sentence is spoken, the route is cleared and the session has
    arrived, with no re-route announcement. *)
Theorem off_route_replans nodes edges ACTIVE_NODES :
  (∀ s c p nodeId l now now',
     nodeId ∈ ACTIVE_NODES →
     NavigationPage.currentNode s = Some c → c ≠ "" →
     NavigationPage.path s = Some p →
     nodeId ≠ c → at_index p (NavigationPage.pathStep s + 1) ≠ Some nodeId →
     label_of nodes nodeId = Some l →
     let r := NavigationPage.onNodeConfirmed nodes edges ACTIVE_NODES nodeId now now' s in
     let route := Planner.bfsPath edges nodeId (NavigationPage.destinationNode s) in
     NavigationPage.currentNode r.1 = Some nodeId ∧
     NavigationPage.path r.1 = route ∧
     NavigationPage.pathStep r.1 = 0%Z ∧
     NavigationPage.destinationNode r.1 = NavigationPage.destinationNode s ∧
     r.2 = [CancelSpeech; Beep; Vibrate] ++
           match route with
           | Some _ => [Speak ("Re routing from " +:+ l +:+ ".") true;
                        SetTimeout AnnounceNextInstruction 350]
           | None => [Speak "I cannot find a route from here." true]
           end ∧
     (∀ q, route = Some q →
           (NavigationPage.announceNextInstruction edges r.1).2
             = [Speak (nav_first_instruction edges nodeId q) true])) ∧
  (∀ s c p nodeId l now now',
     nodeId ∈ ACTIVE_NODES → nodeId ≠ "" →
     IntegratedNavigation.arrived s = false →
     IntegratedNavigation.currentNode s = Some c → c ≠ "" →
     IntegratedNavigation.path s = Some p →
     nodeId ≠ c → at_index p (IntegratedNavigation.pathStep s + 1) ≠ Some nodeId →
     label_of nodes nodeId = Some l →
     let r := IntegratedNavigation.onNodeConfirmed nodes edges ACTIVE_NODES nodeId now now' s in
     let route := Planner.bfsPath edges nodeId (IntegratedNavigation.destinationNode s) in
     IntegratedNavigation.currentNode r.1 = Some nodeId ∧
     IntegratedNavigation.lastNode r.1 = Some c ∧
     IntegratedNavigation.pathStep r.1 = 0%Z ∧
     IntegratedNavigation.destinationNode r.1 = IntegratedNavigation.destinationNode s ∧
     if bool_decide (IntegratedNavigation.destinationNode s = "washroom")
        && bool_decide (nodeId = "washroom")
     then
       IntegratedNavigation.path r.1 = None ∧
       IntegratedNavigation.arrived r.1 = true ∧
       r.2 = [Beep; Vibrate; Speak (bathroom_sentence l c) true]
     else
       IntegratedNavigation.path r.1 = route ∧
       IntegratedNavigation.arrived r.1 = false ∧
       r.2 = [Beep; Vibrate] ++
             match route with
             | Some _ => [Speak ("You are at " +:+ l +:+ ". Re routing.") true;
                          SetTimeout AnnounceNextInstruction 350]
             | None => [Speak "I cannot find a route from here." true]
             end ∧
       (∀ q, route = Some q →
             (IntegratedNavigation.announceNextInstruction nodes edges r.1).2
               = [Speak (int_first_instruction edges nodeId l q) true])).
Proof.
  split; intros; [by eapply nav_reroute|by eapply int_reroute].
Qed.

Lemma off_route_replans_witness :
  (let s := (NavigationPage.run NavigationTables.nodes NavigationTables.edges
               NavigationTables.ACTIVE_NODES NavigationTables.indexToNode
               [NavigationPage.NodeConfirmed "two" 10 11;
                NavigationPage.NodeConfirmed "washroom" 20 21]
               (NavigationPage.initial "door")).1 in
   let r := NavigationPage.onNodeConfirmed NavigationTables.nodes
              NavigationTables.edges NavigationTables.ACTIVE_NODES "two" 30 31 s in
   NavigationPage.currentNode r.1 = Some "two" ∧
   NavigationPage.path r.1 = Some ["two"; "washroom"; "caution"; "door"] ∧
   NavigationPage.pathStep r.1 = 0%Z ∧
   r.2 = [CancelSpeech; Beep; Vibrate; Speak "Re routing from 2 sign." true;
          SetTimeout AnnounceNextInstruction 350] ∧
   (NavigationPage.announceNextInstruction NavigationTables.edges r.1).2
     = [Speak "Landmark confirmed: 2 sign. Take a right to reach the washroom." true]) ∧
  (let s := (IntegratedNavigation.run IntegratedTables.nodes IntegratedTables.edges
               IntegratedTables.ACTIVE_NODES IntegratedTables.indexToNode
               [IntegratedNavigation.NodeConfirmed "exitdoor" 10 11;
                IntegratedNavigation.NodeConfirmed "mainhall" 20 21]
               (IntegratedNavigation.initial "elevator")).1 in
   let r := IntegratedNavigation.onNodeConfirmed IntegratedTables.nodes
              IntegratedTables.edges IntegratedTables.ACTIVE_NODES "exitdoor" 30 31 s in
   IntegratedNavigation.currentNode r.1 = Some "exitdoor" ∧
   IntegratedNavigation.path r.1
     = Some ["exitdoor"; "mainhall"; "washroom"; "elevator"] ∧
   IntegratedNavigation.pathStep r.1 = 0%Z ∧
   r.2 = [Beep; Vibrate; Speak "You are at Exit door. Re routing." true;
          SetTimeout AnnounceNextInstruction 350] ∧
   (IntegratedNavigation.announceNextInstruction IntegratedTables.nodes
      IntegratedTables.edges r.1).2
     = [Speak "You are at Exit door. Do a 180, then walk straight." true]).
Proof.
  split.
  - intros s r.
    destruct (proj1 (off_route_replans NavigationTables.nodes
                       NavigationTables.edges NavigationTables.ACTIVE_NODES)
                s "washroom" ["two"; "washroom"; "caution"; "door"] "two"
                "2 sign" 30%Z 31%Z)
      as (H1 & H2 & H3 & _ & H4 & H5).
    + compute_done.
    + by vm_compute.
    + vm_compute; discriminate.
    + by vm_compute.
    + vm_compute; discriminate.
    + vm_compute; discriminate.
    + by vm_compute.
    + split_and!; [exact H1|exact H2|exact H3|exact H4|].
      exact (H5 ["two"; "washroom"; "caution"; "door"] eq_refl).
  - intros s r.
    assert (bool_decide (IntegratedNavigation.destinationNode s = "washroom")
            && bool_decide ("exitdoor" = "washroom") = false) as Hb
      by (by vm_compute).
    pose proof (proj2 (off_route_replans IntegratedTables.nodes
                         IntegratedTables.edges IntegratedTables.ACTIVE_NODES)
                  s "mainhall" ["exitdoor"; "mainhall"; "washroom"; "elevator"]
                  "exitdoor" "Exit door" 30%Z 31%Z
                  ltac:(compute_done) ltac:(discriminate) ltac:(by vm_compute)
                  ltac:(by vm_compute) ltac:(discriminate) ltac:(by vm_compute)
                  ltac:(discriminate) ltac:(vm_compute; discriminate)
                  ltac:(by vm_compute)) as H.
    cbv zeta in H. rewrite Hb in H.
    destruct H as (H1 & _ & H3 & _ & H2 & _ & H4 & H5).
    split_and!; [exact H1|exact H2|exact H3|exact H4|].
    exact (H5 ["exitdoor"; "mainhall"; "washroom"; "elevator"] eq_refl).
Defined.

(** C7 as stated fails in the integrated component, on its shipped tables:
    with destination [washroom], after [exitdoor] was confirmed (the route
    is exitdoor, mainhall, washroom), confirming [washroom] (neither the
    current landmark nor the next one) announces no re-route and schedules
    no instruction, and the route is not the one planned from [washroom]. *)
Lemma off_route_at_washroom_arrives :
  let s := (IntegratedNavigation.run IntegratedTables.nodes IntegratedTables.edges
              IntegratedTables.ACTIVE_NODES IntegratedTables.indexToNode
              [IntegratedNavigation.NodeConfirmed "exitdoor" 10 11]
              (IntegratedNavigation.initial "washroom")).1 in
  let r := IntegratedNavigation.onNodeConfirmed IntegratedTables.nodes
             IntegratedTables.edges IntegratedTables.ACTIVE_NODES "washroom" 20 21 s in
  (IntegratedNavigation.currentNode s = Some "exitdoor" ∧
   IntegratedNavigation.path s = Some ["exitdoor"; "mainhall"; "washroom"] ∧
   IntegratedNavigation.pathStep s = 0%Z ∧
   IntegratedNavigation.arrived s = false) ∧
  ¬ (IntegratedNavigation.path r.1
       = Planner.bfsPath IntegratedTables.edges "washroom" "washroom") ∧
  ¬ (r.2 = [Beep; Vibrate; Speak "You are at Bathroom. Re routing." true;
            SetTimeout AnnounceNextInstruction 350]) ∧
  r.2 = [Beep; Vibrate;
         Speak "You are at Bathroom. Go right. The door is in front of you. Walk with caution and open the door to enter. Choose next destination." true].
Proof. split_and!; vm_compute; first [reflexivity|discriminate]. Qed.

(** C10. In the integrated component, with destination [washroom] and a
    route being followed from landmark [c], confirming [washroom], as the
    next landmark of the route or off the route, speaks the bathroom
    sentence in place of the generic arrival (["Go left."] when [c] is the
    elevator, ["Go right."] otherwise), and the session has arrived with the
    route cleared. *)
Theorem washroom_arrival nodes edges ACTIVE_NODES s c p l now now' :
  "washroom" ∈ ACTIVE_NODES → label_of nodes "washroom" = Some l →
  IntegratedNavigation.arrived s = false →
  IntegratedNavigation.destinationNode s = "washroom" →
  IntegratedNavigation.currentNode s = Some c → c ≠ "" →
  IntegratedNavigation.path s = Some p →
  ((IntegratedNavigation.pathStep s < Z.of_nat (length p) - 1)%Z ∧
   at_index p (IntegratedNavigation.pathStep s + 1) = Some "washroom")
  ∨ c ≠ "washroom" →
  let r := IntegratedNavigation.onNodeConfirmed nodes edges ACTIVE_NODES
             "washroom" now now' s in
  r.2 = [Beep; Vibrate;
         Speak (("You are at " +:+ l +:+ ". " +:+
                 (if decide (c = "elevator") then "Go left." else "Go right.") +:+
                 " The door is in front of you. Walk with caution and open the door to enter.")
                +:+ " Choose next destination.") true] ∧
  IntegratedNavigation.arrived r.1 = true ∧
  IntegratedNavigation.path r.1 = None ∧
  IntegratedNavigation.pathStep r.1 = 0%Z ∧
  IntegratedNavigation.currentNode r.1 = Some "washroom" ∧
  IntegratedNavigation.lastNode r.1 = Some c ∧
  IntegratedNavigation.destinationNode r.1 = "washroom".
Proof.
  intros Hact Hl Harr Hd Hc Hne Hp Hcase.
  assert (Hturn : (if decide (Some c = Some "elevator") then "Go left." else "Go right.")
                  = (if decide (c = "elevator") then "Go left." else "Go right.")).
  { destruct (decide (c = "elevator")) as [->|?].
    - by rewrite decide_True.
    - rewrite decide_False; [done|]. by intros [= ->]. }
  unfold IntegratedNavigation.onNodeConfirmed. rewrite decide_True, Harr by done.
  simpl. rewrite Hc, Hp, bool_decide_eq_true_2 by done.
  unfold IntegratedNavigation.onRoute. simpl.
  destruct (bool_decide (_ < _)%Z && _) eqn:Hnext.
  - simpl. rewrite Hd. simpl.
    unfold IntegratedNavigation.bathroomArrivalMessage. rewrite Hl. simpl.
    by rewrite Hturn, Hd.
  - destruct Hcase as [[Hlt Hat]|Hcw].
    { rewrite !bool_decide_eq_true_2 in Hnext by done. done. }
    rewrite decide_True by done. simpl.
    rewrite Hd, PlannerProofs.bfsPath_same. simpl.
    unfold IntegratedNavigation.bathroomArrivalMessage. rewrite Hl. simpl.
    by rewrite Hturn.
Qed.

Lemma washroom_arrival_witness :
  let s := (IntegratedNavigation.run IntegratedTables.nodes IntegratedTables.edges
              IntegratedTables.ACTIVE_NODES IntegratedTables.indexToNode
              [IntegratedNavigation.NodeConfirmed "elevator" 10 11]
              (IntegratedNavigation.initial "washroom")).1 in
  let r := IntegratedNavigation.onNodeConfirmed IntegratedTables.nodes
             IntegratedTables.edges IntegratedTables.ACTIVE_NODES "washroom" 20 21 s in
  r.2 = [Beep; Vibrate;
         Speak "You are at Bathroom. Go left. The door is in front of you. Walk with caution and open the door to enter. Choose next destination." true] ∧
  IntegratedNavigation.arrived r.1 = true ∧
  IntegratedNavigation.path r.1 = None.
Proof.
  intros s r.
  destruct (washroom_arrival IntegratedTables.nodes IntegratedTables.edges
              IntegratedTables.ACTIVE_NODES s "elevator" ["elevator"; "washroom"]
              "Bathroom" 20%Z 21%Z) as (H1 & H2 & H3 & _).
  - compute_done.
  - by vm_compute.
  - by vm_compute.
  - by vm_compute.
  - by vm_compute.
  - vm_compute; discriminate.
  - by vm_compute.
  - left. split; by vm_compute.
  - split_and!; [exact H1|exact H2|exact H3].
Defined.

(** ** After the arrival *)

(** The integrated component ignores a confirmation once it has arrived: no
    variable changes and nothing is issued. *)
Lemma int_arrived_ignores nodes edges ACTIVE_NODES s nodeId now now' :
  IntegratedNavigation.arrived s = true →
  IntegratedNavigation.onNodeConfirmed nodes edges ACTIVE_NODES nodeId now now' s
    = (s, []).
Proof.
  intros Harr. unfold IntegratedNavigation.onNodeConfirmed.
  rewrite Harr. by case_decide.
Qed.

(** ... and so any number of them, until a reset or a change of destination. *)
Lemma int_arrived_ignores_all nodes edges ACTIVE_NODES indexToNode s evs :
  IntegratedNavigation.arrived s = true →
  Forall (λ ev, ∃ nodeId now now',
            ev = IntegratedNavigation.NodeConfirmed nodeId now now') evs →
  IntegratedNavigation.run nodes edges ACTIVE_NODES indexToNode evs s = (s, []).
Proof.
  intros Harr. induction 1 as [|ev evs (nodeId & now & now' & ->) _ IH]; [done|].
  simpl. rewrite int_arrived_ignores by done. simpl. by rewrite IH.
Qed.

(** Reset and a change of destination leave the arrived state. *)
Lemma int_arrived_cleared nodes s d :
  IntegratedNavigation.arrived (IntegratedNavigation.resetNav s).1 = false ∧
  IntegratedNavigation.arrived
    (IntegratedNavigation.setDestinationHandler nodes d s).1 = false.
Proof.
  split; [done|]. unfold IntegratedNavigation.setDestinationHandler.
  by destruct (label_of _ _).
Qed.

(** The integrated component on its shipped tables, destination [mainhall]:
    target 3 (the exit door) is seen twice 600 ms apart and confirmed, then
    target 2 (the main hall) is seen four times 600 ms apart: the arrival is
    spoken once. *)
Lemma int_arrival_spoken_once :
  (IntegratedNavigation.run IntegratedTables.nodes IntegratedTables.edges
     IntegratedTables.ACTIVE_NODES IntegratedTables.indexToNode
     [IntegratedNavigation.TargetFound 3 1000 1000 1000;
      IntegratedNavigation.TargetFound 3 1600 1600 1600;
      IntegratedNavigation.TargetFound 2 5000 5000 5000;
      IntegratedNavigation.TargetFound 2 5600 5600 5600;
      IntegratedNavigation.TargetFound 2 6200 6200 6200;
      IntegratedNavigation.TargetFound 2 6800 6800 6800]
     (IntegratedNavigation.initial "mainhall")).2
  = [Beep; Vibrate; Speak "You are at Exit door. Do a 180, then walk straight." true;
     Beep; Vibrate;
     Speak "You have arrived at Main hall. Choose next destination." true].
Proof. reflexivity. Qed.

(** C2 on [NavigationPage], which has no arrival lock. Shipped tables,
    destination [washroom]: target 0 (the 2 sign) is seen twice 600 ms apart
    and confirmed, the scheduled instruction is spoken, then target 1 (the
    washroom) is seen three times 600 ms apart: it is confirmed twice, and
    ["You have arrived."] is spoken twice. *)
Theorem navigation_page_repeats_arrival :
  (NavigationPage.run NavigationTables.nodes NavigationTables.edges
     NavigationTables.ACTIVE_NODES NavigationTables.indexToNode
     [NavigationPage.TargetFound 0 1000 1000 1000;
      NavigationPage.TargetFound 0 1600 1600 1600;
      NavigationPage.TimerFired AnnounceNextInstruction;
      NavigationPage.TargetFound 1 5000 5000 5000;
      NavigationPage.TargetFound 1 5600 5600 5600;
      NavigationPage.TargetFound 1 6200 6200 6200]
     (NavigationPage.initial "washroom")).2
  = [CancelSpeech; Beep; Vibrate; Speak "Starting at 2 sign." true;
     SetTimeout AnnounceNextInstruction 350;
     Speak "Landmark confirmed: 2 sign. Take a right to reach the washroom." true;
     CancelSpeech; Beep; Vibrate; Speak "You have arrived." true;
     CancelSpeech; Beep; Vibrate; Speak "You have arrived." true].
Proof. reflexivity. Qed.

(** ** Voice commands *)

Module VoiceProofs.
Import Voice.

(** [k] occurs in [s] as a substring. *)
Definition occurs_in (k s : string) : Prop :=
  ∃ pre post, s = pre +:+ k +:+ post.

Lemma str_app_cons x a b : String x a +:+ b = String x (a +:+ b).
Proof. reflexivity. Qed.

Lemma str_app_nil_l a : "" +:+ a = a.
Proof. reflexivity. Qed.

Lemma str_app_assoc a b c : (a +:+ b) +:+ c = a +:+ b +:+ c.
Proof.
  induction a as [|x a IH]; [done|]. by rewrite !str_app_cons, IH.
Qed.

Lemma str_app_nil_r a : a +:+ "" = a.
Proof. induction a as [|x a IH]; [done|]. by rewrite str_app_cons, IH. Qed.

Lemma startsWith_spec k : ∀ s, startsWith s k = true ↔ ∃ post, s = k +:+ post.
Proof.
  induction k as [|a k IH]; intros s; simpl.
  - split; [intros _; by exists s|by destruct s].
  - destruct s as [|b s].
    + split; [done|]. by intros [post Hp].
    + simpl. rewrite andb_true_iff, bool_decide_eq_true, IH. split.
      * intros [-> [post ->]]. by exists post.
      * intros [post Hp]. rewrite str_app_cons in Hp. simplify_eq. eauto.
Qed.

Lemma includes_startsWith s k : startsWith s k = true → includes s k = true.
Proof. intros Hs. destruct s; cbn [includes]; by rewrite Hs. Qed.

Lemma includes_spec s k : includes s k = true ↔ occurs_in k s.
Proof.
  unfold occurs_in. split.
  - induction s as [|a s IH]; cbn [includes]; rewrite orb_true_iff.
    + intros [[post ->]%startsWith_spec|?]; [|done]. by exists "", post.
    + intros [[post ->]%startsWith_spec|(pre & post & ->)%IH].
      * by exists "", post.
      * by exists (String a pre), post.
  - intros (pre & post & ->). induction pre as [|a pre IH].
    + change ("" +:+ k +:+ post) with (k +:+ post).
      apply includes_startsWith, startsWith_spec. eauto.
    + rewrite str_app_cons. cbn [includes]. rewrite IH. apply orb_true_r.
Qed.

(** The loop stops at the first entry of the table whose keyword occurs in
    the transcript. *)
Lemma firstMatch_spec t table :
  match firstMatch t table with
  | Some d =>
      ∃ i kw, table !! i = Some (kw, d) ∧ occurs_in kw t ∧
              ∀ j kw' d', j < i → table !! j = Some (kw', d') → ¬ occurs_in kw' t
  | None => ∀ kw d, (kw, d) ∈ table → ¬ occurs_in kw t
  end.
Proof.
  induction table as [|[kw d] table IH]; simpl.
  - intros ?? Hin. by apply elem_of_nil in Hin.
  - destruct (includes t kw) eqn:Hinc.
    + exists 0, kw. split_and!; [done|by apply includes_spec|]. intros; lia.
    + assert (¬ occurs_in kw t) as Hno.
      { intros Ho%includes_spec. congruence. }
      destruct (firstMatch t table) as [d'|].
      * destruct IH as (i & kw' & Hi & Ho & Hfirst).
        exists (S i), kw'. split_and!; [done|done|].
        intros [|j] kw'' d'' Hlt Hj; simplify_eq/=; [done|].
        eapply Hfirst; [|done]. lia.
      * intros kw' d' [[= -> ->]|Hin]%elem_of_cons; [done|]. by eapply IH.
Qed.

(** Removing leading white space keeps the occurrences of a keyword that
    begins with another character. *)
Lemma occurs_in_trimStart c k s :
  is_space c = false →
  occurs_in (String c k) (trimStart s) ↔ occurs_in (String c k) s.
Proof.
  intros Hc. induction s as [|a s IH]; simpl; [done|].
  destruct (is_space a) eqn:Ha; [|done].
  rewrite IH. split.
  - intros (pre & post & ->). by exists (String a pre), post.
  - intros ([|b pre] & post & Heq).
    + change ("" +:+ String c k +:+ post) with (String c (k +:+ post)) in Heq.
      simplify_eq. congruence.
    + rewrite str_app_cons in Heq. simplify_eq. by exists pre, post.
Qed.

(** [trimEnd] cuts a (possibly empty) run of white space off the end. *)
Lemma trimEnd_spec s :
  ∃ ws, s = trimEnd s +:+ ws ∧
        ∀ u c v, ws = u +:+ String c v → is_space c = true.
Proof.
  induction s as [|a s (ws & Hs & Hws)]; simpl.
  - exists "". split; [done|]. intros [|??] ?? ?; by simplify_eq.
  - destruct (trimEnd s) as [|b t] eqn:Ht.
    + change ("" +:+ ws) with ws in Hs. subst ws. destruct (is_space a) eqn:Ha.
      * exists (String a s). split; [done|].
        intros [|x u] c v Heq.
        -- change ("" +:+ String c v) with (String c v) in Heq. by simplify_eq.
        -- rewrite str_app_cons in Heq. simplify_eq. by eapply Hws.
      * exists s. split; [done|]. done.
    + exists ws. split; [|done]. by rewrite str_app_cons, <-Hs.
Qed.

(** A character that is not white space and lies in [t +:+ ws], with [ws]
    white space only, lies in [t]. *)
Lemma split_before_spaces u : ∀ t ws c post,
  (∀ u' c' v, ws = u' +:+ String c' v → is_space c' = true) →
  is_space c = false →
  t +:+ ws = u +:+ String c post →
  ∃ post', t = u +:+ String c post'.
Proof.
  induction u as [|a u IH]; intros t ws c post Hws Hc Heq.
  - rewrite str_app_nil_l in Heq. destruct t as [|b t].
    + rewrite str_app_nil_l in Heq. specialize (Hws "" c post Heq). congruence.
    + rewrite str_app_cons in Heq. simplify_eq. by exists t.
  - rewrite str_app_cons in Heq. destruct t as [|b t].
    + rewrite str_app_nil_l in Heq.
      specialize (Hws (String a u) c post Heq). congruence.
    + rewrite str_app_cons in Heq. injection Heq as -> Heq.
      destruct (IH _ _ _ _ Hws Hc Heq) as [post' ->]. by exists post'.
Qed.

Lemma occurs_in_trimEnd k c s :
  is_space c = false →
  occurs_in (k +:+ String c "") (trimEnd s) ↔ occurs_in (k +:+ String c "") s.
Proof.
  intros Hc. destruct (trimEnd_spec s) as (ws & Hs & Hws). split.
  - intros (pre & post & Heq). rewrite Hs, Heq.
    exists pre, (post +:+ ws). by rewrite !str_app_assoc.
  - intros (pre & post & Heq).
    assert (trimEnd s +:+ ws = (pre +:+ k) +:+ String c post) as Hs'.
    { rewrite <-Hs, Heq. by rewrite !str_app_assoc. }
    destruct (split_before_spaces _ _ _ _ _ Hws Hc Hs') as [post' Ht].
    rewrite Ht. exists pre, post'. by rewrite !str_app_assoc.
Qed.

(** Trimming changes nothing for a keyword that neither begins nor ends
    with white space. *)
Lemma includes_trim s c k c' :
  is_space c = false → is_space c' = false →
  (∃ k0, String c k = k0 +:+ String c' "") →
  includes (trim s) (String c k) = includes s (String c k).
Proof.
  intros Hc Hc' [k0 Hk]. apply eq_true_iff_eq.
  rewrite !includes_spec. unfold trim.
  rewrite Hk, occurs_in_trimEnd, <-Hk by done. by apply occurs_in_trimStart.
Qed.

Lemma firstMatch_trim s :
  firstMatch (trim s) keywordMap = firstMatch s keywordMap.
Proof.
  unfold keywordMap, firstMatch.
  rewrite (includes_trim s _ _ "m") by (try done; by exists "washroo").
  rewrite (includes_trim s _ _ "m") by (try done; by exists "wash roo").
  rewrite (includes_trim s _ _ "m") by (try done; by exists "bathroo").
  rewrite (includes_trim s _ _ "m") by (try done; by exists "bath roo").
  rewrite (includes_trim s _ _ "m") by (try done; by exists "restroo").
  rewrite (includes_trim s _ _ "r") by (try done; by exists "elevato").
  rewrite (includes_trim s _ _ "l") by (try done; by exists "main hal").
  rewrite (includes_trim s _ _ "l") by (try done; by exists "mainhal").
  rewrite (includes_trim s _ _ "r") by (try done; by exists "exit doo").
  rewrite (includes_trim s _ _ "r") by (try done; by exists "exitdoo").
  rewrite (includes_trim s _ _ "t") by (try done; by exists "exi").
  done.
Qed.

(** Every destination the table can yield. *)
Lemma firstMatch_in_table t table d :
  firstMatch t table = Some d → d ∈ table.*2.
Proof.
  induction table as [|[kw d'] table IH]; simpl; [done|].
  destruct (includes t kw).
  - intros [= ->]. apply list_elem_of_here.
  - intros ?%IH. by apply list_elem_of_further.
Qed.

Lemma lower_idemp c : lower (lower c) = lower c.
Proof. by destruct c as [[] [] [] [] [] [] [] []]. Qed.

Lemma toLowerCase_idemp s : toLowerCase (toLowerCase s) = toLowerCase s.
Proof. induction s as [|c s IH]; simpl; [done|]. by rewrite lower_idemp, IH. Qed.

End VoiceProofs.

(** C9. For every utterance, the destination the voice handler of the
    integrated component matches is that of the first entry of the keyword
    table, in its order, whose keyword occurs in the lower-cased utterance,
    and none when no keyword occurs; the handler then changes the
    destination exactly when the match differs from the current one.
    "please take me to the bathroom" matches [washroom]. *)
Theorem voice_first_keyword_wins rawTranscript :
  match Voice.matchedDestination rawTranscript with
  | Some d =>
      ∃ i kw, Voice.keywordMap !! i = Some (kw, d) ∧
        VoiceProofs.occurs_in kw (Voice.toLowerCase rawTranscript) ∧
        ∀ j kw' d', j < i → Voice.keywordMap !! j = Some (kw', d') →
                    ¬ VoiceProofs.occurs_in kw' (Voice.toLowerCase rawTranscript)
  | None =>
      ∀ kw d, (kw, d) ∈ Voice.keywordMap →
              ¬ VoiceProofs.occurs_in kw (Voice.toLowerCase rawTranscript)
  end ∧
  (∀ destination d,
     (∃ status spoken, Voice.onresult rawTranscript destination = Some (d, status, spoken))
     ↔ Voice.matchedDestination rawTranscript = Some d ∧ d ≠ destination) ∧
  Voice.matchedDestination "please take me to the bathroom" = Some "washroom".
Proof.
  split_and!.
  - apply VoiceProofs.firstMatch_spec.
  - intros destination d. unfold Voice.onresult.
    destruct (Voice.matchedDestination rawTranscript) as [d'|] eqn:Hm.
    + assert (d' ≠ "") as Hne.
      { apply VoiceProofs.firstMatch_in_table in Hm.
        intros ->. vm_compute in Hm. set_solver. }
      rewrite (bool_decide_eq_true_2 (d' ≠ "")) by done. simpl.
      case_bool_decide as Hd; split.
      * intros (? & ? & [= <- ? ?]). done.
      * intros [[= ->] _]. eauto.
      * by intros (? & ? & ?).
      * intros [[= ->] ?]. done.
    + split; [by intros (? & ? & ?)|by intros [? _]].
  - by vm_compute.
Qed.

(** * Further properties of the code *)

(** ** The planner *)

(** All landmarks of a walk but the first are targets of edges. *)
Lemma chain_targets edges (p : list string) (x : string) :
  chain (edge edges) (x :: p) → ∀ y, y ∈ p → y ∈ targets edges.
Proof.
  revert x. induction p as [|a p IH]; intros x Hc y Hy.
  - by apply elem_of_nil in Hy.
  - destruct Hc as [(e & He & <-) Hc].
    apply elem_of_cons in Hy as [->|Hy]; [|by eapply IH].
    by eapply PlannerProofs.out_edges_targets.
Qed.

(** X1. A path returned by [bfsPath] is not empty, visits no landmark twice,
    consists of the start and of targets of edges only, and so has at most
    one landmark more than there are edge targets in the table. *)
Theorem bfsPath_simple edges start goal p :
  Planner.bfsPath edges start goal = Some p →
  p ≠ [] ∧ NoDup p ∧
  (∀ x, x ∈ p → x = start ∨ x ∈ targets edges) ∧
  length p ≤ S (size (targets edges)).
Proof.
  intros ((Hh & Hl & Hc) & Hnd & _)%PlannerProofs.bfsPath_Some.
  destruct p as [|x p]; [done|]. injection Hh as ->.
  assert (∀ y, y ∈ start :: p → y = start ∨ y ∈ targets edges) as Hin.
  { intros y [->|Hy]%elem_of_cons; [by left|right]. by eapply chain_targets. }
  split_and!; [done|done|done|].
  rewrite <-(size_list_to_set (C:=gset string) (start :: p)) by done.
  etrans; [apply (subseteq_size _ ({[start]} ∪ targets edges))|].
  - intros y Hy%elem_of_list_to_set. apply Hin in Hy. set_solver.
  - rewrite size_union_alt, size_singleton.
    pose proof (subseteq_size (targets edges ∖ {[start]}) (targets edges)) as Hs.
    apply le_n_S, Hs. set_solver.
Qed.

Lemma bfsPath_simple_witness :
  ["two"; "washroom"; "caution"; "door"] ≠ [] ∧
  NoDup ["two"; "washroom"; "caution"; "door"] ∧
  (∀ x, x ∈ ["two"; "washroom"; "caution"; "door"] →
        x = "two" ∨ x ∈ targets NavigationTables.edges) ∧
  length ["two"; "washroom"; "caution"; "door"] ≤ S (size (targets NavigationTables.edges)).
Proof.
  apply (bfsPath_simple NavigationTables.edges "two" "door"). by vm_compute.
Defined.

Lemma chain_app_inv (R : relation string) l1 l2 :
  chain R (l1 ++ l2) → chain R l1 ∧ chain R l2.
Proof.
  induction l1 as [|a l1 IH]; [done|].
  rewrite <-app_comm_cons, !chain_cons. intros [Hh Hc].
  destruct (IH Hc) as [H1 H2]. split_and!; [|done|done].
  intros y Hy. apply Hh. by destruct l1; simplify_eq/=.
Qed.

(** X2. Optimal substructure of the planner: from any landmark [x] of a
    path that [bfsPath] returned, [bfsPath] finds a path to the same goal
    with exactly as many landmarks as the rest of that path from [x] on;
    planning again on the way never lengthens the trip. *)
Theorem bfsPath_from_the_way edges start goal l1 x l2 :
  Planner.bfsPath edges start goal = Some (l1 ++ x :: l2) →
  ∃ q, Planner.bfsPath edges x goal = Some q ∧ length q = S (length l2).
Proof.
  intros ((Hh & Hl & Hc) & _ & Hmin)%PlannerProofs.bfsPath_Some.
  assert (chain (edge edges) (l1 ++ [x]) ∧ chain (edge edges) (x :: l2)) as [Hc1 Hc2].
  { split.
    - apply (chain_app_inv _ (l1 ++ [x]) l2). by rewrite <-app_assoc.
    - by apply (chain_app_inv _ l1). }
  assert (last (x :: l2) = Some goal) as Hl2.
  { rewrite <-Hl. by rewrite (last_app_cons l1). }
  assert (nsteps (edge edges) (length l1) start x) as Hn1.
  { replace (length l1) with (length (l1 ++ [x]) - 1)
      by (rewrite length_app; simpl; lia).
    apply chain_nsteps; [|by rewrite last_snoc|done].
    destruct l1; simplify_eq/=; done. }
  pose proof (chain_nsteps _ (x :: l2) x goal eq_refl Hl2 Hc2) as Hn2.
  simpl in Hn2. rewrite Nat.sub_0_r in Hn2.
  destruct (Planner.bfsPath edges x goal) as [q|] eqn:Hq.
  - exists q. split; [done|].
    apply PlannerProofs.bfsPath_Some in Hq as ((Hqh & Hql & Hqc) & _ & Hqmin).
    pose proof (Hqmin _ Hn2) as Hle.
    pose proof (chain_nsteps _ q x goal Hqh Hql Hqc) as Hn3.
    pose proof (Hmin _ (nsteps_trans _ _ _ _ _ Hn1 Hn3)) as Hge.
    rewrite length_app in Hge. simpl in Hge.
    destruct q; [done|]. simpl in *. lia.
  - apply PlannerProofs.bfsPath_None in Hq. destruct Hq.
    by eapply rtc_nsteps_2.
Qed.

Lemma bfsPath_from_the_way_witness :
  ∃ q, Planner.bfsPath NavigationTables.edges "washroom" "door" = Some q ∧
       length q = 3.
Proof.
  apply (bfsPath_from_the_way NavigationTables.edges "two" "door" ["two"]
           "washroom" ["caution"; "door"]).
  by vm_compute.
Defined.

(** ** Edge instructions *)

(** [Array.prototype.find]: the first element that passes the test. *)
Lemma find_first {A} (P : A → bool) (l : list A) :
  match List.find P l with
  | Some e => ∃ l1 l2, l = l1 ++ e :: l2 ∧ P e = true ∧ ∀ e', e' ∈ l1 → P e' = false
  | None => ∀ e, e ∈ l → P e = false
  end.
Proof.
  induction l as [|a l IH]; simpl.
  - intros e He. by apply elem_of_nil in He.
  - destruct (P a) eqn:Ha.
    + exists [], l. split_and!; [done|done|]. intros e' He'. by apply elem_of_nil in He'.
    + destruct (List.find P l) as [e|].
      * destruct IH as (l1 & l2 & -> & He & Hl1). exists (a :: l1), l2.
        split_and!; [done|done|]. intros e' [->|?]%elem_of_cons; auto.
      * intros e [->|?]%elem_of_cons; auto.
Qed.



(** ** What was said last *)

Lemma last_speech_app a b :
  last_speech (a ++ b) = match last_speech b with
                         | Some m => Some m
                         | None => last_speech a
                         end.
Proof.
  induction a as [|e a IH]; simpl; [by destruct (last_speech b)|].
  rewrite IH. by destruct (last_speech b).
Qed.

Section spoken.
Context (nodes : gmap string NodeData) (edges : gmap string (list Edge))
  (ACTIVE_NODES : gset string) (indexToNode : gmap nat string).

Ltac nav_cases :=
  unfold NavigationPage.handle, NavigationPage.onTargetFound,
    NavigationPage.onNodeConfirmed, NavigationPage.onRoute,
    NavigationPage.startRoutingFrom, NavigationPage.announceNextInstruction,
    NavigationPage.setDestinationHandler, NavigationPage.resetNav,
    NavigationPage.handleRepeat, NavigationPage.maybeGiveMovementPrompt,
    NavigationPage.speak_labelled, NavigationPage.speak, NavigationPage.after;
  repeat (simpl; case_match); simpl.

Ltac int_cases :=
  unfold IntegratedNavigation.handle, IntegratedNavigation.onTargetFound,
    IntegratedNavigation.onNodeConfirmed, IntegratedNavigation.onRoute,
    IntegratedNavigation.startRoutingFrom,
    IntegratedNavigation.bathroomArrivalMessage,
    IntegratedNavigation.announceNextInstruction,
    IntegratedNavigation.setDestinationHandler, IntegratedNavigation.resetNav,
    IntegratedNavigation.handleRepeat, IntegratedNavigation.maybeGiveMovementPrompt,
    IntegratedNavigation.finishArrival, IntegratedNavigation.with_text,
    IntegratedNavigation.speak, IntegratedNavigation.after;
  repeat (simpl; case_match); simpl.

Lemma nav_handle_spoken ev s :
  let r := NavigationPage.handle nodes edges ACTIVE_NODES indexToNode ev s in
  NavigationPage.lastSpoken r.1
    = default (NavigationPage.lastSpoken s) (last_speech r.2).
Proof. destruct ev; nav_cases; done. Qed.

Lemma int_handle_spoken ev s :
  let r := IntegratedNavigation.handle nodes edges ACTIVE_NODES indexToNode ev s in
  IntegratedNavigation.lastSpoken r.1
    = default (IntegratedNavigation.lastSpoken s) (last_speech r.2).
Proof. destruct ev; int_cases; done. Qed.

Lemma nav_run_spoken evs : ∀ s,
  let r := NavigationPage.run nodes edges ACTIVE_NODES indexToNode evs s in
  NavigationPage.lastSpoken r.1
    = default (NavigationPage.lastSpoken s) (last_speech r.2).
Proof.
  induction evs as [|ev evs IH]; intros s; [done|].
  simpl. rewrite IH, last_speech_app, nav_handle_spoken.
  by destruct (last_speech (NavigationPage.run _ _ _ _ evs _).2).
Qed.

Lemma int_run_spoken evs : ∀ s,
  let r := IntegratedNavigation.run nodes edges ACTIVE_NODES indexToNode evs s in
  IntegratedNavigation.lastSpoken r.1
    = default (IntegratedNavigation.lastSpoken s) (last_speech r.2).
Proof.
  induction evs as [|ev evs IH]; intros s; [done|].
  simpl. rewrite IH, last_speech_app, int_handle_spoken.
  by destruct (last_speech (IntegratedNavigation.run _ _ _ _ evs _).2).
Qed.

End spoken.

(** X4. In both components, after any sequence of events of a session
    [lastSpoken] holds the sentence of the most recent [speak] (the empty
    string before the first one), whatever handler spoke it; so the repeat
    action speaks that sentence again, interrupting, and does nothing when
    nothing (or an empty sentence) was spoken. *)
Theorem repeat_says_last_sentence nodes edges ACTIVE_NODES indexToNode destination :
  (∀ evs,
     let r := NavigationPage.run nodes edges ACTIVE_NODES indexToNode evs
                (NavigationPage.initial destination) in
     NavigationPage.lastSpoken r.1 = default "" (last_speech r.2) ∧
     (NavigationPage.handleRepeat r.1).2
       = match last_speech r.2 with
         | Some m => if bool_decide (m ≠ "") then [Speak m true] else []
         | None => []
         end) ∧
  (∀ evs,
     let r := IntegratedNavigation.run nodes edges ACTIVE_NODES indexToNode evs
                (IntegratedNavigation.initial destination) in
     IntegratedNavigation.lastSpoken r.1 = default "" (last_speech r.2) ∧
     (IntegratedNavigation.handleRepeat r.1).2
       = match last_speech r.2 with
         | Some m => if bool_decide (m ≠ "") then [Speak m true] else []
         | None => []
         end).
Proof.
  split; intros evs r.
  - pose proof (nav_run_spoken nodes edges ACTIVE_NODES indexToNode evs
                  (NavigationPage.initial destination)) as H.
    fold r in H. simpl in H. split; [done|].
    unfold NavigationPage.handleRepeat. rewrite H.
    destruct (last_speech r.2) as [m|]; simpl; [|done].
    by case_bool_decide.
  - pose proof (int_run_spoken nodes edges ACTIVE_NODES indexToNode evs
                  (IntegratedNavigation.initial destination)) as H.
    fold r in H. simpl in H. split; [done|].
    unfold IntegratedNavigation.handleRepeat. rewrite H.
    destruct (last_speech r.2) as [m|]; simpl; [|done].
    by case_bool_decide.
Qed.

(** ** The idle prompt *)

Section idle.
Context (nodes : gmap string NodeData) (edges : gmap string (list Edge))
  (ACTIVE_NODES : gset string) (indexToNode : gmap nat string).

Lemma nav_tick s now :
  let r := NavigationPage.maybeGiveMovementPrompt now s in
  (r = (s, []) ∨
   (NavigationPage.unrouted s = false ∧ NavigationPage.segmentPrompted s = false ∧
    (4500 ≤ now - NavigationPage.lastConfirmedAt s)%Z ∧
    r.2 = [Speak "Keep moving forward carefully." false] ∧
    NavigationPage.segmentPrompted r.1 = true)) ∧
  NavigationPage.destinationNode r.1 = NavigationPage.destinationNode s ∧
  NavigationPage.currentNode r.1 = NavigationPage.currentNode s ∧
  NavigationPage.path r.1 = NavigationPage.path s ∧
  NavigationPage.pathStep r.1 = NavigationPage.pathStep s ∧
  NavigationPage.lastConfirmedAt r.1 = NavigationPage.lastConfirmedAt s ∧
  (NavigationPage.segmentPrompted s = true → r = (s, [])) ∧
  (NavigationPage.unrouted s = true → r = (s, [])).
Proof.
  unfold NavigationPage.maybeGiveMovementPrompt, NavigationPage.unrouted,
    NavigationPage.movementPromptDelayMs.
  destruct (truthy _), (bool_decide (is_Some _)), (NavigationPage.segmentPrompted s) eqn:Hp;
    simpl; try (split_and!; by auto).
  case_decide; simpl; [split_and!; by auto|].
  split_and!; try done. right. split_and!; try done. lia.
Qed.

Lemma nav_ticks ticks : ∀ s,
  let r := NavigationPage.run nodes edges ACTIVE_NODES indexToNode
             (NavigationPage.MovementTick <$> ticks) s in
  length r.2 ≤ 1 ∧
  (∀ e, e ∈ r.2 → e = Speak "Keep moving forward carefully." false) ∧
  NavigationPage.destinationNode r.1 = NavigationPage.destinationNode s ∧
  NavigationPage.currentNode r.1 = NavigationPage.currentNode s ∧
  NavigationPage.path r.1 = NavigationPage.path s ∧
  NavigationPage.pathStep r.1 = NavigationPage.pathStep s ∧
  NavigationPage.lastConfirmedAt r.1 = NavigationPage.lastConfirmedAt s ∧
  (NavigationPage.segmentPrompted s = true → r = (s, [])) ∧
  (NavigationPage.unrouted s = true → r = (s, [])).
Proof.
  induction ticks as [|now ticks IH]; intros s; cbv zeta.
  { simpl. split_and!; try done; [lia|]. intros e He. by apply elem_of_nil in He. }
  cbn [fmap list_fmap NavigationPage.run NavigationPage.handle].
  pose proof (nav_tick s now) as (Hcase & Hd & Hc & Hp & Hs & Hl & Hsp & Hun).
  set (r1 := NavigationPage.maybeGiveMovementPrompt now s) in *.
  pose proof (IH r1.1) as IH'. cbv zeta in IH'.
  destruct IH' as (IHlen & IHe & IHd & IHc & IHp & IHs & IHl & IHsp & IHun).
  unfold NavigationPage.after. cbn [fst snd].
  assert (NavigationPage.unrouted r1.1 = NavigationPage.unrouted s) as Hun'.
  { unfold NavigationPage.unrouted. by rewrite Hc, Hp. }
  split_and!.
  - destruct Hcase as [->|(_ & _ & _ & -> & Hsp1)]; [done|].
    rewrite (IHsp Hsp1). simpl. lia.
  - intros e [He|He]%elem_of_app; [|by apply IHe].
    destruct Hcase as [Heq|(_ & _ & _ & Heq & _)]; rewrite Heq in He.
    + by apply elem_of_nil in He.
    + by apply list_elem_of_singleton in He.
  - by rewrite IHd.
  - by rewrite IHc.
  - by rewrite IHp.
  - by rewrite IHs.
  - by rewrite IHl.
  - intros Ht. specialize (Hsp Ht). rewrite Hsp in *. simpl in *. by rewrite (IHsp Ht).
  - intros Hu. specialize (Hun Hu). rewrite Hun in *. simpl in *. by rewrite (IHun Hu).
Qed.

Lemma int_tick s now speaking :
  let r := IntegratedNavigation.maybeGiveMovementPrompt now speaking s in
  (r = (s, []) ∨
   (IntegratedNavigation.arrived s = false ∧
    IntegratedNavigation.unrouted s = false ∧
    IntegratedNavigation.segmentPrompted s = false ∧ speaking = false ∧
    (4500 ≤ now - IntegratedNavigation.lastConfirmedAt s)%Z ∧
    r.2 = [Speak "Keep moving forward with caution." false] ∧
    IntegratedNavigation.segmentPrompted r.1 = true)) ∧
  IntegratedNavigation.destinationNode r.1 = IntegratedNavigation.destinationNode s ∧
  IntegratedNavigation.currentNode r.1 = IntegratedNavigation.currentNode s ∧
  IntegratedNavigation.path r.1 = IntegratedNavigation.path s ∧
  IntegratedNavigation.pathStep r.1 = IntegratedNavigation.pathStep s ∧
  IntegratedNavigation.arrived r.1 = IntegratedNavigation.arrived s ∧
  IntegratedNavigation.lastConfirmedAt r.1 = IntegratedNavigation.lastConfirmedAt s ∧
  (IntegratedNavigation.segmentPrompted s = true → r = (s, [])) ∧
  (IntegratedNavigation.unrouted s = true → r = (s, [])) ∧
  (IntegratedNavigation.arrived s = true → r = (s, [])).
Proof.
  unfold IntegratedNavigation.maybeGiveMovementPrompt, IntegratedNavigation.unrouted,
    IntegratedNavigation.movementPromptDelayMs.
  destruct (IntegratedNavigation.arrived s) eqn:Ha, (truthy _),
    (bool_decide (is_Some _)), (IntegratedNavigation.segmentPrompted s) eqn:Hp;
    simpl; try (split_and!; by auto).
  case_decide; simpl; [split_and!; by auto|].
  destruct speaking; simpl; [split_and!; by auto|].
  split_and!; try done. right. split_and!; try done. lia.
Qed.

Lemma int_ticks ticks : ∀ s,
  let r := IntegratedNavigation.run nodes edges ACTIVE_NODES indexToNode
             ((λ t, IntegratedNavigation.MovementTick t.1 t.2) <$> ticks) s in
  length r.2 ≤ 1 ∧
  (∀ e, e ∈ r.2 → e = Speak "Keep moving forward with caution." false) ∧
  IntegratedNavigation.destinationNode r.1 = IntegratedNavigation.destinationNode s ∧
  IntegratedNavigation.currentNode r.1 = IntegratedNavigation.currentNode s ∧
  IntegratedNavigation.path r.1 = IntegratedNavigation.path s ∧
  IntegratedNavigation.pathStep r.1 = IntegratedNavigation.pathStep s ∧
  IntegratedNavigation.arrived r.1 = IntegratedNavigation.arrived s ∧
  IntegratedNavigation.lastConfirmedAt r.1 = IntegratedNavigation.lastConfirmedAt s ∧
  (IntegratedNavigation.segmentPrompted s = true → r = (s, [])) ∧
  (IntegratedNavigation.unrouted s = true → r = (s, [])) ∧
  (IntegratedNavigation.arrived s = true → r = (s, [])).
Proof.
  induction ticks as [|[now speaking] ticks IH]; intros s; cbv zeta.
  { simpl. split_and!; try done; [lia|]. intros e He. by apply elem_of_nil in He. }
  cbn [fmap list_fmap IntegratedNavigation.run IntegratedNavigation.handle fst snd].
  pose proof (int_tick s now speaking)
    as (Hcase & Hd & Hc & Hp & Hs & Ha & Hl & Hsp & Hun & Har).
  set (r1 := IntegratedNavigation.maybeGiveMovementPrompt now speaking s) in *.
  pose proof (IH r1.1) as IH'. cbv zeta in IH'.
  destruct IH' as (IHlen & IHe & IHd & IHc & IHp & IHs & IHa & IHl & IHsp & IHun & IHar).
  unfold IntegratedNavigation.after. cbn [fst snd].
  split_and!.
  - destruct Hcase as [->|(_ & _ & _ & _ & _ & -> & Hsp1)]; [done|].
    rewrite (IHsp Hsp1). simpl. lia.
  - intros e [He|He]%elem_of_app; [|by apply IHe].
    destruct Hcase as [Heq|(_ & _ & _ & _ & _ & Heq & _)]; rewrite Heq in He.
    + by apply elem_of_nil in He.
    + by apply list_elem_of_singleton in He.
  - by rewrite IHd.
  - by rewrite IHc.
  - by rewrite IHp.
  - by rewrite IHs.
  - by rewrite IHa.
  - by rewrite IHl.
  - intros Ht. specialize (Hsp Ht). rewrite Hsp in *. simpl in *. by rewrite (IHsp Ht).
  - intros Hu. specialize (Hun Hu). rewrite Hun in *. simpl in *. by rewrite (IHun Hu).
  - intros Hu. specialize (Har Hu). rewrite Har in *. simpl in *. by rewrite (IHar Hu).
Qed.

End idle.

(** X5. [maybeGiveMovementPrompt], however often its interval fires with no
    other event in between: it speaks at most once, only the component's
    idle sentence without interrupting, never touches the destination, the
    current landmark, the route, its index or the confirmation time, and
    does nothing at all when the segment was already prompted, when no
    route is followed, when every tick comes sooner than 4500 ms after the
    last confirmation, or (integrated component) after arrival or while
    the synthesiser speaks. *)
Theorem movement_prompt_once nodes edges ACTIVE_NODES indexToNode :
  (∀ ticks s,
     let r := NavigationPage.run nodes edges ACTIVE_NODES indexToNode
                (NavigationPage.MovementTick <$> ticks) s in
     length r.2 ≤ 1 ∧
     (∀ e, e ∈ r.2 → e = Speak "Keep moving forward carefully." false) ∧
     NavigationPage.destinationNode r.1 = NavigationPage.destinationNode s ∧
     NavigationPage.currentNode r.1 = NavigationPage.currentNode s ∧
     NavigationPage.path r.1 = NavigationPage.path s ∧
     NavigationPage.pathStep r.1 = NavigationPage.pathStep s ∧
     NavigationPage.lastConfirmedAt r.1 = NavigationPage.lastConfirmedAt s ∧
     (NavigationPage.segmentPrompted s = true → r = (s, [])) ∧
     (NavigationPage.unrouted s = true → r = (s, [])) ∧
     ((∀ t, t ∈ ticks → (t - NavigationPage.lastConfirmedAt s < 4500)%Z) →
      r = (s, []))) ∧
  (∀ ticks s,
     let r := IntegratedNavigation.run nodes edges ACTIVE_NODES indexToNode
                ((λ t, IntegratedNavigation.MovementTick t.1 t.2) <$> ticks) s in
     length r.2 ≤ 1 ∧
     (∀ e, e ∈ r.2 → e = Speak "Keep moving forward with caution." false) ∧
     IntegratedNavigation.destinationNode r.1 = IntegratedNavigation.destinationNode s ∧
     IntegratedNavigation.currentNode r.1 = IntegratedNavigation.currentNode s ∧
     IntegratedNavigation.path r.1 = IntegratedNavigation.path s ∧
     IntegratedNavigation.pathStep r.1 = IntegratedNavigation.pathStep s ∧
     IntegratedNavigation.arrived r.1 = IntegratedNavigation.arrived s ∧
     IntegratedNavigation.lastConfirmedAt r.1 = IntegratedNavigation.lastConfirmedAt s ∧
     (IntegratedNavigation.segmentPrompted s = true → r = (s, [])) ∧
     (IntegratedNavigation.unrouted s = true → r = (s, [])) ∧
     (IntegratedNavigation.arrived s = true → r = (s, [])) ∧
     ((∀ t, t ∈ ticks →
         (t.1 - IntegratedNavigation.lastConfirmedAt s < 4500)%Z ∨ t.2 = true) →
      r = (s, []))).
Proof.
  split; intros ticks s r.
  - pose proof (nav_ticks nodes edges ACTIVE_NODES indexToNode ticks s) as H.
    fold r in H. cbv zeta in H. split_and!; try apply H.
    subst r. clear H. induction ticks as [|t ticks IH]; intros Hearly; [done|].
    cbn [fmap list_fmap NavigationPage.run NavigationPage.handle].
    destruct (nav_tick s t) as ([Heq|(_ & _ & Hlate & _)] & _).
    + rewrite Heq. unfold NavigationPage.after. cbn [fst snd].
      rewrite IH; [done|]. intros t' Ht'. apply Hearly. by right.
    + specialize (Hearly t (list_elem_of_here _ _)). lia.
  - pose proof (int_ticks nodes edges ACTIVE_NODES indexToNode ticks s) as H.
    fold r in H. cbv zeta in H. split_and!; try apply H.
    subst r. clear H. induction ticks as [|[t sp] ticks IH]; intros Hearly; [done|].
    cbn [fmap list_fmap IntegratedNavigation.run IntegratedNavigation.handle fst snd].
    destruct (int_tick s t sp) as ([Heq|(_ & _ & _ & Hsp & Hlate & _)] & _).
    + rewrite Heq. unfold IntegratedNavigation.after. cbn [fst snd].
      rewrite IH; [done|]. intros t' Ht'. apply Hearly. by right.
    + destruct (Hearly (t, sp) (list_elem_of_here _ _)) as [Hlt|Hs]; simpl in *;
        [lia|congruence].
Qed.

(** ** Walking the planned route *)

Lemma drop_S_cons {A} (l : list A) i x q :
  drop i l = x :: q → l !! i = Some x ∧ drop (S i) l = q.
Proof.
  revert i. induction l as [|a l IH]; intros [|i]; simpl; try done.
  - by intros [= -> ->].
  - intros H. by apply IH in H.
Qed.

Lemma drop_nil_length {A} (l : list A) i : drop i l = [] → length l ≤ i.
Proof.
  intros H. pose proof (length_drop l i) as Hl. rewrite H in Hl. simpl in Hl. lia.
Qed.

Lemma at_index_nat {A} (l : list A) (i : nat) : at_index l (Z.of_nat i) = l !! i.
Proof. unfold at_index. rewrite decide_True by lia. by rewrite Nat2Z.id. Qed.

Section walk.
Context (nodes : gmap string NodeData) (edges : gmap string (list Edge))
  (ACTIVE_NODES : gset string) (indexToNode : gmap nat string).

(** One step forward of [NavigationPage]: the expected next landmark. *)
Lemma nav_advance s c p x now now' :
  x ∈ ACTIVE_NODES → NavigationPage.currentNode s = Some c → c ≠ "" →
  NavigationPage.path s = Some p →
  at_index p (NavigationPage.pathStep s + 1) = Some x →
  let r := NavigationPage.onNodeConfirmed nodes edges ACTIVE_NODES x now now' s in
  NavigationPage.currentNode r.1 = Some x ∧
  NavigationPage.path r.1 = Some p ∧
  NavigationPage.pathStep r.1 = (NavigationPage.pathStep s + 1)%Z ∧
  NavigationPage.destinationNode r.1 = NavigationPage.destinationNode s ∧
  r.2 = [CancelSpeech; Beep; Vibrate;
         Speak (if decide (Z.of_nat (length p) - 1 ≤ NavigationPage.pathStep s + 1)%Z
                then "You have arrived."
                else NavigationPage.getEdgeInstruction edges (Some x)
                       (at_index p (NavigationPage.pathStep s + 1 + 1))) true].
Proof.
  intros Ha Hc Hne Hp Hat.
  pose proof Hat as [H0 Hl%lookup_lt_Some]%at_index_Some.
  unfold NavigationPage.onNodeConfirmed. rewrite decide_True by done.
  simpl. rewrite Hc, Hp, bool_decide_eq_true_2 by done.
  unfold NavigationPage.onRoute. simpl.
  rewrite !bool_decide_eq_true_2 by (done || lia). simpl.
  unfold NavigationPage.announceNextInstruction. simpl. rewrite Hp.
  case_decide; simpl; [done|]. by rewrite Hat.
Qed.

Lemma nav_walk_run confs : ∀ s p,
  NavigationPageProofs.consistent edges ACTIVE_NODES s → "" ∉ ACTIVE_NODES →
  NavigationPage.path s = Some p →
  confs.*1 = drop (S (Z.to_nat (NavigationPage.pathStep s))) p →
  (∀ x, x ∈ confs.*1 → x ∈ ACTIVE_NODES) →
  let r := NavigationPage.run nodes edges ACTIVE_NODES indexToNode
             (nav_confirm <$> confs) s in
  NavigationPageProofs.consistent edges ACTIVE_NODES r.1 ∧
  NavigationPage.path r.1 = Some p ∧
  NavigationPage.pathStep r.1
    = (NavigationPage.pathStep s + Z.of_nat (length confs))%Z ∧
  NavigationPage.destinationNode r.1 = NavigationPage.destinationNode s ∧
  r.2 = nav_walk edges confs.*1.
Proof.
  induction confs as [|[x [now now']] confs IH]; intros s p Hs Hne Hp Hd Hact; cbv zeta.
  { simpl. split_and!; try done. lia. }
  destruct (NavigationPageProofs.cons_route _ _ _ Hs p Hp) as (Hrange & Hat & _).
  destruct (NavigationPage.currentNode s) as [c|] eqn:Hc;
    [|unfold at_index in Hat; rewrite decide_True in Hat by lia;
      apply lookup_ge_None in Hat; lia].
  pose proof (NavigationPageProofs.cons_active _ _ _ Hs c Hc) as Hcact.
  assert (c ≠ "") as Hcne by (by intros ->).
  symmetry in Hd. cbn [fmap list_fmap fst] in Hd.
  apply drop_S_cons in Hd as [Hx Hd].
  assert (at_index p (NavigationPage.pathStep s + 1) = Some x) as Hnext.
  { apply at_index_Some. split; [lia|].
    by replace (Z.to_nat (NavigationPage.pathStep s + 1))
         with (S (Z.to_nat (NavigationPage.pathStep s))) by lia. }
  assert (x ∈ ACTIVE_NODES) as Hxact by (apply Hact; by left).
  pose proof (nav_advance s c p x now now' Hxact Hc Hcne Hp Hnext)
    as (Hc1 & Hp1 & Hs1 & Hd1 & He1).
  pose proof (NavigationPageProofs.consistent_onNodeConfirmed nodes edges
                ACTIVE_NODES s x now now' Hs) as Hcons1.
  cbn [fmap list_fmap NavigationPage.run NavigationPage.handle nav_confirm fst snd].
  set (r1 := NavigationPage.onNodeConfirmed nodes edges ACTIVE_NODES x now now' s) in *.
  cbv zeta in *.
  destruct (IH r1.1 p Hcons1 Hne Hp1) as (IH1 & IH2 & IH3 & IH4 & IH5).
  { rewrite Hs1, <-Hd. f_equal. lia. }
  { intros y Hy. apply Hact. by right. }
  unfold NavigationPage.after. cbn [fst snd].
  split_and!; [done|done| |congruence|].
  - rewrite IH3, Hs1. cbn [length]. lia.
  - rewrite IH5, He1. cbn [nav_walk fmap list_fmap fst]. f_equal.
    do 3 f_equal. destruct confs as [|[y ?] confs]; cbn [fmap list_fmap fst] in *.
    + apply drop_nil_length in Hd. rewrite decide_True by lia. done.
    + apply drop_S_cons in Hd as [Hy _].
      pose proof (lookup_lt_Some _ _ _ Hy).
      rewrite decide_False by lia.
      assert (at_index p (NavigationPage.pathStep s + 1 + 1) = Some y) as ->; [|done].
      apply at_index_Some. split; [lia|].
      by replace (Z.to_nat (NavigationPage.pathStep s + 1 + 1))
           with (S (S (Z.to_nat (NavigationPage.pathStep s)))) by lia.
Qed.

(** One step forward of [IntegratedNavigation] to a landmark before the
    end of the route. *)
Lemma int_advance s c p x y l now now' :
  IntegratedNavigationProofs.coherent edges ACTIVE_NODES s →
  x ∈ ACTIVE_NODES → x ≠ "" →
  IntegratedNavigation.currentNode s = Some c → c ≠ "" →
  IntegratedNavigation.path s = Some p →
  at_index p (IntegratedNavigation.pathStep s + 1) = Some x →
  at_index p (IntegratedNavigation.pathStep s + 1 + 1) = Some y →
  label_of nodes x = Some l →
  let r := IntegratedNavigation.onNodeConfirmed nodes edges ACTIVE_NODES x now now' s in
  IntegratedNavigation.currentNode r.1 = Some x ∧
  IntegratedNavigation.path r.1 = Some p ∧
  IntegratedNavigation.pathStep r.1 = (IntegratedNavigation.pathStep s + 1)%Z ∧
  IntegratedNavigation.destinationNode r.1 = IntegratedNavigation.destinationNode s ∧
  r.2 = [Beep; Vibrate;
         Speak ("You are at " +:+ l +:+ ". " +:+
                IntegratedNavigation.getEdgeInstruction edges (Some x) (Some y)) true].
Proof.
  intros Hs Ha Hxne Hc Hne Hp Hat Hat2 Hl.
  destruct (IntegratedNavigationProofs.coh_route _ _ _ Hs p Hp)
    as (Hrange & _ & Hnd & Hlast & _).
  assert (IntegratedNavigation.arrived s = false) as Harr.
  { destruct (IntegratedNavigation.arrived s) eqn:Harr; [|done].
    apply (IntegratedNavigationProofs.coh_arrived _ _ _ Hs) in Harr. congruence. }
  pose proof Hat as [H0 Hx]%at_index_Some.
  pose proof Hat2 as [_ Hy]%at_index_Some.
  pose proof (lookup_lt_Some _ _ _ Hy) as Hlen.
  assert (x ≠ IntegratedNavigation.destinationNode s) as Hnd'.
  { intros ->. rewrite last_lookup in Hlast.
    pose proof (NoDup_lookup _ _ _ _ Hnd Hx Hlast). lia. }
  unfold IntegratedNavigation.onNodeConfirmed. rewrite decide_True, Harr by done.
  simpl. rewrite Hc, Hp, bool_decide_eq_true_2 by done.
  unfold IntegratedNavigation.onRoute. simpl.
  rewrite !bool_decide_eq_true_2 by (done || lia). simpl.
  assert (bool_decide (IntegratedNavigation.destinationNode s = "washroom")
          && bool_decide (x = "washroom") = false) as ->.
  { apply andb_false_iff.
    destruct (decide (x = "washroom")) as [->|];
      [left|right]; by apply bool_decide_eq_false. }
  unfold IntegratedNavigation.announceNextInstruction. simpl. rewrite Hp.
  rewrite bool_decide_eq_true_2 by done. simpl.
  rewrite decide_False by lia. rewrite Hat, Hat2. simpl. rewrite Hl. simpl.
  done.
Qed.

(** The step of [IntegratedNavigation] onto the last landmark of the route. *)
Lemma int_arrive s c p x l now now' :
  IntegratedNavigationProofs.coherent edges ACTIVE_NODES s →
  x ∈ ACTIVE_NODES → x ≠ "" →
  IntegratedNavigation.currentNode s = Some c → c ≠ "" →
  IntegratedNavigation.path s = Some p →
  at_index p (IntegratedNavigation.pathStep s + 1) = Some x →
  (Z.of_nat (length p) - 1 ≤ IntegratedNavigation.pathStep s + 1)%Z →
  label_of nodes x = Some l →
  let r := IntegratedNavigation.onNodeConfirmed nodes edges ACTIVE_NODES x now now' s in
  x = IntegratedNavigation.destinationNode s ∧
  IntegratedNavigation.currentNode r.1 = Some x ∧
  IntegratedNavigation.lastNode r.1 = Some c ∧
  IntegratedNavigation.path r.1 = None ∧
  IntegratedNavigation.pathStep r.1 = 0%Z ∧
  IntegratedNavigation.arrived r.1 = true ∧
  IntegratedNavigation.segmentPrompted r.1 = true ∧
  IntegratedNavigation.destinationNode r.1 = IntegratedNavigation.destinationNode s ∧
  r.2 = [Beep; Vibrate;
         Speak ((if bool_decide (x = "washroom") then
                   "You are at " +:+ l +:+ ". " +:+
                   (if decide (c = "elevator") then "Go left." else "Go right.") +:+
                   " The door is in front of you. Walk with caution and open the door to enter."
                 else "You have arrived at " +:+ l +:+ ".")
                +:+ " Choose next destination.") true].
Proof.
  intros Hs Ha Hxne Hc Hne Hp Hat Hend Hl.
  destruct (IntegratedNavigationProofs.coh_route _ _ _ Hs p Hp)
    as (Hrange & _ & Hnd & Hlast & _).
  assert (IntegratedNavigation.arrived s = false) as Harr.
  { destruct (IntegratedNavigation.arrived s) eqn:Harr; [|done].
    apply (IntegratedNavigationProofs.coh_arrived _ _ _ Hs) in Harr. congruence. }
  pose proof Hat as [H0 Hx]%at_index_Some.
  pose proof (lookup_lt_Some _ _ _ Hx) as Hlen.
  assert (x = IntegratedNavigation.destinationNode s) as Hxd.
  { rewrite last_lookup in Hlast.
    replace (Z.to_nat (IntegratedNavigation.pathStep s + 1))
      with (pred (length p)) in Hx by lia. congruence. }
  split; [done|].
  unfold IntegratedNavigation.onNodeConfirmed. rewrite decide_True, Harr by done.
  simpl. rewrite Hc, Hp, bool_decide_eq_true_2 by done.
  unfold IntegratedNavigation.onRoute. simpl.
  rewrite !bool_decide_eq_true_2 by (done || lia). simpl.
  rewrite <-Hxd. destruct (decide (x = "washroom")) as [Hw|Hw].
  - rewrite !bool_decide_eq_true_2 by done. simpl.
    unfold IntegratedNavigation.bathroomArrivalMessage. simpl.
    rewrite <-Hw, Hl. simpl. split_and!; try done.
    do 4 f_equal. by destruct (decide (c = "elevator")) as [->|];
      [rewrite decide_True|rewrite decide_False by congruence].
  - rewrite !(bool_decide_eq_false_2 (x = "washroom")) by done. simpl.
    unfold IntegratedNavigation.announceNextInstruction. simpl. rewrite Hp.
    rewrite bool_decide_eq_true_2 by done. simpl.
    rewrite decide_True by lia. rewrite <-Hxd, Hl. simpl. by rewrite <-Hxd.
Qed.

Lemma int_walk_run confs : ∀ s p c,
  IntegratedNavigationProofs.coherent edges ACTIVE_NODES s → "" ∉ ACTIVE_NODES →
  IntegratedNavigation.path s = Some p →
  IntegratedNavigation.currentNode s = Some c →
  confs.*1 = drop (S (Z.to_nat (IntegratedNavigation.pathStep s))) p →
  (∀ x, x ∈ confs.*1 → x ∈ ACTIVE_NODES ∧ is_Some (label_of nodes x)) →
  let r := IntegratedNavigation.run nodes edges ACTIVE_NODES indexToNode
             (int_confirm <$> confs) s in
  IntegratedNavigation.destinationNode r.1 = IntegratedNavigation.destinationNode s ∧
  r.2 = int_walk nodes edges c confs.*1 ∧
  (confs ≠ [] →
   IntegratedNavigation.currentNode r.1 = Some (IntegratedNavigation.destinationNode s) ∧
   IntegratedNavigation.path r.1 = None ∧
   IntegratedNavigation.pathStep r.1 = 0%Z ∧
   IntegratedNavigation.arrived r.1 = true ∧
   IntegratedNavigation.segmentPrompted r.1 = true).
Proof.
  induction confs as [|[x [now now']] confs IH]; intros s p c Hs Hne Hp Hc Hd Hact;
    cbv zeta; [done|].
  destruct (IntegratedNavigationProofs.coh_route _ _ _ Hs p Hp) as (Hrange & _).
  pose proof (IntegratedNavigationProofs.coh_active _ _ _ Hs c Hc) as Hcact.
  assert (c ≠ "") as Hcne by (by intros ->).
  symmetry in Hd. cbn [fmap list_fmap fst] in Hd.
  apply drop_S_cons in Hd as [Hx Hd].
  assert (at_index p (IntegratedNavigation.pathStep s + 1) = Some x) as Hnext.
  { apply at_index_Some. split; [lia|].
    by replace (Z.to_nat (IntegratedNavigation.pathStep s + 1))
         with (S (Z.to_nat (IntegratedNavigation.pathStep s))) by lia. }
  destruct (Hact x) as [Hxact [l Hl]]; [by left|].
  assert (x ≠ "") as Hxne by (by intros ->).
  pose proof (IntegratedNavigationProofs.coherent_onNodeConfirmed nodes edges
                ACTIVE_NODES s x now now' Hs) as Hcoh1.
  cbn [fmap list_fmap IntegratedNavigation.run IntegratedNavigation.handle
       int_confirm fst snd int_walk].
  unfold IntegratedNavigation.after. cbn [fst snd].
  destruct confs as [|[y [t t']] confs].
  - apply drop_nil_length in Hd.
    destruct (int_arrive s c p x l now now' Hs Hxact Hxne Hc Hcne Hp Hnext
                ltac:(lia) Hl) as (Hxd & H1 & H2 & H3 & H4 & H5 & H6 & H7 & H8).
    cbn [fmap list_fmap IntegratedNavigation.run fst snd int_walk].
    rewrite app_nil_r, Hl. simpl. split_and!; try done. by rewrite <-Hxd.
  - cbn [fmap list_fmap fst] in Hd, Hact.
    pose proof Hd as [Hy _]%drop_S_cons.
    assert (at_index p (IntegratedNavigation.pathStep s + 1 + 1) = Some y) as Hnext2.
    { apply at_index_Some. split; [lia|].
      by replace (Z.to_nat (IntegratedNavigation.pathStep s + 1 + 1))
           with (S (S (Z.to_nat (IntegratedNavigation.pathStep s)))) by lia. }
    destruct (int_advance s c p x y l now now' Hs Hxact Hxne Hc Hcne Hp Hnext
                Hnext2 Hl) as (H1 & H2 & H3 & H4 & H5).
    set (r1 := IntegratedNavigation.onNodeConfirmed nodes edges ACTIVE_NODES
                 x now now' s) in *.
    destruct (IH r1.1 p x Hcoh1 Hne H2 H1) as (IH1 & IH2 & IH3).
    { cbn [fmap list_fmap fst]. rewrite H3, <-Hd. f_equal. lia. }
    { intros z Hz. apply Hact. by right. }
    split_and!.
    + congruence.
    + rewrite IH2, H5, Hl. done.
    + intros _. rewrite <-H4. by apply IH3.
Qed.

End walk.

Lemma nav_walk_last edges q :
  q ≠ [] → last_speech (nav_walk edges q) = Some "You have arrived.".
Proof.
  induction q as [|x [|y q] IH]; [done|done|]. intros _.
  change (nav_walk edges (x :: y :: q))
    with ([CancelSpeech; Beep; Vibrate;
           Speak (NavigationPage.getEdgeInstruction edges (Some x) (Some y)) true]
          ++ nav_walk edges (y :: q)).
  rewrite last_speech_app, IH; done.
Qed.

(** X6. [NavigationPage], following the planned route: when the landmarks
    that remain after the current one are confirmed in the order of the
    route (all of them active), each confirmation gives the cues and the
    instruction of the segment that follows, the last one says
    ["You have arrived."], and the session ends at the destination with the
    index on the last landmark of the unchanged route. *)
Theorem nav_walking_the_route_arrives nodes edges ACTIVE_NODES indexToNode s p confs :
  NavigationPage.reachable nodes edges ACTIVE_NODES indexToNode s →
  "" ∉ ACTIVE_NODES →
  NavigationPage.path s = Some p →
  confs.*1 = drop (S (Z.to_nat (NavigationPage.pathStep s))) p →
  (∀ x, x ∈ confs.*1 → x ∈ ACTIVE_NODES) →
  let r := NavigationPage.run nodes edges ACTIVE_NODES indexToNode
             (nav_confirm <$> confs) s in
  NavigationPage.currentNode r.1 = Some (NavigationPage.destinationNode s) ∧
  NavigationPage.destinationNode r.1 = NavigationPage.destinationNode s ∧
  NavigationPage.path r.1 = Some p ∧
  NavigationPage.pathStep r.1 = (Z.of_nat (length p) - 1)%Z ∧
  r.2 = nav_walk edges confs.*1 ∧
  (confs ≠ [] → last_speech r.2 = Some "You have arrived.").
Proof.
  intros Hr%NavigationPageProofs.reachable_consistent Hne Hp Hd Hact r.
  destruct (nav_walk_run nodes edges ACTIVE_NODES indexToNode confs s p
              Hr Hne Hp Hd Hact) as (Hcons & Hp' & Hs' & Hd' & He).
  fold r in Hcons, Hp', Hs', Hd', He.
  destruct (NavigationPageProofs.cons_route _ _ _ Hr p Hp) as (Hrange & _).
  destruct (NavigationPageProofs.cons_route _ _ _ Hcons p Hp')
    as (_ & Hat & _ & Hlast & _).
  assert (NavigationPage.pathStep r.1 = (Z.of_nat (length p) - 1)%Z) as Hstep.
  { rewrite Hs'. rewrite <-(length_fmap fst confs), Hd, length_drop. lia. }
  split_and!; try done.
  - rewrite <-Hat, Hstep, <-Hd', <-Hlast, last_lookup.
    replace (Z.of_nat (length p) - 1)%Z with (Z.of_nat (pred (length p))) by lia.
    apply at_index_nat.
  - intros Hc. rewrite He. apply nav_walk_last. by destruct confs.
Qed.

Lemma nav_walking_the_route_arrives_witness :
  let s := (NavigationPage.run NavigationTables.nodes NavigationTables.edges
              NavigationTables.ACTIVE_NODES NavigationTables.indexToNode
              [NavigationPage.NodeConfirmed "two" 10 11]
              (NavigationPage.initial "door")).1 in
  let r := NavigationPage.run NavigationTables.nodes NavigationTables.edges
             NavigationTables.ACTIVE_NODES NavigationTables.indexToNode
             [NavigationPage.NodeConfirmed "washroom" 20 21;
              NavigationPage.NodeConfirmed "caution" 30 31;
              NavigationPage.NodeConfirmed "door" 40 41] s in
  NavigationPage.currentNode r.1 = Some "door" ∧
  NavigationPage.pathStep r.1 = 3%Z ∧
  last_speech r.2 = Some "You have arrived.".
Proof.
  intros s r.
  destruct (nav_walking_the_route_arrives NavigationTables.nodes
              NavigationTables.edges NavigationTables.ACTIVE_NODES
              NavigationTables.indexToNode s
              ["two"; "washroom"; "caution"; "door"]
              [("washroom", (20, 21)%Z); ("caution", (30, 31)%Z); ("door", (40, 41)%Z)])
    as (H1 & _ & _ & H2 & _ & H3).
  - eexists "door", _. reflexivity.
  - compute_done.
  - by vm_compute.
  - by vm_compute.
  - intros x Hx. change (x ∈ ["washroom"; "caution"; "door"]) in Hx.
    repeat (apply elem_of_cons in Hx as [->|Hx]; [compute_done|]).
    by apply elem_of_nil in Hx.
  - split_and!; [exact H1|exact H2|by apply H3].
Defined.

(** X7. [IntegratedNavigation], following the planned route: when the
    landmarks that remain after the current one are confirmed in the order
    of the route (all active and labelled), each confirmation before the
    last gives the cues and ["You are at <label>. <instruction>"], the last
    one the arrival sentence (the bathroom sentence at the washroom) ending
    in ["Choose next destination."], and the session ends arrived at the
    destination with the route cleared. *)
Theorem int_walking_the_route_arrives nodes edges ACTIVE_NODES indexToNode s p c confs :
  IntegratedNavigation.reachable nodes edges ACTIVE_NODES indexToNode s →
  "" ∉ ACTIVE_NODES →
  IntegratedNavigation.path s = Some p →
  IntegratedNavigation.currentNode s = Some c →
  confs.*1 = drop (S (Z.to_nat (IntegratedNavigation.pathStep s))) p →
  confs ≠ [] →
  (∀ x, x ∈ confs.*1 → x ∈ ACTIVE_NODES ∧ is_Some (label_of nodes x)) →
  let r := IntegratedNavigation.run nodes edges ACTIVE_NODES indexToNode
             (int_confirm <$> confs) s in
  IntegratedNavigation.currentNode r.1 = Some (IntegratedNavigation.destinationNode s) ∧
  IntegratedNavigation.destinationNode r.1 = IntegratedNavigation.destinationNode s ∧
  IntegratedNavigation.path r.1 = None ∧
  IntegratedNavigation.pathStep r.1 = 0%Z ∧
  IntegratedNavigation.arrived r.1 = true ∧
  IntegratedNavigation.segmentPrompted r.1 = true ∧
  r.2 = int_walk nodes edges c confs.*1.
Proof.
  intros Hr%IntegratedNavigationProofs.reachable_coherent Hne Hp Hc Hd Hconfs Hact r.
  destruct (int_walk_run nodes edges ACTIVE_NODES indexToNode confs s p c
              Hr Hne Hp Hc Hd Hact) as (Hd' & He & Hfin).
  destruct (Hfin Hconfs) as (H1 & H2 & H3 & H4 & H5).
  by split_and!.
Qed.

Lemma int_walking_the_route_arrives_witness :
  let s := (IntegratedNavigation.run IntegratedTables.nodes IntegratedTables.edges
              IntegratedTables.ACTIVE_NODES IntegratedTables.indexToNode
              [IntegratedNavigation.NodeConfirmed "exitdoor" 10 11]
              (IntegratedNavigation.initial "washroom")).1 in
  let r := IntegratedNavigation.run IntegratedTables.nodes IntegratedTables.edges
             IntegratedTables.ACTIVE_NODES IntegratedTables.indexToNode
             [IntegratedNavigation.NodeConfirmed "mainhall" 20 21;
              IntegratedNavigation.NodeConfirmed "washroom" 30 31] s in
  IntegratedNavigation.currentNode r.1 = Some "washroom" ∧
  IntegratedNavigation.arrived r.1 = true ∧
  IntegratedNavigation.path r.1 = None.
Proof.
  intros s r.
  destruct (int_walking_the_route_arrives IntegratedTables.nodes
              IntegratedTables.edges IntegratedTables.ACTIVE_NODES
              IntegratedTables.indexToNode s
              ["exitdoor"; "mainhall"; "washroom"] "exitdoor"
              [("mainhall", (20, 21)%Z); ("washroom", (30, 31)%Z)])
    as (H1 & _ & H2 & _ & H3 & _).
  - eexists "washroom", _. reflexivity.
  - compute_done.
  - by vm_compute.
  - by vm_compute.
  - by vm_compute.
  - discriminate.
  - intros x Hx. change (x ∈ ["mainhall"; "washroom"]) in Hx.
    repeat (apply elem_of_cons in Hx as [->|Hx];
            [split; [compute_done|eexists; by vm_compute]|]).
    by apply elem_of_nil in Hx.
  - split_and!; [exact H1|exact H3|exact H2].
Defined.

(** ** Arrival *)

(** On a route without repeated landmarks that ends at [d], the index is on
    the last landmark exactly when the landmark at the index is [d]. *)
Lemma at_end_iff (p : list string) (i : Z) (d : string) (c : option string) :
  (0 ≤ i < Z.of_nat (length p))%Z → at_index p i = c → NoDup p → last p = Some d →
  (Z.of_nat (length p) - 1 ≤ i)%Z ↔ c = Some d.
Proof.
  intros Hr Hat Hnd Hl. rewrite last_lookup in Hl. split.
  - intros Hi. rewrite <-Hat, <-Hl.
    replace i with (Z.of_nat (pred (length p))) by lia. apply at_index_nat.
  - intros ->. apply at_index_Some in Hat as [_ Hat].
    pose proof (NoDup_lookup _ _ _ _ Hnd Hat Hl). lia.
Qed.

Module ArrivedProofs.
Import IntegratedNavigation IntegratedNavigationProofs.

Section facts.
Context (nodes : gmap string NodeData) (edges : gmap string (list Edge))
  (ACTIVE_NODES : gset string) (indexToNode : gmap nat string).

(** What the arrival lock stands for. *)
Definition settled (s : Nav) : Prop :=
  arrived s = true →
  currentNode s = Some (destinationNode s) ∧ pathStep s = 0%Z ∧
  segmentPrompted s = true.

Lemma settled_same s s' :
  currentNode s' = currentNode s → destinationNode s' = destinationNode s →
  pathStep s' = pathStep s → segmentPrompted s' = segmentPrompted s →
  arrived s' = arrived s → settled s → settled s'.
Proof. unfold settled. intros -> -> -> -> ->. done. Qed.

Lemma settled_not_arrived s : arrived s = false → settled s.
Proof. unfold settled. intros ->. done. Qed.

Lemma settled_finishArrival s msg :
  currentNode s = Some (destinationNode s) → settled (finishArrival msg s).1.
Proof. intros Hc _. done. Qed.

Lemma settled_announce s :
  coherent edges ACTIVE_NODES s → settled s →
  settled (announceNextInstruction nodes edges s).1.
Proof.
  intros Hs Hg. unfold announceNextInstruction.
  destruct (path s) as [p|] eqn:Hp; [|done].
  destruct (truthy _); simpl; [|done].
  destruct (coh_route _ _ _ Hs p Hp) as (Hr & Hat & Hnd & Hl & _).
  case_decide as Hend.
  - destruct (label_of _ _); simpl; [|done].
    apply settled_finishArrival. by eapply at_end_iff.
  - destruct (_ ≫= _); simpl; [|done]. by eapply settled_same; [..|exact Hg].
Qed.

Lemma settled_bathroom s cameFrom :
  currentNode s = Some (destinationNode s) → settled s →
  settled (bathroomArrivalMessage nodes cameFrom s).1.
Proof.
  intros Hc Hg. unfold bathroomArrivalMessage.
  destruct (label_of _ _); simpl; [by apply settled_finishArrival|done].
Qed.

Lemma settled_startRoutingFrom s nodeId now :
  nodeId ∈ ACTIVE_NODES → arrived s = false →
  settled (startRoutingFrom nodes edges nodeId now s).1.
Proof.
  intros Ha Harr. unfold startRoutingFrom. simpl.
  destruct (Planner.bfsPath _ _ _) eqn:Hb.
  - apply settled_announce; [by apply (coherent_routed _ _ _ nodeId)|].
    by apply settled_not_arrived.
  - by apply settled_not_arrived.
Qed.

Lemma settled_onRoute s nodeId cur p cameFrom :
  nodeId ∈ ACTIVE_NODES → currentNode s = Some cur → path s = Some p →
  arrived s = false → coherent edges ACTIVE_NODES s →
  settled (onRoute nodes edges nodeId cur p cameFrom s).1.
Proof.
  intros Ha Hc Hp Harr Hs. unfold onRoute.
  destruct (bool_decide (pathStep s < _)%Z && _) eqn:Hnext.
  - apply andb_prop in Hnext as [Hlt%bool_decide_eq_true Hat%bool_decide_eq_true].
    destruct (coh_route _ _ _ Hs p Hp) as (Hr & _ & Hnd & Hl & Hch).
    match goal with |- settled (if _ then ?a ?x ?s' else _).1 =>
      assert (coherent edges ACTIVE_NODES s') as Hs' end.
    { split; simpl.
      - by intros ? [= <-].
      - by rewrite Harr.
      - rewrite Hp. intros ? [= <-]. split_and!; try done; lia. }
    destruct (bool_decide (_ = "washroom") && _) eqn:Hw.
    + apply andb_prop in Hw as [Hd%bool_decide_eq_true Hn%bool_decide_eq_true].
      simpl in Hd. apply settled_bathroom; [simpl; congruence|].
      by apply settled_not_arrived.
    + apply settled_announce; [done|]. by apply settled_not_arrived.
  - destruct (decide (nodeId ≠ cur)).
    + simpl. destruct (Planner.bfsPath _ _ _) eqn:Hb; [|by apply settled_not_arrived].
      destruct (bool_decide (_ = "washroom") && _) eqn:Hw.
      * apply andb_prop in Hw as [Hd%bool_decide_eq_true Hn%bool_decide_eq_true].
        simpl in Hd. apply settled_bathroom; [simpl; congruence|].
        by apply settled_not_arrived.
      * destruct (label_of _ _); by apply settled_not_arrived.
    + apply settled_announce; [done|]. by apply settled_not_arrived.
Qed.

Lemma settled_onNodeConfirmed s nodeId now now' :
  coherent edges ACTIVE_NODES s → settled s →
  settled (onNodeConfirmed nodes edges ACTIVE_NODES nodeId now now' s).1.
Proof.
  intros Hs Hg. unfold onNodeConfirmed. case_decide as Ha; [|done].
  destruct (arrived s) eqn:Harr; [done|]. simpl.
  destruct (currentNode s) as [cur|] eqn:Hc;
    [destruct (path s) as [p|] eqn:Hp|]; try by apply settled_startRoutingFrom.
  case_bool_decide; simpl; [|by apply settled_startRoutingFrom].
  apply settled_onRoute; try done.
  by eapply coherent_same; [..|exact Hs].
Qed.

Lemma settled_handle ev s :
  coherent edges ACTIVE_NODES s → settled s →
  settled (handle nodes edges ACTIVE_NODES indexToNode ev s).1.
Proof.
  intros Hs Hg. destruct ev as [nodeId now now'|i t now now'|d| | |now sp|[]]; simpl.
  - by apply settled_onNodeConfirmed.
  - unfold onTargetFound. destruct (indexToNode !! i) as [nodeId|]; [|done].
    destruct (truthy _); [|done].
    destruct (acceptStable _ _ _) as [d [|]]; [|by eapply settled_same; [..|exact Hg]].
    apply settled_onNodeConfirmed.
    + by eapply coherent_same; [..|exact Hs].
    + by eapply settled_same; [..|exact Hg].
  - unfold setDestinationHandler. destruct (label_of _ _); by apply settled_not_arrived.
  - by apply settled_not_arrived.
  - unfold handleRepeat. case_bool_decide; [|done]. by eapply settled_same; [..|exact Hg].
  - unfold maybeGiveMovementPrompt.
    destruct (arrived s) eqn:Harr; [done|].
    repeat (case_match; try done). by apply settled_not_arrived.
  - by apply settled_announce.
Qed.

Lemma settled_run evs : ∀ s,
  coherent edges ACTIVE_NODES s → settled s →
  settled (run nodes edges ACTIVE_NODES indexToNode evs s).1.
Proof.
  induction evs as [|ev evs IH]; intros s Hs Hg; [done|].
  simpl. apply IH; [by apply coherent_handle|by apply settled_handle].
Qed.

Lemma reachable_settled s :
  reachable nodes edges ACTIVE_NODES indexToNode s → settled s.
Proof.
  intros (d & evs & ->). apply settled_run.
  - by apply coherent_no_route.
  - by apply settled_not_arrived.
Qed.

End facts.
End ArrivedProofs.

(** X8. Arrival is only ever announced at the destination. In every state a
    session can reach: while a route is set, its index is on the last
    landmark (the condition under which [announceNextInstruction] announces
    the arrival) exactly when the current landmark is the destination; and
    in the integrated component the arrival lock [arrived] is set only
    with the current landmark being the destination, the route cleared,
    the index back at 0 and the idle prompt switched off. *)
Theorem arrival_only_at_destination nodes edges ACTIVE_NODES indexToNode :
  (∀ s p, NavigationPage.reachable nodes edges ACTIVE_NODES indexToNode s →
     NavigationPage.path s = Some p →
     ((Z.of_nat (length p) - 1 ≤ NavigationPage.pathStep s)%Z ↔
      NavigationPage.currentNode s = Some (NavigationPage.destinationNode s))) ∧
  (∀ s p, IntegratedNavigation.reachable nodes edges ACTIVE_NODES indexToNode s →
     IntegratedNavigation.path s = Some p →
     IntegratedNavigation.arrived s = false ∧
     ((Z.of_nat (length p) - 1 ≤ IntegratedNavigation.pathStep s)%Z ↔
      IntegratedNavigation.currentNode s
        = Some (IntegratedNavigation.destinationNode s))) ∧
  (∀ s, IntegratedNavigation.reachable nodes edges ACTIVE_NODES indexToNode s →
     IntegratedNavigation.arrived s = true →
     IntegratedNavigation.currentNode s
       = Some (IntegratedNavigation.destinationNode s) ∧
     IntegratedNavigation.path s = None ∧
     IntegratedNavigation.pathStep s = 0%Z ∧
     IntegratedNavigation.segmentPrompted s = true).
Proof.
  split_and!.
  - intros s p Hr%NavigationPageProofs.reachable_consistent Hp.
    destruct (NavigationPageProofs.cons_route _ _ _ Hr p Hp) as (? & ? & ? & ? & _).
    by eapply at_end_iff.
  - intros s p Hr%IntegratedNavigationProofs.reachable_coherent Hp.
    destruct (IntegratedNavigationProofs.coh_route _ _ _ Hr p Hp) as (? & ? & ? & ? & _).
    split; [|by eapply at_end_iff].
    destruct (IntegratedNavigation.arrived s) eqn:Ha; [|done].
    apply (IntegratedNavigationProofs.coh_arrived _ _ _ Hr) in Ha. congruence.
  - intros s Hr Ha.
    pose proof (IntegratedNavigationProofs.reachable_coherent _ _ _ _ _ Hr) as Hc.
    destruct (ArrivedProofs.reachable_settled _ _ _ _ _ Hr Ha) as (H1 & H2 & H3).
    split_and!; try done. by apply (IntegratedNavigationProofs.coh_arrived _ _ _ Hc).
Qed.

Lemma arrival_only_at_destination_witness :
  let s := (IntegratedNavigation.run IntegratedTables.nodes IntegratedTables.edges
              IntegratedTables.ACTIVE_NODES IntegratedTables.indexToNode
              [IntegratedNavigation.NodeConfirmed "mainhall" 10 11;
               IntegratedNavigation.NodeConfirmed "exitdoor" 20 21]
              (IntegratedNavigation.initial "exitdoor")).1 in
  IntegratedNavigation.currentNode s = Some "exitdoor" ∧
  IntegratedNavigation.path s = None ∧
  IntegratedNavigation.pathStep s = 0%Z ∧
  IntegratedNavigation.segmentPrompted s = true.
Proof.
  intros s.
  apply (proj2 (proj2 (arrival_only_at_destination IntegratedTables.nodes
                         IntegratedTables.edges IntegratedTables.ACTIVE_NODES
                         IntegratedTables.indexToNode)) s).
  - eexists "exitdoor", _. reflexivity.
  - by vm_compute.
Defined.

(** ** No handler throws on complete tables *)

Lemma quiet_app a b : quiet a → quiet b → quiet (a ++ b).
Proof. unfold quiet. rewrite elem_of_app. tauto. Qed.

Lemma quiet_nil : quiet [].
Proof. apply not_elem_of_nil. Qed.

Lemma quiet_cons e effs : e ≠ Uncaught → quiet effs → quiet (e :: effs).
Proof. unfold quiet. rewrite elem_of_cons. naive_solver. Qed.

Ltac quiet := repeat (first [apply quiet_nil | apply quiet_cons; [discriminate|]
                            | apply quiet_app]).

Module QuietNavigationPage.
Import NavigationPage.

Section facts.
Context (nodes : gmap string NodeData) (edges : gmap string (list Edge))
  (ACTIVE_NODES : gset string) (indexToNode : gmap nat string).
Hypothesis active_labelled : ∀ x, x ∈ ACTIVE_NODES → labelled nodes x.

Lemma nav_quiet_announce s : quiet (announceNextInstruction edges s).2.
Proof.
  unfold announceNextInstruction. destruct (path s); [|quiet].
  case_decide; simpl; quiet.
Qed.

Lemma nav_quiet_onNodeConfirmed s nodeId now now' :
  quiet (onNodeConfirmed nodes edges ACTIVE_NODES nodeId now now' s).2.
Proof.
  unfold onNodeConfirmed. case_decide as Ha; [|quiet].
  destruct (active_labelled _ Ha) as [l Hl].
  assert (∀ s', quiet (startRoutingFrom nodes edges nodeId now' s').2) as Hstart.
  { intros s'. unfold startRoutingFrom. simpl.
    destruct (Planner.bfsPath _ _ _); simpl; [|quiet].
    rewrite Hl. simpl. quiet. }
  simpl. quiet.
  destruct (currentNode s) as [cur|]; [destruct (path s) as [p|]|]; try apply Hstart.
  case_bool_decide; simpl; [|apply Hstart].
  unfold onRoute. destruct (_ && _); [apply nav_quiet_announce|].
  case_decide; [|apply nav_quiet_announce]. simpl.
  destruct (Planner.bfsPath _ _ _); simpl; [|quiet].
  rewrite Hl. simpl. quiet.
Qed.

Lemma nav_quiet_handle ev s :
  (∀ d, ev = DestinationChanged d → labelled nodes d) →
  quiet (handle nodes edges ACTIVE_NODES indexToNode ev s).2.
Proof.
  intros Hd. destruct ev as [nodeId now now'|i t now now'|d| | |now|[]]; simpl.
  - apply nav_quiet_onNodeConfirmed.
  - unfold onTargetFound. destruct (indexToNode !! i) as [nodeId|]; [|quiet].
    destruct (truthy _); [|quiet].
    destruct (acceptStable _ _ _) as [d [|]]; [|quiet].
    apply nav_quiet_onNodeConfirmed.
  - destruct (Hd d eq_refl) as [l Hl].
    unfold setDestinationHandler. simpl. rewrite Hl. simpl. quiet.
  - unfold resetNav. simpl. quiet.
  - unfold handleRepeat. case_bool_decide; simpl; quiet.
  - unfold maybeGiveMovementPrompt. repeat case_match; simpl; quiet.
  - apply nav_quiet_announce.
Qed.

Lemma nav_quiet_run evs : ∀ s,
  (∀ d, DestinationChanged d ∈ evs → labelled nodes d) →
  quiet (run nodes edges ACTIVE_NODES indexToNode evs s).2.
Proof.
  induction evs as [|ev evs IH]; intros s Hd; [apply quiet_nil|].
  simpl. apply quiet_app.
  - apply nav_quiet_handle. intros d ->. apply Hd. by left.
  - apply IH. intros d Hin. apply Hd. by right.
Qed.

End facts.
End QuietNavigationPage.

Module QuietIntegratedNavigation.
Import IntegratedNavigation IntegratedNavigationProofs.

Section facts.
Context (nodes : gmap string NodeData) (edges : gmap string (list Edge))
  (ACTIVE_NODES : gset string) (indexToNode : gmap nat string).
Hypothesis active_labelled : ∀ x, x ∈ ACTIVE_NODES → labelled nodes x.

Lemma int_quiet_announce s :
  coherent edges ACTIVE_NODES s → labelled nodes (destinationNode s) →
  quiet (announceNextInstruction nodes edges s).2.
Proof.
  intros Hs [l Hl]. unfold announceNextInstruction.
  destruct (path s) as [p|] eqn:Hp; [|quiet].
  destruct (currentNode s) as [c|] eqn:Hc; simpl; [|quiet].
  case_bool_decide; simpl; [|quiet].
  destruct (coh_route _ _ _ Hs p Hp) as (_ & Hat & _).
  destruct (active_labelled c (coh_active _ _ _ Hs c Hc)) as [lc Hlc].
  case_decide.
  - rewrite Hl. simpl. quiet.
  - rewrite Hat, Hc. simpl. rewrite Hlc. simpl. quiet.
Qed.

Lemma int_quiet_bathroom s cameFrom :
  "washroom" ∈ ACTIVE_NODES → quiet (bathroomArrivalMessage nodes cameFrom s).2.
Proof.
  intros [l Hl]%active_labelled. unfold bathroomArrivalMessage.
  rewrite Hl. simpl. quiet.
Qed.

Lemma int_quiet_startRoutingFrom s nodeId now :
  nodeId ∈ ACTIVE_NODES → arrived s = false → labelled nodes (destinationNode s) →
  quiet (startRoutingFrom nodes edges nodeId now s).2.
Proof.
  intros Ha Harr Hd. unfold startRoutingFrom. simpl.
  destruct (Planner.bfsPath _ _ _) eqn:Hb; [|simpl; quiet].
  apply int_quiet_announce; [|done]. by apply (coherent_routed _ _ _ nodeId).
Qed.

Lemma int_quiet_onRoute s nodeId cur p cameFrom :
  nodeId ∈ ACTIVE_NODES → currentNode s = Some cur → path s = Some p →
  arrived s = false → coherent edges ACTIVE_NODES s →
  labelled nodes (destinationNode s) →
  quiet (onRoute nodes edges nodeId cur p cameFrom s).2.
Proof.
  intros Ha Hc Hp Harr Hs Hd. unfold onRoute.
  destruct (active_labelled _ Ha) as [l Hl].
  destruct (bool_decide (pathStep s < _)%Z && _) eqn:Hnext.
  - apply andb_prop in Hnext as [Hlt%bool_decide_eq_true Hat%bool_decide_eq_true].
    destruct (coh_route _ _ _ Hs p Hp) as (Hr & _ & Hnd & Hlast & Hch).
    destruct (bool_decide (_ = "washroom") && _) eqn:Hw.
    + apply andb_prop in Hw as [_ Hn%bool_decide_eq_true].
      apply int_quiet_bathroom. by rewrite <-Hn.
    + apply int_quiet_announce; [|done]. split; simpl.
      * by intros ? [= <-].
      * by rewrite Harr.
      * rewrite Hp. intros ? [= <-]. split_and!; try done; lia.
  - destruct (decide (nodeId ≠ cur)); [|by apply int_quiet_announce].
    simpl. destruct (Planner.bfsPath _ _ _) eqn:Hb; [|simpl; quiet].
    destruct (bool_decide (_ = "washroom") && _) eqn:Hw.
    + apply andb_prop in Hw as [_ Hn%bool_decide_eq_true].
      apply int_quiet_bathroom. by rewrite <-Hn.
    + rewrite Hl. simpl. quiet.
Qed.

Lemma int_quiet_onNodeConfirmed s nodeId now now' :
  coherent edges ACTIVE_NODES s → labelled nodes (destinationNode s) →
  quiet (onNodeConfirmed nodes edges ACTIVE_NODES nodeId now now' s).2.
Proof.
  intros Hs Hd. unfold onNodeConfirmed. case_decide as Ha; [|quiet].
  destruct (arrived s) eqn:Harr; [quiet|]. simpl. quiet.
  destruct (currentNode s) as [cur|] eqn:Hc;
    [destruct (path s) as [p|] eqn:Hp|]; try by apply int_quiet_startRoutingFrom.
  case_bool_decide; simpl; [|by apply int_quiet_startRoutingFrom].
  apply int_quiet_onRoute; try done.
  by eapply coherent_same; [..|exact Hs].
Qed.

Lemma int_quiet_handle ev s :
  coherent edges ACTIVE_NODES s → labelled nodes (destinationNode s) →
  (∀ d, ev = DestinationChanged d → labelled nodes d) →
  quiet (handle nodes edges ACTIVE_NODES indexToNode ev s).2.
Proof.
  intros Hs Hl Hd. destruct ev as [nodeId now now'|i t now now'|d| | |now sp|[]]; simpl.
  - by apply int_quiet_onNodeConfirmed.
  - unfold onTargetFound. destruct (indexToNode !! i) as [nodeId|]; [|quiet].
    destruct (truthy _); [|quiet].
    destruct (acceptStable _ _ _) as [d [|]]; [|quiet].
    apply int_quiet_onNodeConfirmed; [|done]. by eapply coherent_same; [..|exact Hs].
  - destruct (Hd d eq_refl) as [l Hl'].
    unfold setDestinationHandler. simpl. rewrite Hl'. simpl. quiet.
  - unfold resetNav. simpl. quiet.
  - unfold handleRepeat. case_bool_decide; simpl; quiet.
  - unfold maybeGiveMovementPrompt. repeat case_match; simpl; quiet.
  - by apply int_quiet_announce.
Qed.

(** The destination changes with [setDestinationHandler] only. *)
Lemma handle_destination ev s :
  destinationNode (handle nodes edges ACTIVE_NODES indexToNode ev s).1
    = match ev with
      | DestinationChanged d => d
      | _ => destinationNode s
      end.
Proof.
  destruct ev as [nodeId now now'|i t now now'|d| | |now sp|[]];
  unfold handle, onTargetFound, onNodeConfirmed, onRoute, startRoutingFrom,
    bathroomArrivalMessage, announceNextInstruction, setDestinationHandler,
    resetNav, handleRepeat, maybeGiveMovementPrompt, finishArrival, with_text,
    speak, after;
  repeat (simpl; case_match); simpl; done.
Qed.

Lemma int_quiet_run evs : ∀ s,
  coherent edges ACTIVE_NODES s → labelled nodes (destinationNode s) →
  (∀ d, DestinationChanged d ∈ evs → labelled nodes d) →
  quiet (run nodes edges ACTIVE_NODES indexToNode evs s).2.
Proof.
  induction evs as [|ev evs IH]; intros s Hs Hl Hd; [apply quiet_nil|].
  simpl. apply quiet_app.
  - apply int_quiet_handle; [done|done|]. intros d ->. apply Hd. by left.
  - apply IH.
    + by apply coherent_handle.
    + rewrite handle_destination. destruct ev; try done. apply Hd. by left.
    + intros d Hin. apply Hd. by right.
Qed.

End facts.
End QuietIntegratedNavigation.



(** ** Detections that do not last *)

Lemma acceptStable_brief t0 nodeId t d :
  fresh_since t0 d → (t0 ≤ t < t0 + stableMs)%Z →
  (acceptStable nodeId t d).2 = false ∧ fresh_since t0 (acceptStable nodeId t d).1.
Proof.
  intros Hf Ht. unfold acceptStable. case_decide as Hc; simpl.
  - split; [done|]. right. simpl. lia.
  - split; [|done]. apply bool_decide_eq_false.
    destruct Hf as [Hn|Hs]; [congruence|lia].
Qed.

Section brief.
Context (nodes : gmap string NodeData) (edges : gmap string (list Edge))
  (ACTIVE_NODES : gset string) (indexToNode : gmap nat string).

Lemma nav_brief t0 dets : ∀ s,
  fresh_since t0 (NavigationPage.debouncer s) →
  (∀ d, d ∈ dets → (t0 ≤ d.2.1 < t0 + stableMs)%Z) →
  let r := NavigationPage.run nodes edges ACTIVE_NODES indexToNode
             (nav_detect <$> dets) s in
  r.2 = [] ∧ r.1 = NavigationPage.set_debouncer (NavigationPage.debouncer r.1) s.
Proof.
  induction dets as [|[i [t [now now']]] dets IH]; intros s Hf Ht; cbv zeta.
  { simpl. split; [done|]. by destruct s. }
  cbn [fmap list_fmap NavigationPage.run NavigationPage.handle nav_detect fst snd].
  assert (∃ d', fresh_since t0 d' ∧
            NavigationPage.onTargetFound nodes edges ACTIVE_NODES indexToNode
              i t now now' s = (NavigationPage.set_debouncer d' s, [])) as (d' & Hf' & ->).
  { unfold NavigationPage.onTargetFound.
    destruct (indexToNode !! i) as [nodeId|];
      [|exists (NavigationPage.debouncer s); split; [done|by destruct s]].
    destruct (truthy _);
      [|exists (NavigationPage.debouncer s); split; [done|by destruct s]].
    destruct (acceptStable_brief t0 nodeId t (NavigationPage.debouncer s) Hf) as [Hno Hf'].
    { apply (Ht (i, (t, (now, now')))). by left. }
    destruct (acceptStable _ _ _) as [d' ok]. simpl in Hno, Hf'. subst ok.
    by exists d'. }
  unfold NavigationPage.after. cbn [fst snd app].
  destruct (IH (NavigationPage.set_debouncer d' s)) as [-> Hs]; [done| |].
  { intros d Hd. apply Ht. by right. }
  split; [done|]. rewrite Hs at 1. done.
Qed.

Lemma int_brief t0 dets : ∀ s,
  fresh_since t0 (IntegratedNavigation.debouncer s) →
  (∀ d, d ∈ dets → (t0 ≤ d.2.1 < t0 + stableMs)%Z) →
  let r := IntegratedNavigation.run nodes edges ACTIVE_NODES indexToNode
             (int_detect <$> dets) s in
  r.2 = [] ∧
  r.1 = IntegratedNavigation.set_debouncer (IntegratedNavigation.debouncer r.1) s.
Proof.
  induction dets as [|[i [t [now now']]] dets IH]; intros s Hf Ht; cbv zeta.
  { simpl. split; [done|]. by destruct s. }
  cbn [fmap list_fmap IntegratedNavigation.run IntegratedNavigation.handle
       int_detect fst snd].
  assert (∃ d', fresh_since t0 d' ∧
            IntegratedNavigation.onTargetFound nodes edges ACTIVE_NODES indexToNode
              i t now now' s = (IntegratedNavigation.set_debouncer d' s, []))
    as (d' & Hf' & ->).
  { unfold IntegratedNavigation.onTargetFound.
    destruct (indexToNode !! i) as [nodeId|];
      [|exists (IntegratedNavigation.debouncer s); split; [done|by destruct s]].
    destruct (truthy _);
      [|exists (IntegratedNavigation.debouncer s); split; [done|by destruct s]].
    destruct (acceptStable_brief t0 nodeId t (IntegratedNavigation.debouncer s) Hf)
      as [Hno Hf'].
    { apply (Ht (i, (t, (now, now')))). by left. }
    destruct (acceptStable _ _ _) as [d' ok]. simpl in Hno, Hf'. subst ok.
    by exists d'. }
  unfold IntegratedNavigation.after. cbn [fst snd app].
  destruct (IH (IntegratedNavigation.set_debouncer d' s)) as [-> Hs]; [done| |].
  { intros d Hd. apply Ht. by right. }
  split; [done|]. rewrite Hs at 1. done.
Qed.

End brief.

(** X10. Detections that do not last confirm nothing. When all the raw
    detections of a burst, of whatever targets and in whatever order, are
    stamped within less than 500 ms of a time [t0], and the candidate the
    debouncer holds (if any) is not older than [t0], no landmark is
    confirmed: nothing is issued and only the debouncer changes. Both
    components. *)
Theorem brief_detections_confirm_nothing nodes edges ACTIVE_NODES indexToNode t0 dets :
  (∀ d, d ∈ dets → (t0 ≤ d.2.1 < t0 + 500)%Z) →
  (∀ s, fresh_since t0 (NavigationPage.debouncer s) →
     let r := NavigationPage.run nodes edges ACTIVE_NODES indexToNode
                (nav_detect <$> dets) s in
     r.2 = [] ∧ r.1 = NavigationPage.set_debouncer (NavigationPage.debouncer r.1) s) ∧
  (∀ s, fresh_since t0 (IntegratedNavigation.debouncer s) →
     let r := IntegratedNavigation.run nodes edges ACTIVE_NODES indexToNode
                (int_detect <$> dets) s in
     r.2 = [] ∧
     r.1 = IntegratedNavigation.set_debouncer (IntegratedNavigation.debouncer r.1) s).
Proof.
  intros Ht. split; intros s Hf; [by apply (nav_brief _ _ _ _ t0)|by apply (int_brief _ _ _ _ t0)].
Qed.

Lemma brief_detections_confirm_nothing_witness :
  (NavigationPage.run NavigationTables.nodes NavigationTables.edges
     NavigationTables.ACTIVE_NODES NavigationTables.indexToNode
     [NavigationPage.TargetFound 0 1000 1001 1002;
      NavigationPage.TargetFound 1 1200 1201 1202;
      NavigationPage.TargetFound 1 1499 1500 1501]
     (NavigationPage.initial "door")).2 = [].
Proof.
  apply (proj1 (brief_detections_confirm_nothing NavigationTables.nodes
                  NavigationTables.edges NavigationTables.ACTIVE_NODES
                  NavigationTables.indexToNode 1000
                  [(0, (1000, (1001, 1002))%Z); (1, (1200, (1201, 1202))%Z);
                   (1, (1499, (1500, 1501))%Z)]
                  ltac:(intros d Hd;
                        repeat (apply elem_of_cons in Hd as [->|Hd]; [simpl; lia|]);
                        by apply elem_of_nil in Hd))
          (NavigationPage.initial "door")).
  by left.
Defined.

(** ** The two voice handlers *)

(** X11. [VoiceController] trims the lower-cased transcript and the
    integrated component does not, yet for every utterance both match the
    same destination (no keyword begins or ends with white space); and the
    look-up of the matched id among [VoiceController]'s checkpoints never
    fails: a checkpoint with that id is reported whenever a keyword
    matched, none otherwise. *)
Theorem voice_handlers_agree rawTranscript :
  Voice.matchedId rawTranscript = Voice.matchedDestination rawTranscript ∧
  match Voice.matchedId rawTranscript with
  | Some m =>
      ∃ cp, Voice.matchedCheckpoint rawTranscript = Some cp ∧
            cp ∈ Voice.checkpoints ∧ Voice.id cp = m
  | None => Voice.matchedCheckpoint rawTranscript = None
  end.
Proof.
  split; [apply VoiceProofs.firstMatch_trim|].
  unfold Voice.matchedCheckpoint.
  destruct (Voice.matchedId rawTranscript) as [m|] eqn:Hm; [|done].
  apply VoiceProofs.firstMatch_in_table in Hm.
  change (m ∈ ["washroom"; "washroom"; "washroom"; "washroom"; "washroom";
               "elevator"; "mainhall"; "mainhall"; "exitdoor"; "exitdoor";
               "exitdoor"]) in Hm.
  assert (m = "washroom" ∨ m = "elevator" ∨ m = "mainhall" ∨ m = "exitdoor")
    as [-> | [-> | [-> | ->]]] by (set_unfold; naive_solver);
    simpl; eexists; (split_and!; [reflexivity| |reflexivity]);
    unfold Voice.checkpoints;
    repeat first [apply list_elem_of_here|apply list_elem_of_further].
Qed.

(** X12. What a voice command of the integrated component can do: the new
    destination is one of the four landmarks and differs from the current
    one, and the status line and the spoken sentence name it by its label,
    which is always found (the fall-back to the raw id is never taken). *)
Theorem voice_command_outcome rawTranscript destination d status spoken :
  Voice.onresult rawTranscript destination = Some (d, status, spoken) →
  d ∈ ["washroom"; "elevator"; "mainhall"; "exitdoor"] ∧ d ≠ destination ∧
  Voice.matchedDestination rawTranscript = Some d ∧
  ∃ l, Voice.nodeLabels !! d = Some l ∧ l ≠ "" ∧
       status = "Destination set to " +:+ l +:+ " via voice command." ∧
       spoken = "Destination set to " +:+ l +:+ ".".
Proof.
  unfold Voice.onresult.
  destruct (Voice.matchedDestination rawTranscript) as [m|] eqn:Hm; [|done].
  apply VoiceProofs.firstMatch_in_table in Hm.
  change (m ∈ ["washroom"; "washroom"; "washroom"; "washroom"; "washroom";
               "elevator"; "mainhall"; "mainhall"; "exitdoor"; "exitdoor";
               "exitdoor"]) in Hm.
  destruct (decide (m = destination)) as [->|Hd].
  { rewrite (bool_decide_eq_false_2 (destination ≠ destination)) by naive_solver.
    by rewrite andb_false_r. }
  rewrite (bool_decide_eq_true_2 (m ≠ destination)), andb_true_r by done.
  assert (m = "washroom" ∨ m = "elevator" ∨ m = "mainhall" ∨ m = "exitdoor")
    as [-> | [-> | [-> | ->]]] by (set_unfold; naive_solver);
    simpl; intros [= <- <- <-];
    (split_and!; [compute_done|done|done|]);
    eexists; (split_and!; [reflexivity|done|reflexivity|reflexivity]).
Qed.

Lemma voice_command_outcome_witness :
  "washroom" ∈ ["washroom"; "elevator"; "mainhall"; "exitdoor"] ∧
  "washroom" ≠ "elevator" ∧
  Voice.matchedDestination "Where is the Bathroom" = Some "washroom" ∧
  ∃ l, Voice.nodeLabels !! "washroom" = Some l ∧ l ≠ "" ∧
       "Destination set to Bathroom via voice command."
         = "Destination set to " +:+ l +:+ " via voice command." ∧
       "Destination set to Bathroom." = "Destination set to " +:+ l +:+ ".".
Proof.
  apply (voice_command_outcome "Where is the Bathroom" "elevator").
  by vm_compute.
Defined.

(** ** After the arrival: the lock, and its absence *)

Section arrival_lock.
Context (nodes : gmap string NodeData) (edges : gmap string (list Edge))
  (ACTIVE_NODES : gset string) (indexToNode : gmap nat string).

(** While arrived and without a route, an event other than a reset or a
    change of destination leaves everything but the debouncer as it is, and
    only the repeat action speaks. *)
Lemma int_locked_handle ev s :
  IntegratedNavigation.arrived s = true → IntegratedNavigation.path s = None →
  ev ≠ IntegratedNavigation.Reset →
  (∀ d, ev ≠ IntegratedNavigation.DestinationChanged d) →
  let r := IntegratedNavigation.handle nodes edges ACTIVE_NODES indexToNode ev s in
  r.1 = IntegratedNavigation.set_debouncer (IntegratedNavigation.debouncer r.1) s ∧
  (∀ e, e ∈ r.2 → ev = IntegratedNavigation.Repeat ∧
                  e = Speak (IntegratedNavigation.lastSpoken s) true).
Proof.
  intros Harr Hp Hreset Hdest.
  assert (∀ s' : IntegratedNavigation.Nav,
            s' = IntegratedNavigation.set_debouncer (IntegratedNavigation.debouncer s') s')
    as Heta by (by intros []).
  destruct ev as [nodeId now now'|i t now now'|d| | |now sp|[]]; cbv zeta; simpl.
  - rewrite int_arrived_ignores by done. split; [apply Heta|by intros ? ?%elem_of_nil].
  - unfold IntegratedNavigation.onTargetFound.
    destruct (indexToNode !! i) as [nodeId|]; [|split; [apply Heta|by intros ? ?%elem_of_nil]].
    destruct (truthy _); [|split; [apply Heta|by intros ? ?%elem_of_nil]].
    destruct (acceptStable _ _ _) as [d [|]]; [|split; [done|by intros ? ?%elem_of_nil]].
    rewrite int_arrived_ignores by done. split; [done|by intros ? ?%elem_of_nil].
  - by destruct (Hdest d).
  - done.
  - unfold IntegratedNavigation.handleRepeat.
    case_bool_decide; simpl; [|split; [apply Heta|by intros ? ?%elem_of_nil]].
    split; [by destruct s|]. by intros e ->%list_elem_of_singleton.
  - unfold IntegratedNavigation.maybeGiveMovementPrompt. rewrite Harr.
    split; [apply Heta|by intros ? ?%elem_of_nil].
  - unfold IntegratedNavigation.announceNextInstruction. rewrite Hp.
    split; [apply Heta|by intros ? ?%elem_of_nil].
Qed.

Lemma int_locked_run evs : ∀ s,
  IntegratedNavigation.arrived s = true → IntegratedNavigation.path s = None →
  (∀ ev, ev ∈ evs → ev ≠ IntegratedNavigation.Reset ∧
                    ∀ d, ev ≠ IntegratedNavigation.DestinationChanged d) →
  let r := IntegratedNavigation.run nodes edges ACTIVE_NODES indexToNode evs s in
  r.1 = IntegratedNavigation.set_debouncer (IntegratedNavigation.debouncer r.1) s ∧
  (∀ e, e ∈ r.2 → IntegratedNavigation.Repeat ∈ evs ∧
                  e = Speak (IntegratedNavigation.lastSpoken s) true).
Proof.
  induction evs as [|ev evs IH]; intros s Harr Hp Hevs; cbv zeta.
  { simpl. split; [by destruct s|]. intros e He. by apply elem_of_nil in He. }
  destruct (Hevs ev (list_elem_of_here _ _)) as [Hreset Hdest].
  destruct (int_locked_handle ev s Harr Hp Hreset Hdest) as [Hs1 He1].
  cbn [IntegratedNavigation.run]. unfold IntegratedNavigation.after. cbn [fst snd].
  set (r1 := IntegratedNavigation.handle nodes edges ACTIVE_NODES indexToNode ev s) in *.
  destruct (IH r1.1) as [Hs2 He2].
  { by rewrite Hs1. }
  { by rewrite Hs1. }
  { intros ev' Hev'. apply Hevs. by right. }
  split.
  - rewrite Hs2. rewrite Hs1 at 2. done.
  - intros e [He|He]%elem_of_app.
    + destruct (He1 e He) as [-> ->]. split; [by left|done].
    + destruct (He2 e He) as [Hin ->]. split; [by right|]. by rewrite Hs1.
Qed.

(** [NavigationPage] at the end of its route: confirming the landmark the
    session is at announces the arrival again. *)
Lemma nav_arrival_again s c p now now' :
  c ∈ ACTIVE_NODES → c ≠ "" →
  NavigationPage.currentNode s = Some c → NavigationPage.path s = Some p →
  (Z.of_nat (length p) - 1 ≤ NavigationPage.pathStep s)%Z →
  let r := NavigationPage.onNodeConfirmed nodes edges ACTIVE_NODES c now now' s in
  r.2 = [CancelSpeech; Beep; Vibrate; Speak "You have arrived." true] ∧
  NavigationPage.currentNode r.1 = Some c ∧ NavigationPage.path r.1 = Some p ∧
  NavigationPage.pathStep r.1 = NavigationPage.pathStep s ∧
  NavigationPage.destinationNode r.1 = NavigationPage.destinationNode s.
Proof.
  intros Ha Hne Hc Hp Hend.
  unfold NavigationPage.onNodeConfirmed. rewrite decide_True by done.
  simpl. rewrite Hc, Hp, bool_decide_eq_true_2 by done.
  unfold NavigationPage.onRoute. simpl.
  rewrite (bool_decide_eq_false_2 (_ < _)%Z) by lia. simpl.
  rewrite decide_False by naive_solver.
  unfold NavigationPage.announceNextInstruction. simpl. rewrite Hp.
  rewrite decide_True by lia. done.
Qed.

Lemma nav_arrival_again_run times : ∀ s c p,
  c ∈ ACTIVE_NODES → c ≠ "" →
  NavigationPage.currentNode s = Some c → NavigationPage.path s = Some p →
  (Z.of_nat (length p) - 1 ≤ NavigationPage.pathStep s)%Z →
  let r := NavigationPage.run nodes edges ACTIVE_NODES indexToNode
             ((λ t, NavigationPage.NodeConfirmed c t.1 t.2) <$> times) s in
  r.2 = times ≫= (λ _, [CancelSpeech; Beep; Vibrate; Speak "You have arrived." true]) ∧
  NavigationPage.currentNode r.1 = Some c ∧ NavigationPage.path r.1 = Some p ∧
  NavigationPage.pathStep r.1 = NavigationPage.pathStep s ∧
  NavigationPage.destinationNode r.1 = NavigationPage.destinationNode s.
Proof.
  induction times as [|[now now'] times IH]; intros s c p Ha Hne Hc Hp Hend; cbv zeta;
    [done|].
  destruct (nav_arrival_again s c p now now' Ha Hne Hc Hp Hend)
    as (He & Hc1 & Hp1 & Hs1 & Hd1).
  cbn [fmap list_fmap NavigationPage.run NavigationPage.handle fst snd].
  unfold NavigationPage.after. cbn [fst snd].
  set (r1 := NavigationPage.onNodeConfirmed nodes edges ACTIVE_NODES c now now' s) in *.
  destruct (IH r1.1 c p Ha Hne Hc1 Hp1) as (IHe & IHc & IHp & IHs & IHd); [lia|].
  split_and!; try congruence. by rewrite IHe, He.
Qed.

End arrival_lock.

(** X13. The arrival lock of [IntegratedNavigation]: once a session has
    arrived, confirmations, raw detections, idle ticks and the instruction
    timer issue nothing, and no variable but the debouncer changes, however
    many of them come, until a reset or a change of destination; only the
    repeat action still speaks, the last sentence again. *)
Theorem integrated_arrival_lock nodes edges ACTIVE_NODES indexToNode s evs :
  IntegratedNavigation.reachable nodes edges ACTIVE_NODES indexToNode s →
  IntegratedNavigation.arrived s = true →
  (∀ ev, ev ∈ evs → ev ≠ IntegratedNavigation.Reset ∧
                    ∀ d, ev ≠ IntegratedNavigation.DestinationChanged d) →
  let r := IntegratedNavigation.run nodes edges ACTIVE_NODES indexToNode evs s in
  r.1 = IntegratedNavigation.set_debouncer (IntegratedNavigation.debouncer r.1) s ∧
  (∀ e, e ∈ r.2 → e = Speak (IntegratedNavigation.lastSpoken s) true) ∧
  (IntegratedNavigation.Repeat ∉ evs → r.2 = []).
Proof.
  intros Hr%IntegratedNavigationProofs.reachable_coherent Harr Hevs r.
  pose proof (IntegratedNavigationProofs.coh_arrived _ _ _ Hr Harr) as Hp.
  destruct (int_locked_run nodes edges ACTIVE_NODES indexToNode evs s Harr Hp Hevs)
    as [Hs He].
  fold r in Hs, He. split_and!; [done|intros e H; by apply He|].
  intros Hno. destruct r.2 as [|e effs]; [done|].
  destruct (He e (list_elem_of_here _ _)) as [Hin _]. done.
Qed.

Lemma integrated_arrival_lock_witness :
  let s := (IntegratedNavigation.run IntegratedTables.nodes IntegratedTables.edges
              IntegratedTables.ACTIVE_NODES IntegratedTables.indexToNode
              [IntegratedNavigation.NodeConfirmed "mainhall" 10 11;
               IntegratedNavigation.NodeConfirmed "exitdoor" 20 21]
              (IntegratedNavigation.initial "exitdoor")).1 in
  (IntegratedNavigation.run IntegratedTables.nodes IntegratedTables.edges
     IntegratedTables.ACTIVE_NODES IntegratedTables.indexToNode
     [IntegratedNavigation.NodeConfirmed "exitdoor" 30 31;
      IntegratedNavigation.TargetFound 2 40 41 42;
      IntegratedNavigation.MovementTick 9000 false;
      IntegratedNavigation.TimerFired AnnounceNextInstruction] s).2 = [].
Proof.
  intros s.
  apply (integrated_arrival_lock IntegratedTables.nodes IntegratedTables.edges
           IntegratedTables.ACTIVE_NODES IntegratedTables.indexToNode s).
  - eexists "exitdoor", _. reflexivity.
  - by vm_compute.
  - intros ev Hev.
    repeat (apply elem_of_cons in Hev as [->|Hev]; [done|]).
    by apply elem_of_nil in Hev.
  - intros Hin.
    repeat (apply elem_of_cons in Hin as [[=]|Hin]).
    by apply elem_of_nil in Hin.
Defined.

(** X14. [NavigationPage] has no such lock: at the end of its route, every
    further confirmation of the landmark the session is at speaks
    ["You have arrived."] again, with the cues, and leaves the route, its
    index and the current landmark as they are. *)
Theorem navigation_page_arrival_repeats nodes edges ACTIVE_NODES indexToNode s c p times :
  c ∈ ACTIVE_NODES → c ≠ "" →
  NavigationPage.currentNode s = Some c → NavigationPage.path s = Some p →
  (Z.of_nat (length p) - 1 ≤ NavigationPage.pathStep s)%Z →
  let r := NavigationPage.run nodes edges ACTIVE_NODES indexToNode
             ((λ t, NavigationPage.NodeConfirmed c t.1 t.2) <$> times) s in
  r.2 = times ≫= (λ _, [CancelSpeech; Beep; Vibrate; Speak "You have arrived." true]) ∧
  NavigationPage.currentNode r.1 = Some c ∧ NavigationPage.path r.1 = Some p ∧
  NavigationPage.pathStep r.1 = NavigationPage.pathStep s ∧
  NavigationPage.destinationNode r.1 = NavigationPage.destinationNode s.
Proof. intros. by apply nav_arrival_again_run. Qed.

Lemma navigation_page_arrival_repeats_witness :
  let s := (NavigationPage.run NavigationTables.nodes NavigationTables.edges
              NavigationTables.ACTIVE_NODES NavigationTables.indexToNode
              [NavigationPage.NodeConfirmed "two" 10 11;
               NavigationPage.NodeConfirmed "washroom" 20 21]
              (NavigationPage.initial "washroom")).1 in
  (NavigationPage.run NavigationTables.nodes NavigationTables.edges
     NavigationTables.ACTIVE_NODES NavigationTables.indexToNode
     [NavigationPage.NodeConfirmed "washroom" 30 31;
      NavigationPage.NodeConfirmed "washroom" 40 41] s).2
  = [CancelSpeech; Beep; Vibrate; Speak "You have arrived." true;
     CancelSpeech; Beep; Vibrate; Speak "You have arrived." true].
Proof.
  intros s.
  apply (navigation_page_arrival_repeats NavigationTables.nodes
           NavigationTables.edges NavigationTables.ACTIVE_NODES
           NavigationTables.indexToNode s "washroom" ["two"; "washroom"]
           [(30, 31)%Z; (40, 41)%Z]).
  - compute_done.
  - discriminate.
  - by vm_compute.
  - by vm_compute.
  - vm_compute. discriminate.
Defined.

(** ** The first confirmation *)

Section first.
Context (nodes : gmap string NodeData) (edges : gmap string (list Edge))
  (ACTIVE_NODES : gset string).

Lemma nav_unrouted_starts s nodeId now now' :
  nodeId ∈ ACTIVE_NODES → NavigationPage.unrouted s = true →
  NavigationPage.onNodeConfirmed nodes edges ACTIVE_NODES nodeId now now' s
    = NavigationPage.after [CancelSpeech; Beep; Vibrate]
        (NavigationPage.startRoutingFrom nodes edges nodeId now'
           (NavigationPage.set_segmentPrompted false
              (NavigationPage.set_lastConfirmedAt now s))).
Proof.
  intros Ha Hu. unfold NavigationPage.onNodeConfirmed, NavigationPage.unrouted in *.
  rewrite decide_True by done. simpl.
  destruct (NavigationPage.currentNode s) as [c|]; [|done].
  destruct (NavigationPage.path s) as [p|]; [|done].
  simpl in Hu. rewrite orb_false_r in Hu. apply negb_true_iff in Hu.
  by rewrite Hu.
Qed.

Lemma int_unrouted_starts s nodeId now now' :
  nodeId ∈ ACTIVE_NODES → IntegratedNavigation.unrouted s = true →
  IntegratedNavigation.arrived s = false →
  IntegratedNavigation.onNodeConfirmed nodes edges ACTIVE_NODES nodeId now now' s
    = IntegratedNavigation.after [Beep; Vibrate]
        (IntegratedNavigation.startRoutingFrom nodes edges nodeId now'
           (IntegratedNavigation.set_segmentPrompted false
              (IntegratedNavigation.set_lastConfirmedAt now s))).
Proof.
  intros Ha Hu Harr.
  unfold IntegratedNavigation.onNodeConfirmed, IntegratedNavigation.unrouted in *.
  rewrite decide_True, Harr by done. simpl.
  destruct (IntegratedNavigation.currentNode s) as [c|]; [|done].
  destruct (IntegratedNavigation.path s) as [p|]; [|done].
  simpl in Hu. rewrite orb_false_r in Hu. apply negb_true_iff in Hu.
  by rewrite Hu.
Qed.

End first.



(** ** One sentence at a time *)

Section sentences.
Context (nodes : gmap string NodeData) (edges : gmap string (list Edge))
  (ACTIVE_NODES : gset string) (indexToNode : gmap nat string).

Ltac no_quiet_speech :=
  split; [simpl; lia|];
  intros m Hin; simpl in Hin;
  repeat (apply elem_of_cons in Hin as [Heq|Hin]; [try discriminate|]);
  try (by apply elem_of_nil in Hin); eauto.

Lemma nav_one_sentence ev s :
  let r := NavigationPage.handle nodes edges ACTIVE_NODES indexToNode ev s in
  speeches r.2 ≤ 1 ∧
  (∀ m, Speak m false ∈ r.2 → ∃ now, ev = NavigationPage.MovementTick now).
Proof.
  destruct ev;
  unfold NavigationPage.handle, NavigationPage.onTargetFound,
    NavigationPage.onNodeConfirmed, NavigationPage.onRoute,
    NavigationPage.startRoutingFrom, NavigationPage.announceNextInstruction,
    NavigationPage.setDestinationHandler, NavigationPage.resetNav,
    NavigationPage.handleRepeat, NavigationPage.maybeGiveMovementPrompt,
    NavigationPage.speak_labelled, NavigationPage.speak, NavigationPage.after;
  repeat (simpl; case_match); no_quiet_speech.
Qed.

Lemma int_one_sentence ev s :
  let r := IntegratedNavigation.handle nodes edges ACTIVE_NODES indexToNode ev s in
  speeches r.2 ≤ 1 ∧
  (∀ m, Speak m false ∈ r.2 →
        ∃ now speaking, ev = IntegratedNavigation.MovementTick now speaking).
Proof.
  destruct ev;
  unfold IntegratedNavigation.handle, IntegratedNavigation.onTargetFound,
    IntegratedNavigation.onNodeConfirmed, IntegratedNavigation.onRoute,
    IntegratedNavigation.startRoutingFrom,
    IntegratedNavigation.bathroomArrivalMessage,
    IntegratedNavigation.announceNextInstruction,
    IntegratedNavigation.setDestinationHandler, IntegratedNavigation.resetNav,
    IntegratedNavigation.handleRepeat, IntegratedNavigation.maybeGiveMovementPrompt,
    IntegratedNavigation.finishArrival, IntegratedNavigation.with_text,
    IntegratedNavigation.speak, IntegratedNavigation.after;
  repeat (simpl; case_match); no_quiet_speech.
Qed.

End sentences.

(** X16. No handler of either component speaks twice: whatever the event
    and the state, at most one sentence is handed to the synthesiser; and
    every sentence is spoken with [interrupt] set, except the idle prompt of
    [maybeGiveMovementPrompt]. *)
Theorem one_sentence_per_event nodes edges ACTIVE_NODES indexToNode :
  (∀ ev s,
     let r := NavigationPage.handle nodes edges ACTIVE_NODES indexToNode ev s in
     speeches r.2 ≤ 1 ∧
     (∀ m, Speak m false ∈ r.2 → ∃ now, ev = NavigationPage.MovementTick now)) ∧
  (∀ ev s,
     let r := IntegratedNavigation.handle nodes edges ACTIVE_NODES indexToNode ev s in
     speeches r.2 ≤ 1 ∧
     (∀ m, Speak m false ∈ r.2 →
           ∃ now speaking, ev = IntegratedNavigation.MovementTick now speaking)).
Proof. split; intros ev s; [apply nav_one_sentence|apply int_one_sentence]. Qed.

(** ** A detection that lasts *)

Section sightings.
Context (nodes : gmap string NodeData) (edges : gmap string (list Edge))
  (ACTIVE_NODES : gset string) (indexToNode : gmap nat string).

Lemma nav_first_sighting s i nodeId t a b :
  indexToNode !! i = Some nodeId → nodeId ≠ "" →
  candidate (NavigationPage.debouncer s) ≠ Some nodeId →
  NavigationPage.onTargetFound nodes edges ACTIVE_NODES indexToNode i t a b s
  = (NavigationPage.set_debouncer {| candidate := Some nodeId; candidateSince := t |} s,
     []).
Proof.
  intros Hi Hne Hc. unfold NavigationPage.onTargetFound. rewrite Hi. simpl.
  rewrite bool_decide_eq_true_2 by done.
  unfold acceptStable. by rewrite decide_True by done.
Qed.

Lemma nav_later_sighting s i nodeId t now now' :
  indexToNode !! i = Some nodeId → nodeId ≠ "" →
  candidate (NavigationPage.debouncer s) = Some nodeId →
  (stableMs ≤ t - candidateSince (NavigationPage.debouncer s))%Z →
  NavigationPage.onTargetFound nodes edges ACTIVE_NODES indexToNode i t now now' s
  = NavigationPage.onNodeConfirmed nodes edges ACTIVE_NODES nodeId now now'
      (NavigationPage.set_debouncer (NavigationPage.debouncer s) s).
Proof.
  intros Hi Hne Hc Ht. unfold NavigationPage.onTargetFound. rewrite Hi. simpl.
  rewrite bool_decide_eq_true_2 by done.
  unfold acceptStable. rewrite decide_False by naive_solver.
  by rewrite bool_decide_eq_true_2 by done.
Qed.

Lemma int_first_sighting s i nodeId t a b :
  indexToNode !! i = Some nodeId → nodeId ≠ "" →
  candidate (IntegratedNavigation.debouncer s) ≠ Some nodeId →
  IntegratedNavigation.onTargetFound nodes edges ACTIVE_NODES indexToNode i t a b s
  = (IntegratedNavigation.set_debouncer
       {| candidate := Some nodeId; candidateSince := t |} s, []).
Proof.
  intros Hi Hne Hc. unfold IntegratedNavigation.onTargetFound. rewrite Hi. simpl.
  rewrite bool_decide_eq_true_2 by done.
  unfold acceptStable. by rewrite decide_True by done.
Qed.

Lemma int_later_sighting s i nodeId t now now' :
  indexToNode !! i = Some nodeId → nodeId ≠ "" →
  candidate (IntegratedNavigation.debouncer s) = Some nodeId →
  (stableMs ≤ t - candidateSince (IntegratedNavigation.debouncer s))%Z →
  IntegratedNavigation.onTargetFound nodes edges ACTIVE_NODES indexToNode i t now now' s
  = IntegratedNavigation.onNodeConfirmed nodes edges ACTIVE_NODES nodeId now now'
      (IntegratedNavigation.set_debouncer (IntegratedNavigation.debouncer s) s).
Proof.
  intros Hi Hne Hc Ht. unfold IntegratedNavigation.onTargetFound. rewrite Hi. simpl.
  rewrite bool_decide_eq_true_2 by done.
  unfold acceptStable. rewrite decide_False by naive_solver.
  by rewrite bool_decide_eq_true_2 by done.
Qed.

End sightings.



(** ** Changing the destination, resetting *)



(** ** The shipped tables *)

Section routed.
Context (nodes : gmap string NodeData) (edges : gmap string (list Edge))
  (ACTIVE_NODES : gset string) (indexToNode : gmap nat string).

(** The destination changes with [setDestinationHandler] only. *)
Lemma nav_handle_destination ev s :
  NavigationPage.destinationNode
    (NavigationPage.handle nodes edges ACTIVE_NODES indexToNode ev s).1
    = match ev with
      | NavigationPage.DestinationChanged d => d
      | _ => NavigationPage.destinationNode s
      end.
Proof.
  destruct ev;
  unfold NavigationPage.handle, NavigationPage.onTargetFound,
    NavigationPage.onNodeConfirmed, NavigationPage.onRoute,
    NavigationPage.startRoutingFrom, NavigationPage.announceNextInstruction,
    NavigationPage.setDestinationHandler, NavigationPage.resetNav,
    NavigationPage.handleRepeat, NavigationPage.maybeGiveMovementPrompt,
    NavigationPage.speak_labelled, NavigationPage.speak, NavigationPage.after;
  repeat (simpl; case_match); simpl; done.
Qed.

Lemma nav_run_destination (D : string → Prop) evs : ∀ s,
  D (NavigationPage.destinationNode s) →
  (∀ d, NavigationPage.DestinationChanged d ∈ evs → D d) →
  D (NavigationPage.destinationNode
       (NavigationPage.run nodes edges ACTIVE_NODES indexToNode evs s).1).
Proof.
  induction evs as [|ev evs IH]; intros s Hs Hd; [done|].
  simpl. apply IH.
  - rewrite nav_handle_destination. destruct ev; try done. apply Hd. by left.
  - intros d Hin. apply Hd. by right.
Qed.

Lemma int_run_destination (D : string → Prop) evs : ∀ s,
  D (IntegratedNavigation.destinationNode s) →
  (∀ d, IntegratedNavigation.DestinationChanged d ∈ evs → D d) →
  D (IntegratedNavigation.destinationNode
       (IntegratedNavigation.run nodes edges ACTIVE_NODES indexToNode evs s).1).
Proof.
  induction evs as [|ev evs IH]; intros s Hs Hd; [done|].
  simpl. apply IH.
  - rewrite QuietIntegratedNavigation.handle_destination.
    destruct ev; try done. apply Hd. by left.
  - intros d Hin. apply Hd. by right.
Qed.

(** With a route from the confirmed landmark to the destination, a
    confirmation leaves [NavigationPage] with a route. *)
Lemma nav_confirmed_routed s nodeId now now' :
  nodeId ∈ ACTIVE_NODES →
  is_Some (Planner.bfsPath edges nodeId (NavigationPage.destinationNode s)) →
  is_Some (NavigationPage.path
             (NavigationPage.onNodeConfirmed nodes edges ACTIVE_NODES
                nodeId now now' s).1).
Proof.
  intros Ha [q Hq].
  unfold NavigationPage.onNodeConfirmed, NavigationPage.onRoute,
    NavigationPage.startRoutingFrom, NavigationPage.announceNextInstruction,
    NavigationPage.speak, NavigationPage.after.
  rewrite decide_True by done. simpl. rewrite Hq.
  repeat (simpl; case_match); simpl; simplify_eq/=; eauto.
Qed.

(** ... and [IntegratedNavigation] with a route, or arrived. *)
Lemma int_confirmed_routed s nodeId now now' :
  nodeId ∈ ACTIVE_NODES →
  is_Some (Planner.bfsPath edges nodeId (IntegratedNavigation.destinationNode s)) →
  let r := IntegratedNavigation.onNodeConfirmed nodes edges ACTIVE_NODES
             nodeId now now' s in
  is_Some (IntegratedNavigation.path r.1) ∨ IntegratedNavigation.arrived r.1 = true.
Proof.
  intros Ha [q Hq].
  unfold IntegratedNavigation.onNodeConfirmed, IntegratedNavigation.onRoute,
    IntegratedNavigation.startRoutingFrom,
    IntegratedNavigation.bathroomArrivalMessage,
    IntegratedNavigation.announceNextInstruction,
    IntegratedNavigation.finishArrival, IntegratedNavigation.with_text,
    IntegratedNavigation.speak, IntegratedNavigation.after.
  rewrite decide_True by done. simpl. rewrite Hq.
  repeat (simpl; case_match); simpl; simplify_eq/=; eauto.
Qed.

End routed.

Lemma all_routed_spec edges (act : gset string) x y :
  all_routed edges act = true → x ∈ act → y ∈ act →
  ∃ p, Planner.bfsPath edges x y = Some p ∧ ∀ z, z ∈ p → z ∈ act.
Proof.
  unfold all_routed. rewrite forallb_forall. intros Hall Hx Hy.
  apply elem_of_elements, list_elem_of_In, Hall in Hx.
  rewrite forallb_forall in Hx.
  apply elem_of_elements, list_elem_of_In, Hx in Hy.
  destruct (Planner.bfsPath edges x y) as [p|]; [|done].
  exists p. split; [done|]. rewrite forallb_forall in Hy.
  intros z Hz%list_elem_of_In%Hy. by apply bool_decide_eq_true in Hz.
Qed.



(** ** Checkpoints and proximity alerts of [ObjectDetection] *)

Module ObjectDetectionProofs.
Import ObjectDetection.

(** What one frame does to one checkpoint. *)
Definition step (detectedClasses : list string) (cp : Checkpoint) : Checkpoint :=
  if reached cp then cp
  else match hasRequiredObjects detectedClasses cp with
       | Some true => reach cp
       | _ => cp
       end.

Lemma update_Some d prev next names :
  update d prev = (Some next, names) →
  next = step d <$> prev ∧
  names = name <$> List.filter (λ cp, negb (reached cp) &&
                     bool_decide (hasRequiredObjects d cp = Some true)) prev.
Proof.
  revert next names. induction prev as [|cp prev IH]; intros next names; simpl.
  - by intros [= <- <-].
  - unfold step at 1. destruct (reached cp) eqn:Hr; simpl.
    + destruct (update d prev) as [[next'|] names']; simpl; [|done].
      intros [= <- <-]. by destruct (IH _ _ eq_refl) as [-> ->].
    + destruct (hasRequiredObjects d cp) as [[|]|]; simpl; [| |done].
      * destruct (update d prev) as [[next'|] names']; simpl; [|done].
        intros [= <- <-]. by destruct (IH _ _ eq_refl) as [-> ->].
      * destruct (update d prev) as [[next'|] names']; simpl; [|done].
        intros [= <- <-]. by destruct (IH _ _ eq_refl) as [-> ->].
Qed.

Lemma step_idemp d cp : step d (step d cp) = step d cp.
Proof.
  unfold step. destruct (reached cp) eqn:Hr; [by rewrite Hr|].
  destruct (hasRequiredObjects d cp) as [[|]|] eqn:Hh; simpl; [done| |].
  - by rewrite Hr, Hh.
  - by rewrite Hr, Hh.
Qed.

Lemma update_again d prev next names :
  update d prev = (Some next, names) → update d next = (Some next, []).
Proof.
  revert next names. induction prev as [|cp prev IH]; intros next names; simpl.
  - by intros [= <- <-].
  - destruct (reached cp) eqn:Hr; simpl.
    + destruct (update d prev) as [[next'|] names']; simpl; [|done].
      intros [= <- <-]. simpl. rewrite Hr. by rewrite (IH _ _ eq_refl).
    + destruct (hasRequiredObjects d cp) as [[|]|] eqn:Hh; simpl; [| |done].
      * destruct (update d prev) as [[next'|] names']; simpl; [|done].
        intros [= <- <-]. simpl. by rewrite (IH _ _ eq_refl).
      * destruct (update d prev) as [[next'|] names']; simpl; [|done].
        intros [= <- <-]. simpl. rewrite Hr.
        change (hasRequiredObjects d cp) with (hasRequiredObjects d cp).
        rewrite Hh. by rewrite (IH _ _ eq_refl).
Qed.

Lemma step_keeps d cp :
  id (step d cp) = id cp ∧ name (step d cp) = name cp ∧
  targetObjects (step d cp) = targetObjects cp ∧
  (reached cp = true → reached (step d cp) = true).
Proof.
  unfold step. destruct (reached cp) eqn:Hr; [done|].
  by destruct (hasRequiredObjects d cp) as [[|]|].
Qed.

Lemma step_new d cp :
  negb (reached cp) && reached (step d cp)
  = negb (reached cp) && bool_decide (hasRequiredObjects d cp = Some true).
Proof.
  unfold step. destruct (reached cp) eqn:Hr; simpl; [done|].
  destruct (hasRequiredObjects d cp) as [[|]|]; simpl; by rewrite ?Hr.
Qed.

Lemma names_zip d prev :
  name <$> List.filter (λ cp, negb (reached cp) &&
             bool_decide (hasRequiredObjects d cp = Some true)) prev
  = (λ x, name x.1) <$>
      List.filter (λ x, negb (reached x.1) && reached x.2) (zip prev (step d <$> prev)).
Proof.
  induction prev as [|cp prev IH]; [done|].
  cbn [List.filter fmap list_fmap zip zip_with fst snd].
  rewrite step_new.
  destruct (negb (reached cp) && _); cbn [fmap list_fmap fst]; by rewrite IH.
Qed.

(** The target objects of the shipped checkpoints. *)
Definition known : list string := ["person"; "toilet"; "sink"; "chair"; "bench"].

Definition plain (cp : Checkpoint) : Prop := ∀ t, t ∈ targetObjects cp → t ∈ known.

(** For them neither the normalisation nor the class mappings matter. *)
Lemma matchesTarget_known d t :
  t ∈ known → matchesTarget d t = Some (bool_decide (t ∈ d)).
Proof.
  intros Ht. unfold known in Ht.
  repeat (apply elem_of_cons in Ht as [->|Ht];
          [unfold matchesTarget;
           match goal with |- context [normalize ?t] =>
             change (normalize t) with t;
             assert (classMappings !! t = Some [t]) as -> by (by vm_compute)
           end;
           simpl; by case_bool_decide|]).
  by apply elem_of_nil in Ht.
Qed.

Lemma some_known d ts :
  (∀ t, t ∈ ts → t ∈ known) →
  some (matchesTarget d) ts = Some (existsb (λ t, bool_decide (t ∈ d)) ts).
Proof.
  induction ts as [|t ts IH]; intros Hts; simpl; [done|].
  rewrite matchesTarget_known by (apply Hts; by left).
  case_bool_decide as Ht; simpl; [done|].
  apply IH. intros t' Ht'. apply Hts. by right.
Qed.

Lemma existsb_detected (d ts : list string) :
  existsb (λ t, bool_decide (t ∈ d)) ts = true ↔ ∃ t, t ∈ ts ∧ t ∈ d.
Proof.
  rewrite existsb_exists. split.
  - intros (t & Hin%list_elem_of_In & Hd%bool_decide_eq_true). eauto.
  - intros (t & Hin & Hd). exists t. split; [by apply list_elem_of_In|].
    by apply bool_decide_eq_true.
Qed.

Lemma update_known d prev :
  Forall plain prev → (update d prev).1 = Some (step d <$> prev).
Proof.
  induction 1 as [|cp prev Hcp _ IH]; simpl; [done|].
  unfold step at 1, hasRequiredObjects. rewrite (some_known d _ Hcp).
  destruct (reached cp); simpl; [by rewrite IH|].
  destruct (existsb _ _); simpl; by rewrite IH.
Qed.

Lemma step_known d cp :
  plain cp →
  reached (step d cp) = true ↔
  reached cp = true ∨ ∃ t, t ∈ targetObjects cp ∧ t ∈ d.
Proof.
  intros Hcp. unfold step, hasRequiredObjects. rewrite (some_known d _ Hcp).
  rewrite <-existsb_detected.
  destruct (reached cp) eqn:Hr; [naive_solver|].
  destruct (existsb _ _); simpl; [naive_solver|]. rewrite Hr. naive_solver.
Qed.

(** One checkpoint through a series of frames. *)
Definition after_frames (fs : list (list string)) (cp : Checkpoint) : Checkpoint :=
  foldl (λ cp classes, step (normalize <$> classes) cp) cp fs.

(** A class with normal form [t] was detected in one of the frames. *)
Definition seen (fs : list (list string)) (t : string) : Prop :=
  ∃ classes c, classes ∈ fs ∧ c ∈ classes ∧ normalize c = t.

Lemma frames_known fs : ∀ prev,
  Forall plain prev → frames fs prev = Some (after_frames fs <$> prev).
Proof.
  induction fs as [|classes fs IH]; intros prev Hp; simpl.
  - f_equal. induction prev; simpl; [done|]. f_equal.
    apply IHprev. by eapply Forall_inv_tail.
  - unfold checkForCheckpoints. rewrite update_known by done.
    rewrite IH.
    + f_equal. by rewrite <-list_fmap_compose.
    + apply Forall_fmap. eapply Forall_impl; [done|].
      intros cp Hcp t. unfold compose.
      destruct (step_keeps (normalize <$> classes) cp) as (_ & _ & -> & _).
      apply Hcp.
Qed.

Lemma after_frames_spec fs : ∀ cp,
  plain cp →
  id (after_frames fs cp) = id cp ∧ name (after_frames fs cp) = name cp ∧
  targetObjects (after_frames fs cp) = targetObjects cp ∧
  (reached (after_frames fs cp) = true ↔
   reached cp = true ∨ ∃ t, t ∈ targetObjects cp ∧ seen fs t).
Proof.
  induction fs as [|classes fs IH]; intros cp Hcp; simpl.
  - split_and!; try done. split; [by left|]. intros [?|(t & _ & cs & c & Hcs & _)]; [done|].
    by apply elem_of_nil in Hcs.
  - destruct (step_keeps (normalize <$> classes) cp) as (Hi & Hn & Ht & _).
    destruct (IH (step (normalize <$> classes) cp)) as (IHi & IHn & IHt & IHr).
    { intros t. rewrite Ht. apply Hcp. }
    unfold after_frames in *. simpl.
    split_and!; [congruence..|].
    rewrite IHr, Ht, (step_known _ _ Hcp). split.
    + intros [[Hr|(t & Hin & Hd)]|(t & Hin & cs & c & Hcs & Hc & Hnc)].
      * by left.
      * right. exists t. split; [done|].
        apply list_elem_of_fmap in Hd as (c & -> & Hc).
        exists classes, c. split_and!; [by left|done|done].
      * right. exists t. split; [done|]. exists cs, c. split_and!; [by right|done|done].
    + intros [Hr|(t & Hin & cs & c & [->|Hcs]%elem_of_cons & Hc & Hnc)].
      * by left; left.
      * left; right. exists t. split; [done|]. rewrite <-Hnc.
        apply list_elem_of_fmap. by exists c.
      * right. exists t. split; [done|]. by exists cs, c.
Qed.

Lemma checkpoints_plain : Forall plain checkpoints.
Proof.
  unfold checkpoints, plain, known.
  repeat (apply Forall_cons_2; [simpl; set_solver|]). constructor.
Qed.

End ObjectDetectionProofs.

(** X20. One frame of [checkForCheckpoints], on any list of checkpoints,
    when its updater does not throw: the list keeps its length and order,
    every checkpoint keeps its id, name and target objects, a checkpoint
    that was reached stays reached, and the announcements queued are the
    names of the checkpoints that this frame turned to reached, in order.
    The same frame once more changes nothing and announces nothing; and
    [resetCheckpoints] afterwards gives what it gives before. *)
Theorem checkpoints_only_gain classes prev next names :
  ObjectDetection.checkForCheckpoints classes prev = (Some next, names) →
  Forall2 (λ cp cp',
     ObjectDetection.id cp' = ObjectDetection.id cp ∧
     ObjectDetection.name cp' = ObjectDetection.name cp ∧
     ObjectDetection.targetObjects cp' = ObjectDetection.targetObjects cp ∧
     (ObjectDetection.reached cp = true → ObjectDetection.reached cp' = true))
    prev next ∧
  names = (λ x, ObjectDetection.name x.1) <$>
            List.filter (λ x, negb (ObjectDetection.reached x.1) &&
                              ObjectDetection.reached x.2) (zip prev next) ∧
  ObjectDetection.checkForCheckpoints classes next = (Some next, []) ∧
  ObjectDetection.resetCheckpoints next = ObjectDetection.resetCheckpoints prev.
Proof.
  unfold ObjectDetection.checkForCheckpoints. intros Hu.
  pose proof (ObjectDetectionProofs.update_again _ _ _ _ Hu) as Hagain.
  apply ObjectDetectionProofs.update_Some in Hu as [-> ->].
  split_and!; [| |done|].
  - apply Forall2_fmap_r, Forall_Forall2_diag, Forall_forall.
    intros cp _. apply ObjectDetectionProofs.step_keeps.
  - apply ObjectDetectionProofs.names_zip.
  - unfold ObjectDetection.resetCheckpoints. rewrite <-list_fmap_compose.
    apply list_fmap_ext. intros i cp _. simpl.
    by destruct (ObjectDetectionProofs.step_keeps
                   (ObjectDetection.normalize <$> classes) cp) as (-> & -> & -> & _).
Qed.

Lemma checkpoints_only_gain_witness :
  ObjectDetection.checkForCheckpoints ["Toilet "]
    [ {| ObjectDetection.id := "elevator"; ObjectDetection.name := "Elevator";
         ObjectDetection.targetObjects := ["person"];
         ObjectDetection.reached := false |};
      {| ObjectDetection.id := "washroom"; ObjectDetection.name := "Washroom";
         ObjectDetection.targetObjects := ["toilet"; "sink"];
         ObjectDetection.reached := true |};
      {| ObjectDetection.id := "mainhall"; ObjectDetection.name := "Main Hall";
         ObjectDetection.targetObjects := ["chair"; "bench"; "person"];
         ObjectDetection.reached := false |};
      {| ObjectDetection.id := "exitdoor"; ObjectDetection.name := "Exit Door";
         ObjectDetection.targetObjects := ["person"];
         ObjectDetection.reached := false |} ]
  = (Some [ {| ObjectDetection.id := "elevator"; ObjectDetection.name := "Elevator";
               ObjectDetection.targetObjects := ["person"];
               ObjectDetection.reached := false |};
            {| ObjectDetection.id := "washroom"; ObjectDetection.name := "Washroom";
               ObjectDetection.targetObjects := ["toilet"; "sink"];
               ObjectDetection.reached := true |};
            {| ObjectDetection.id := "mainhall"; ObjectDetection.name := "Main Hall";
               ObjectDetection.targetObjects := ["chair"; "bench"; "person"];
               ObjectDetection.reached := false |};
            {| ObjectDetection.id := "exitdoor"; ObjectDetection.name := "Exit Door";
               ObjectDetection.targetObjects := ["person"];
               ObjectDetection.reached := false |} ], []).
Proof.
  apply (checkpoints_only_gain ["Toilet "] ObjectDetection.checkpoints _ ["Washroom"]).
  by vm_compute.
Defined.

(** X21. The shipped checkpoints through any series of detection frames:
    no updater throws, and at the end a checkpoint is reached exactly when
    the lower-cased, trimmed class of some prediction of some frame is one
    of its target objects; the class mappings add nothing, and neither the
    order of the frames nor what else was detected matters. In particular
    one detected person marks the elevator, the main hall and the exit
    door reached together. *)
Theorem shipped_checkpoints_reached fs :
  ∃ final,
    ObjectDetection.frames fs ObjectDetection.checkpoints = Some final ∧
    Forall2 (λ cp cp',
       ObjectDetection.id cp' = ObjectDetection.id cp ∧
       ObjectDetection.name cp' = ObjectDetection.name cp ∧
       ObjectDetection.targetObjects cp' = ObjectDetection.targetObjects cp ∧
       (ObjectDetection.reached cp' = true ↔
        ∃ t, t ∈ ObjectDetection.targetObjects cp ∧ ObjectDetectionProofs.seen fs t))
      ObjectDetection.checkpoints final ∧
    (ObjectDetectionProofs.seen fs "person" →
     ∀ cp', cp' ∈ final →
       ObjectDetection.id cp' ∈ ["elevator"; "mainhall"; "exitdoor"] →
       ObjectDetection.reached cp' = true).
Proof.
  eexists. split; [apply ObjectDetectionProofs.frames_known,
                     ObjectDetectionProofs.checkpoints_plain|].
  assert (Forall (λ cp,
            ObjectDetection.id (ObjectDetectionProofs.after_frames fs cp)
              = ObjectDetection.id cp ∧
            ObjectDetection.name (ObjectDetectionProofs.after_frames fs cp)
              = ObjectDetection.name cp ∧
            ObjectDetection.targetObjects (ObjectDetectionProofs.after_frames fs cp)
              = ObjectDetection.targetObjects cp ∧
            (ObjectDetection.reached (ObjectDetectionProofs.after_frames fs cp) = true ↔
             ∃ t, t ∈ ObjectDetection.targetObjects cp ∧ ObjectDetectionProofs.seen fs t))
            ObjectDetection.checkpoints) as Hall.
  { assert (Forall (λ cp, ObjectDetectionProofs.plain cp ∧
                          ObjectDetection.reached cp = false)
              ObjectDetection.checkpoints) as Hshipped.
    { unfold ObjectDetection.checkpoints, ObjectDetectionProofs.plain,
        ObjectDetectionProofs.known.
      repeat (apply Forall_cons_2; [split; [simpl; set_solver|done]|]). constructor. }
    eapply Forall_impl; [exact Hshipped|].
    intros cp [Hcp Hr].
    destruct (ObjectDetectionProofs.after_frames_spec fs cp Hcp) as (H1 & H2 & H3 & H4).
    split_and!; try done. rewrite H4, Hr. naive_solver. }
  split.
  - by apply Forall2_fmap_r, Forall_Forall2_diag.
  - intros Hperson cp' (cp & -> & Hcp)%list_elem_of_fmap Hid.
    rewrite Forall_forall in Hall. destruct (Hall cp Hcp) as (Hi & _ & _ & Hr).
    apply Hr. exists "person". split; [|done].
    rewrite Hi in Hid. unfold ObjectDetection.checkpoints in Hcp.
    repeat (apply elem_of_cons in Hcp as [->|Hcp]; [simpl in *; set_solver|]).
    by apply elem_of_nil in Hcp.
Qed.

Section proximity.
Context {Prediction : Type} (class : Prediction → string)
  (estimateDistance : Prediction → ObjectDetection.Distance).

Lemma alerts_head fs : ∀ last t text rest,
  ObjectDetection.alerts class estimateDistance fs last = (t, text) :: rest →
  (3000 ≤ t - last)%Z ∧
  ∃ fs1 predictions fs2,
    fs = fs1 ++ (t, predictions) :: fs2 ∧
    List.filter (ObjectDetection.veryClose estimateDistance) predictions ≠ [] ∧
    text = "Warning! Objects very close: " +:+
           ObjectDetection.join
             (class <$> List.filter (ObjectDetection.veryClose estimateDistance)
                          predictions) ∧
    rest = ObjectDetection.alerts class estimateDistance fs2 t.
Proof.
  induction fs as [|[now predictions] fs IH]; intros last t text rest; simpl; [done|].
  unfold ObjectDetection.checkProximityAlerts.
  case_decide as Hnow; simpl.
  - intros H. destruct (IH _ _ _ _ H) as (Ht & fs1 & ps & fs2 & -> & Hne & Htext & Hrest).
    split; [done|]. by exists ((now, predictions) :: fs1), ps, fs2.
  - case_decide as Hlen; simpl.
    + intros [= <- <- <-]. split; [lia|].
      exists [], predictions, fs. split_and!; try done.
      intros Hnil. rewrite Hnil in Hlen. simpl in Hlen. lia.
    + intros H. destruct (IH _ _ _ _ H) as (Ht & fs1 & ps & fs2 & -> & Hne & Htext & Hrest).
      split; [done|]. by exists ((now, predictions) :: fs1), ps, fs2.
Qed.

End proximity.

(** X22. The proximity alerts of [checkProximityAlerts], whatever
    [estimateDistance] computes and whatever the clock reads: a warning is
    spoken only for a frame with at least one object that is very close,
    names the classes of exactly those objects, comes no sooner than
    3000 ms after the time kept in [lastProximityAlertRef], and any two
    warnings that follow one another are at least 3000 ms apart. *)
Theorem proximity_alerts_are_spaced {Prediction : Type} (class : Prediction → string)
    (estimateDistance : Prediction → ObjectDetection.Distance) fs last :
  let a := ObjectDetection.alerts class estimateDistance fs last in
  (∀ t text, head a = Some (t, text) → (3000 ≤ t - last)%Z) ∧
  (∀ i t1 text1 t2 text2,
     a !! i = Some (t1, text1) → a !! S i = Some (t2, text2) → (3000 ≤ t2 - t1)%Z) ∧
  (∀ t text, (t, text) ∈ a →
     ∃ predictions, (t, predictions) ∈ fs ∧
       List.filter (ObjectDetection.veryClose estimateDistance) predictions ≠ [] ∧
       text = "Warning! Objects very close: " +:+
              ObjectDetection.join
                (class <$> List.filter (ObjectDetection.veryClose estimateDistance)
                             predictions)).
Proof.
  cbv zeta. split_and!.
  - intros t text Hh.
    destruct (ObjectDetection.alerts _ _ _ _) as [|[t' x] rest] eqn:Ha; [done|].
    simpl in Hh. injection Hh as -> ->. by apply alerts_head in Ha as [? _].
  - revert last.
    assert (∀ n fs last, length fs ≤ n → ∀ i t1 text1 t2 text2,
      ObjectDetection.alerts class estimateDistance fs last !! i = Some (t1, text1) →
      ObjectDetection.alerts class estimateDistance fs last !! S i = Some (t2, text2) →
      (3000 ≤ t2 - t1)%Z) as Hgen.
    { induction n as [|n IH]; intros fs' last Hn i t1 text1 t2 text2 H1 H2.
      { destruct fs'; [done|simpl in Hn; lia]. }
      destruct (ObjectDetection.alerts _ _ fs' last) as [|[t x] rest] eqn:Ha; [done|].
      apply alerts_head in Ha as (_ & fs1 & ps & fs2 & -> & _ & _ & ->).
      rewrite length_app in Hn. simpl in Hn.
      destruct i as [|i]; simpl in H1, H2.
      - injection H1 as -> ->.
        destruct (ObjectDetection.alerts _ _ fs2 t1) as [|[t' x'] rest'] eqn:Ha'; [done|].
        simpl in H2. injection H2 as -> ->. by apply alerts_head in Ha' as [? _].
      - apply (IH fs2 t ltac:(lia) i t1 text1 t2 text2); done. }
    intros last. by apply (Hgen (length fs) fs last).
  - revert last. induction fs as [|[now predictions] fs IH]; intros last t text; simpl.
    { intros Hin. by apply elem_of_nil in Hin. }
    unfold ObjectDetection.checkProximityAlerts.
    case_decide as Hnow; simpl.
    + intros (ps & Hin & ?)%IH. exists ps. split; [by right|done].
    + case_decide as Hlen; simpl.
      * intros [[= -> ->]|Hin]%elem_of_cons.
        -- exists predictions. split_and!; [by left| |done].
           intros Hnil. rewrite Hnil in Hlen. simpl in Hlen. lia.
        -- apply IH in Hin as (ps & Hin & ?). exists ps. split; [by right|done].
      * intros (ps & Hin & ?)%IH. exists ps. split; [by right|done].
Qed.
